(** * MOTION: circuit registry and square-pair provider

    A shallow embedding of
    - [Core] (the circuit registry: id counters, gate table, transport
      dispatch and the active-gate queue), and
    - [SpProvider] / [SpProviderFromOts] (square pairs from additively
      correlated OTs, src/motioncore/multiplication_triple/sp_provider.cpp),
    together with the properties the specification states about them.

    Conventions.
    - [std::size_t] is the 64-bit unsigned type of the LP64 targets that
      also provide [__uint128_t]; a counter on which the code does
      arithmetic is a [Z] with the wrap-around written out ([size_t_wrap]).
      A [size_t] that is only used to index a vector, or as a loop counter
      bounded by the length of the vector it indexes, is a [nat].
    - [std::vector] and [std::list] are lists; [v.at(i)] is a lookup that
      throws [out_of_range]; a [std::shared_ptr] is an [option] with
      [None] for [nullptr].
    - Methods are state transformers returning the value (or the exception)
      together with the state they leave behind.
    - [assert(e)] is modelled as in a build without [NDEBUG]: if [e] is
      false the call ends with [assertion_failure] and changes nothing.
      With [NDEBUG] the check is compiled out, so the two builds agree on
      every call in which no assertion fails. *)

From Stdlib Require Import ZArith Lia Bool.
From stdpp Require Import base tactics option list strings.

Local Open Scope Z_scope.

(** ** C++ runtime: exceptions and fixed-width integers *)

Module Cxx.

Inductive exn : Type :=
| runtime_error (what : string)
| out_of_range
| assertion_failure
| undefined_behaviour
| diverges.

Inductive result (A : Type) : Type :=
| Ok (a : A)
| Throw (e : exn).

Arguments Ok {A} a.
Arguments Throw {A} e.

(** A computation over a state [S]: the outcome and the state left behind
    (for an exception, the state at the point of the throw). *)
Definition M (S A : Type) : Type := S -> result A * S.

Definition ret {S A} (a : A) : M S A := fun s => (Ok a, s).

Definition throw {S A} (e : exn) : M S A := fun s => (Throw e, s).

Definition bind {S A B} (m : M S A) (k : A -> M S B) : M S B :=
  fun s => match m s with
           | (Ok a, s') => k a s'
           | (Throw e, s') => (Throw e, s')
           end.

Definition get {S} : M S S := fun s => (Ok s, s).

Definition put {S} (s : S) : M S unit := fun _ => (Ok tt, s).

Definition modify {S} (f : S -> S) : M S unit := fun s => (Ok tt, f s).

(** [for (i : l) body(i)], stopping at the first exception. *)
Fixpoint for_each {S A} (l : list A) (body : A -> M S unit) : M S unit :=
  match l with
  | [] => ret tt
  | x :: l' => bind (body x) (fun _ => for_each l' body)
  end.

(** [v.at(i)] *)
Definition at_ {S A} (v : list A) (i : nat) : M S A :=
  match v !! i with
  | Some x => ret x
  | None => throw out_of_range
  end.

Definition size_t_bits : Z := 64.

Definition size_t_wrap (x : Z) : Z := x mod 2 ^ size_t_bits.

(** Arithmetic of an unsigned integer type of [w] bits. *)
Definition wrap (w : Z) (x : Z) : Z := x mod 2 ^ w.

End Cxx.

Export Cxx.

Declare Scope cxx_scope.
Delimit Scope cxx_scope with cxx.
Notation "'let*' x ':=' m 'in' k" := (bind m (fun x => k))
  (at level 10, x name, m at level 100, k at level 200) : cxx_scope.
Notation "'do*' m 'in' k" := (bind m (fun _ => k))
  (at level 10, m at level 100, k at level 200) : cxx_scope.

(** ** The circuit registry *)

Module Core.

Section Registry.

(** The gate, wire and message objects are opaque to the registry. *)
Context {Gate Wire Message : Type}.

Definition GatePtr : Type := option Gate.
Definition WirePtr : Type := option Wire.

(** Modelled from the spec: [CommunicationHandler::SendMessage] is not in
    src/; the handler for a party is represented by the sequence of buffers
    it was asked to transmit, and [SendMessage] appends one. *)
Record CommunicationHandler : Type := mkHandler { sent : list Message }.

Definition SendMessage (message : Message) (h : CommunicationHandler)
  : CommunicationHandler :=
  {| sent := sent h ++ [message] |}.

Definition CommunicationHandlerPtr : Type := option CommunicationHandler.

Record Core : Type := mkCore {
  my_id : nat;                          (* config_->GetMyId() *)
  global_gate_id_ : Z;
  global_wire_id_ : Z;
  global_arithmetic_sharing_id_ : Z;
  global_gmw_sharing_id_ : Z;
  evaluated_gates : Z;
  active_gates_ : list Z;
  input_gates_ : list GatePtr;
  gates_ : list GatePtr;
  wires_ : list WirePtr;
  communication_handlers_ : list CommunicationHandlerPtr
}.

(** The state the constructor and the member initialisers leave. *)
Definition init (id : nat) : Core :=
  {| my_id := id;
     global_gate_id_ := 0;
     global_wire_id_ := 0;
     global_arithmetic_sharing_id_ := 0;
     global_gmw_sharing_id_ := 0;
     evaluated_gates := 0;
     active_gates_ := [];
     input_gates_ := [];
     gates_ := [];
     wires_ := [];
     communication_handlers_ := [] |}.

Definition set_global_gate_id (v : Z) (c : Core) : Core :=
  mkCore (my_id c) v (global_wire_id_ c) (global_arithmetic_sharing_id_ c)
    (global_gmw_sharing_id_ c) (evaluated_gates c) (active_gates_ c)
    (input_gates_ c) (gates_ c) (wires_ c) (communication_handlers_ c).

Definition set_global_wire_id (v : Z) (c : Core) : Core :=
  mkCore (my_id c) (global_gate_id_ c) v (global_arithmetic_sharing_id_ c)
    (global_gmw_sharing_id_ c) (evaluated_gates c) (active_gates_ c)
    (input_gates_ c) (gates_ c) (wires_ c) (communication_handlers_ c).

Definition set_global_arithmetic_sharing_id (v : Z) (c : Core) : Core :=
  mkCore (my_id c) (global_gate_id_ c) (global_wire_id_ c) v
    (global_gmw_sharing_id_ c) (evaluated_gates c) (active_gates_ c)
    (input_gates_ c) (gates_ c) (wires_ c) (communication_handlers_ c).

Definition set_global_gmw_sharing_id (v : Z) (c : Core) : Core :=
  mkCore (my_id c) (global_gate_id_ c) (global_wire_id_ c)
    (global_arithmetic_sharing_id_ c) v (evaluated_gates c) (active_gates_ c)
    (input_gates_ c) (gates_ c) (wires_ c) (communication_handlers_ c).

Definition set_evaluated_gates (v : Z) (c : Core) : Core :=
  mkCore (my_id c) (global_gate_id_ c) (global_wire_id_ c)
    (global_arithmetic_sharing_id_ c) (global_gmw_sharing_id_ c) v
    (active_gates_ c) (input_gates_ c) (gates_ c) (wires_ c)
    (communication_handlers_ c).

Definition set_active_gates (v : list Z) (c : Core) : Core :=
  mkCore (my_id c) (global_gate_id_ c) (global_wire_id_ c)
    (global_arithmetic_sharing_id_ c) (global_gmw_sharing_id_ c)
    (evaluated_gates c) v (input_gates_ c) (gates_ c) (wires_ c)
    (communication_handlers_ c).

Definition set_input_gates (v : list GatePtr) (c : Core) : Core :=
  mkCore (my_id c) (global_gate_id_ c) (global_wire_id_ c)
    (global_arithmetic_sharing_id_ c) (global_gmw_sharing_id_ c)
    (evaluated_gates c) (active_gates_ c) v (gates_ c) (wires_ c)
    (communication_handlers_ c).

Definition set_gates (v : list GatePtr) (c : Core) : Core :=
  mkCore (my_id c) (global_gate_id_ c) (global_wire_id_ c)
    (global_arithmetic_sharing_id_ c) (global_gmw_sharing_id_ c)
    (evaluated_gates c) (active_gates_ c) (input_gates_ c) v (wires_ c)
    (communication_handlers_ c).

Definition set_wires (v : list WirePtr) (c : Core) : Core :=
  mkCore (my_id c) (global_gate_id_ c) (global_wire_id_ c)
    (global_arithmetic_sharing_id_ c) (global_gmw_sharing_id_ c)
    (evaluated_gates c) (active_gates_ c) (input_gates_ c) (gates_ c) v
    (communication_handlers_ c).

Definition set_communication_handlers (v : list CommunicationHandlerPtr)
  (c : Core) : Core :=
  mkCore (my_id c) (global_gate_id_ c) (global_wire_id_ c)
    (global_arithmetic_sharing_id_ c) (global_gmw_sharing_id_ c)
    (evaluated_gates c) (active_gates_ c) (input_gates_ c) (gates_ c)
    (wires_ c) v.

(** *** Identifier allocation *)

(** [return global_gate_id_++;] *)
Definition NextGateId : M Core Z := fun c =>
  (Ok (global_gate_id_ c),
   set_global_gate_id (size_t_wrap (global_gate_id_ c + 1)) c).

Definition NextWireId : M Core Z := fun c =>
  (Ok (global_wire_id_ c),
   set_global_wire_id (size_t_wrap (global_wire_id_ c + 1)) c).

Definition NextArithmeticSharingId (num_of_parallel_values : Z) : M Core Z :=
  fun c =>
    if decide (num_of_parallel_values = 0) then (Throw assertion_failure, c)
    else
      let old_id := global_arithmetic_sharing_id_ c in
      (Ok old_id,
       set_global_arithmetic_sharing_id
         (size_t_wrap (old_id + num_of_parallel_values)) c).

Definition NextBooleanGMWSharingId (num_of_parallel_values : Z) : M Core Z :=
  fun c =>
    if decide (num_of_parallel_values = 0) then (Throw assertion_failure, c)
    else
      let old_id := global_gmw_sharing_id_ c in
      (Ok old_id,
       set_global_gmw_sharing_id
         (size_t_wrap (old_id + num_of_parallel_values)) c).

(** [k] successive calls of [NextGateId], collecting what they return. *)
Fixpoint NextGateId_calls (k : nat) : M Core (list Z) :=
  match k with
  | O => ret []
  | S k' => (let* x := NextGateId in
             let* xs := NextGateId_calls k' in
             ret (x :: xs))%cxx
  end.

(** Successive calls [NextArithmeticSharingId(n_1)], [...(n_2)], ... *)
Fixpoint NextArithmeticSharingId_calls (ns : list Z) : M Core (list Z) :=
  match ns with
  | [] => ret []
  | n :: ns' =>
      (let* x := NextArithmeticSharingId n in
       let* xs := NextArithmeticSharingId_calls ns' in
       ret (x :: xs))%cxx
  end.

Definition sumZ (l : list Z) : Z := foldr Z.add 0 l.

(** The returned starts increase strictly, consecutive ones [n_j] apart. *)
Definition gaps_exactly (ns starts : list Z) : Prop :=
  length starts = length ns /\
  forall (j : nat) (s s' n : Z),
    starts !! j = Some s -> starts !! (S j) = Some s' -> ns !! j = Some n ->
    s < s' /\ s' - s = n.

(** *** Transport

    Here every slot of the table holds its handler by value, which is how
    [Send] acts on a table whose slots refer to handler objects of their
    own.  Handlers shared between slots, as [std::shared_ptr] allows, are
    modelled in [CoreTransport] below. *)

Definition RegisterCommunicationHandlers
  (communication_handlers : list CommunicationHandlerPtr) : M Core unit :=
  modify (set_communication_handlers communication_handlers).

Definition Send (party_id : nat) (message : Message) : M Core unit := fun c =>
  if decide (party_id = my_id c) then
    (Throw (runtime_error "Want to send message to myself"), c)
  else
    match communication_handlers_ c !! party_id with
    | None => (Throw out_of_range, c)
    | Some None => (Throw undefined_behaviour, c)
    | Some (Some h) =>
        (Ok tt,
         set_communication_handlers
           (<[party_id := Some (SendMessage message h)]>
              (communication_handlers_ c)) c)
    end.

(** *** Gate and wire tables *)

Definition RegisterNextGate (gate : GatePtr) : M Core unit := fun c =>
  match gate with
  | None => (Throw assertion_failure, c)
  | Some _ => (Ok tt, set_gates (gates_ c ++ [gate]) c)
  end.

Definition RegisterNextInputGate (gate : GatePtr) : M Core unit :=
  (do* RegisterNextGate gate in
   fun c =>
     match gate with
     | None => (Throw assertion_failure, c)
     | Some _ => (Ok tt, set_input_gates (input_gates_ c ++ [gate]) c)
     end)%cxx.

Definition GetGate (gate_id : nat) : M Core GatePtr := fun c =>
  at_ (gates_ c) gate_id c.

Definition UnregisterGate (gate_id : nat) : M Core unit := fun c =>
  match gates_ c !! gate_id with
  | None => (Throw out_of_range, c)
  | Some _ => (Ok tt, set_gates (<[gate_id := None]> (gates_ c)) c)
  end.

Definition RegisterNextWire (wire : WirePtr) : M Core unit :=
  modify (fun c => set_wires (wires_ c ++ [wire]) c).

Definition GetWire (wire_id : nat) : M Core WirePtr := fun c =>
  at_ (wires_ c) wire_id c.

Definition UnregisterWire (wire_id : nat) : M Core unit := fun c =>
  match wires_ c !! wire_id with
  | None => (Throw out_of_range, c)
  | Some _ => (Ok tt, set_wires (<[wire_id := None]> (wires_ c)) c)
  end.

(** Build-phase operations on the gate table. *)
Inductive gate_op : Type :=
| OpRegisterNextGate (g : GatePtr)
| OpRegisterNextInputGate (g : GatePtr)
| OpUnregisterGate (gate_id : nat).

Definition run_gate_op (o : gate_op) : M Core unit :=
  match o with
  | OpRegisterNextGate g => RegisterNextGate g
  | OpRegisterNextInputGate g => RegisterNextInputGate g
  | OpUnregisterGate i => UnregisterGate i
  end.

Definition run_gate_ops (ops : list gate_op) : M Core unit :=
  for_each ops run_gate_op.

(** The handles passed to the registering calls, in call order. *)
Fixpoint registered (ops : list gate_op) : list GatePtr :=
  match ops with
  | [] => []
  | OpRegisterNextGate g :: ops' => g :: registered ops'
  | OpRegisterNextInputGate g :: ops' => g :: registered ops'
  | OpUnregisterGate _ :: ops' => registered ops'
  end.

(** The slots named by the unregistering calls. *)
Fixpoint unregistered (ops : list gate_op) : list nat :=
  match ops with
  | [] => []
  | OpUnregisterGate i :: ops' => i :: unregistered ops'
  | _ :: ops' => unregistered ops'
  end.

(** *** Evaluation counters *)

Definition IncrementEvaluatedGatesCounter : M Core unit :=
  modify (fun c => set_evaluated_gates (size_t_wrap (evaluated_gates c + 1)) c).

Definition GetNumOfEvaluatedGates : M Core Z := fun c =>
  (Ok (evaluated_gates c), c).

Definition GetTotalNumOfGates : M Core Z := fun c =>
  (Ok (global_gate_id_ c), c).

(** *** The active-gate queue, one caller at a time *)

(** [static_cast<std::int64_t>] of a [size_t]. *)
Definition to_int64 (x : Z) : Z := if x <? 2 ^ 63 then x else x - 2 ^ 64.

(** Lock, push, trace-log, unlock at scope exit. *)
Definition AddToActiveQueue (gate_id : Z) : M Core unit :=
  modify (fun c => set_active_gates (active_gates_ c ++ [gate_id]) c).

Definition GetNextGateFromOnlineQueue : M Core Z := fun c =>
  match active_gates_ c with
  | [] => (Ok (-1), c)
  | gate_id :: rest =>
      if decide (gate_id < 2 ^ 64 - 1) then
        (Ok (to_int64 gate_id), set_active_gates rest c)
      else (Throw assertion_failure, c)
  end.

End Registry.

Arguments Core : clear implicits.
Arguments CommunicationHandler : clear implicits.
Arguments CommunicationHandlerPtr : clear implicits.
Arguments gate_op : clear implicits.

(** *** The active-gate queue under interleaving

    Evaluator threads run [AddToActiveQueue] and
    [GetNextGateFromOnlineQueue] concurrently.  Each thread is a small
    program whose points are the accesses to the shared queue and mutex in
    the order the source performs them; a schedule picks the thread that
    takes the next step. *)

Inductive pc : Type :=
(* AddToActiveQueue(gate_id) *)
| AddLock (gate_id : Z)        (* std::scoped_lock lock(active_queue_mutex_) *)
| AddPush (gate_id : Z)        (* active_gates_.push(gate_id) *)
| AddUnlock (gate_id : Z)      (* LogTrace; the lock is released at scope exit *)
(* GetNextGateFromOnlineQueue() *)
| PopCheck                     (* if (active_gates_.size() == 0) *)
| PopFront                     (* auto gate_id = active_gates_.front() *)
| PopAssert (gate_id : Z)      (* assert(gate_id < SIZE_MAX) *)
| PopLock (gate_id : Z)        (* std::scoped_lock lock(active_queue_mutex_) *)
| PopPop (gate_id : Z)         (* active_gates_.pop() *)
| PopUnlock (gate_id : Z)      (* return; the lock is released at scope exit *)
(* the call has returned, or was cut short *)
| Returned (value : option Z)
| Crashed (e : exn).

Record shared : Type := mkShared {
  sh_active_gates : list Z;
  sh_mutex : option nat;         (* the thread holding active_queue_mutex_ *)
  sh_threads : list pc
}.

(** One step of thread [tid], the new shared queue, mutex and its next
    program point; [None] when the thread cannot move (it waits for the
    mutex, or its call is over). *)
Definition thread_step (tid : nat) (q : list Z) (m : option nat) (p : pc)
  : option (list Z * option nat * pc) :=
  match p with
  | AddLock g =>
      match m with
      | None => Some (q, Some tid, AddPush g)
      | Some _ => None
      end
  | AddPush g => Some (q ++ [g], m, AddUnlock g)
  | AddUnlock g => Some (q, None, Returned None)
  | PopCheck =>
      match q with
      | [] => Some (q, m, Returned (Some (-1)))
      | _ :: _ => Some (q, m, PopFront)
      end
  | PopFront =>
      match q with
      | [] => Some (q, m, Crashed undefined_behaviour)
      | g :: _ => Some (q, m, PopAssert g)
      end
  | PopAssert g =>
      if decide (g < 2 ^ 64 - 1) then Some (q, m, PopLock g)
      else Some (q, m, Crashed assertion_failure)
  | PopLock g =>
      match m with
      | None => Some (q, Some tid, PopPop g)
      | Some _ => None
      end
  | PopPop g =>
      match q with
      | [] => Some (q, m, Crashed undefined_behaviour)
      | _ :: q' => Some (q', m, PopUnlock g)
      end
  | PopUnlock g => Some (q, None, Returned (Some (to_int64 g)))
  | Returned _ => None
  | Crashed _ => None
  end.

Definition step (tid : nat) (s : shared) : option shared :=
  match sh_threads s !! tid with
  | None => None
  | Some p =>
      match thread_step tid (sh_active_gates s) (sh_mutex s) p with
      | None => None
      | Some (q, m, p') => Some (mkShared q m (<[tid := p']> (sh_threads s)))
      end
  end.

Fixpoint run (schedule : list nat) (s : shared) : option shared :=
  match schedule with
  | [] => Some s
  | tid :: schedule' =>
      match step tid s with
      | None => None
      | Some s' => run schedule' s'
      end
  end.

(** The gate ids the finished [GetNextGateFromOnlineQueue] calls returned
    (the sentinel left out), by thread. *)
Definition popped (s : shared) : list Z :=
  omap (fun p => match p with
                 | Returned (Some v) => if decide (v = -1) then None else Some v
                 | _ => None
                 end) (sh_threads s).

(** Two producers push 0 and 1, two consumers pop. *)
Definition two_by_two : shared :=
  mkShared [] None [AddLock 0; AddLock 1; PopCheck; PopCheck].

(** Both producers run to completion; then each consumer checks the size
    and reads the front before either takes the lock. *)
Definition racy_schedule : list nat :=
  [0; 0; 0; 1; 1; 1; 2; 2; 2; 3; 3; 3; 2; 2; 2; 3; 3; 3]%nat.

(** *** Facts about the registry *)

Lemma size_t_wrap_range (x : Z) : 0 <= size_t_wrap x < 2 ^ 64.
Proof. unfold size_t_wrap, size_t_bits. apply Z.mod_pos_bound. lia. Qed.

Lemma size_t_wrap_small (x : Z) : 0 <= x < 2 ^ 64 -> size_t_wrap x = x.
Proof. intros H. unfold size_t_wrap, size_t_bits. by apply Z.mod_small. Qed.

Lemma size_t_wrap_add_l (x y : Z) :
  size_t_wrap (size_t_wrap x + y) = size_t_wrap (x + y).
Proof. unfold size_t_wrap. by rewrite Zplus_mod_idemp_l. Qed.

Lemma sumZ_app (l1 l2 : list Z) : sumZ (l1 ++ l2) = sumZ l1 + sumZ l2.
Proof.
  unfold sumZ. induction l1 as [|x l1 IH]; cbn; [done|]. rewrite IH. lia.
Qed.

Lemma sumZ_nonneg (l : list Z) : Forall (fun n => 1 <= n) l -> 0 <= sumZ l.
Proof. unfold sumZ. induction 1; cbn; lia. Qed.

Lemma sumZ_take_S (ns : list Z) (j : nat) (n : Z) :
  ns !! j = Some n -> sumZ (take (S j) ns) = sumZ (take j ns) + n.
Proof.
  intros H. erewrite take_S_r by eassumption.
  rewrite sumZ_app. cbn. lia.
Qed.

Section RegistryFacts.

Context {Gate Wire Message : Type}.
Implicit Types c : Core Gate Wire Message.

Lemma NextGateId_calls_from (k : nat) : forall c,
  0 <= global_gate_id_ c < 2 ^ 64 ->
  exists c',
    NextGateId_calls k c =
      (Ok (map (fun i => size_t_wrap (global_gate_id_ c + Z.of_nat i))
             (seq 0 k)), c').
Proof.
  induction k as [|k IH]; intros c Hc.
  - eexists. reflexivity.
  - destruct (IH (set_global_gate_id (size_t_wrap (global_gate_id_ c + 1)) c))
      as [c' Hc'].
    { cbn. apply size_t_wrap_range. }
    exists c'. cbn [NextGateId_calls]. unfold bind at 1. unfold NextGateId at 1.
    unfold bind at 1. rewrite Hc'. unfold ret. f_equal. f_equal.
    cbn [seq map]. f_equal.
    + rewrite Z.add_0_r. symmetry. by apply size_t_wrap_small.
    + rewrite <- seq_shift, map_map. apply map_ext. intros i.
      cbn [global_gate_id_ set_global_gate_id].
      rewrite size_t_wrap_add_l. f_equal. lia.
Qed.

Lemma NextArithmeticSharingId_calls_from (ns : list Z) : forall c,
  0 <= global_arithmetic_sharing_id_ c < 2 ^ 64 ->
  Forall (fun n => 1 <= n) ns ->
  exists c',
    NextArithmeticSharingId_calls ns c =
      (Ok (map (fun j => size_t_wrap (global_arithmetic_sharing_id_ c
                                       + sumZ (take j ns)))
             (seq 0 (length ns))), c').
Proof.
  induction ns as [|n ns IH]; intros c Hc Hns.
  - eexists. reflexivity.
  - inversion Hns as [|? ? Hn Hns']; subst.
    destruct (IH (set_global_arithmetic_sharing_id
                    (size_t_wrap (global_arithmetic_sharing_id_ c + n)) c))
      as [c' Hc']; [cbn; apply size_t_wrap_range | done |].
    exists c'. cbn [NextArithmeticSharingId_calls].
    unfold bind at 1. unfold NextArithmeticSharingId at 1.
    destruct (decide (n = 0)) as [->|_]; [lia|].
    unfold bind at 1. rewrite Hc'. unfold ret. f_equal. f_equal.
    cbn [length seq map]. f_equal.
    + cbn. rewrite Z.add_0_r. symmetry. by apply size_t_wrap_small.
    + rewrite <- seq_shift, map_map. apply map_ext. intros j.
      cbn [global_arithmetic_sharing_id_ set_global_arithmetic_sharing_id].
      rewrite size_t_wrap_add_l. f_equal. unfold sumZ. cbn. lia.
Qed.

Lemma run_gate_ops_gates (ops : list (gate_op Gate)) : forall c c',
  run_gate_ops ops c = (Ok tt, c') ->
  forall i : nat,
    gates_ c' !! i =
      if bool_decide (i ∈ unregistered ops) then Some None
      else (gates_ c ++ registered ops) !! i.
Proof.
  induction ops as [|o ops IH]; intros c c' Hrun i.
  - cbn in Hrun. inversion Hrun; subst. cbn. by rewrite app_nil_r.
  - unfold run_gate_ops in Hrun. cbn [for_each] in Hrun.
    unfold bind at 1 in Hrun.
    destruct o as [g|g|j]; cbn [run_gate_op] in Hrun.
    + destruct g as [g|]; cbn in Hrun; [|discriminate].
      rewrite (IH _ _ Hrun i). cbn. by rewrite <- app_assoc.
    + unfold RegisterNextInputGate, bind, RegisterNextGate in Hrun.
      destruct g as [g|]; cbn in Hrun; [|discriminate].
      rewrite (IH _ _ Hrun i). cbn. by rewrite <- app_assoc.
    + unfold UnregisterGate in Hrun.
      destruct (gates_ c !! j) as [gj|] eqn:Hj; [|discriminate].
      rewrite (IH _ _ Hrun i). cbn [unregistered registered gates_ set_gates].
      apply lookup_lt_Some in Hj.
      destruct (decide (i = j)) as [->|Hne].
      * rewrite (bool_decide_eq_true_2 (j ∈ j :: _)) by apply list_elem_of_here.
        case_bool_decide; [done|].
        rewrite lookup_app_l by (by rewrite length_insert).
        by apply list_lookup_insert_eq.
      * assert (Hiff : i ∈ j :: unregistered ops <-> i ∈ unregistered ops).
        { rewrite elem_of_cons. split; [intros [?|?]; [congruence|done] | by right]. }
        rewrite (bool_decide_ext _ _ Hiff).
        case_bool_decide; [done|].
        destruct (decide (i < length (gates_ c))%nat).
        -- rewrite !lookup_app_l by (by rewrite ?length_insert).
           by apply list_lookup_insert_ne.
        -- unfold GatePtr in *.
           rewrite lookup_app_r; rewrite length_insert; [|lia].
           rewrite lookup_app_r by lia. done.
Qed.

(** With one caller at a time the queue is first-in first-out. *)
Lemma GetNextGateFromOnlineQueue_after_Add (gate_id : Z) c :
  active_gates_ c = [] -> 0 <= gate_id < 2 ^ 63 ->
  (do* AddToActiveQueue gate_id in GetNextGateFromOnlineQueue)%cxx c
  = (Ok gate_id, c).
Proof.
  intros Hq Hg. unfold bind, AddToActiveQueue, modify, GetNextGateFromOnlineQueue.
  cbn. rewrite Hq. cbn. destruct (decide (gate_id < 2 ^ 64 - 1)); [|lia].
  unfold to_int64. destruct (Z.ltb_spec gate_id (2 ^ 63)); [|lia].
  f_equal. destruct c; cbn in *. by subst.
Qed.

(** C7 (as amended): identifiers are handed out by post-increment from
    zero.  As long as no counter passes [2^64 - 1], [k] calls of
    [NextGateId] from the initial state return [0, 1, ..., k-1], and calls
    [NextArithmeticSharingId(n_1)], [NextArithmeticSharingId(n_2)], ...
    with every [n_i >= 1] return starts that begin at zero and increase
    strictly, consecutive ones exactly [n_i] apart. *)
Theorem next_ids_post_increment (id : nat) (k : nat) (ns : list Z) :
  Z.of_nat k <= 2 ^ 64 ->
  Forall (fun n => 1 <= n) ns ->
  (forall j : nat, (j < length ns)%nat -> sumZ (take j ns) < 2 ^ 64) ->
  fst (NextGateId_calls k (init id : Core Gate Wire Message)) = Ok (map Z.of_nat (seq 0 k)) /\
  exists starts,
    fst (NextArithmeticSharingId_calls ns (init id : Core Gate Wire Message))
      = Ok starts /\
    (forall s, head starts = Some s -> s = 0) /\
    gaps_exactly ns starts.
Proof.
  intros Hk Hns Hsum. split.
  - destruct (NextGateId_calls_from k (init id)) as [c' ->]; [cbn; lia|].
    cbn [fst]. f_equal. apply map_ext_in. intros i Hi.
    apply in_seq in Hi. cbn. apply size_t_wrap_small. lia.
  - destruct (NextArithmeticSharingId_calls_from ns (init id)) as [c' ->];
      [cbn; lia | done |].
    eexists. split; [reflexivity|]. cbn [global_arithmetic_sharing_id_ init].
    assert (Hnonneg : forall j, 0 <= sumZ (take j ns)).
    { intros j. apply sumZ_nonneg. by apply Forall_take. }
    assert (Hlook : forall (j : nat) s,
      map (fun j => size_t_wrap (0 + sumZ (take j ns))) (seq 0 (length ns)) !! j
        = Some s -> (j < length ns)%nat /\ s = sumZ (take j ns)).
    { intros j s Hj. rewrite list_lookup_fmap in Hj.
      destruct (seq 0 (length ns) !! j) as [j'|] eqn:Hseq; [|discriminate].
      apply lookup_seq in Hseq as [-> Hlt]. cbn in Hj. inversion Hj; subst.
      split; [done|]. rewrite Z.add_0_l. apply size_t_wrap_small.
      split; [apply Hnonneg | by apply Hsum]. }
    split; [|split].
    + intros s Hs. rewrite head_lookup in Hs.
      apply Hlook in Hs as [_ ->]. reflexivity.
    + by rewrite length_map, length_seq.
    + intros j s s' n Hs Hs' Hn.
      apply Hlook in Hs as [_ ->]. apply Hlook in Hs' as [_ ->].
      rewrite (sumZ_take_S _ _ _ Hn).
      assert (1 <= n) by (eapply Forall_lookup_1 in Hns; eauto).
      lia.
Qed.

(** C6: after any build-phase sequence of [RegisterNextGate],
    [RegisterNextInputGate] and [UnregisterGate] calls that ran from the
    initial state, [GetGate(i)] succeeds for every slot [i] that was
    registered and returns the [i]-th registered handle, unless the
    sequence holds an [UnregisterGate(i)]: then, whatever was called
    afterwards, the slot is still indexable and [GetGate(i)] returns the
    null handle. *)
Theorem GetGate_registered_or_tombstone (id : nat)
  (ops : list (gate_op Gate)) c (i : nat) (g : GatePtr) :
  run_gate_ops ops (init id) = (Ok tt, c) ->
  registered ops !! i = Some g ->
  GetGate i c =
    (Ok (if bool_decide (i ∈ unregistered ops) then None else g), c).
Proof.
  intros Hrun Hi. pose proof (run_gate_ops_gates _ _ _ Hrun i) as Hslot.
  cbn [gates_ init app] in Hslot. unfold GetGate, at_, GatePtr in *.
  rewrite Hslot. case_bool_decide; [done|]. by rewrite Hi.
Qed.

End RegistryFacts.

(** Scenario 3 with a second gate: slot 0 is tombstoned, slot 1 is live. *)
Lemma GetGate_registered_or_tombstone_witness :
  let ops := [OpRegisterNextGate (Some 7%nat); OpRegisterNextGate (Some 9%nat);
              OpUnregisterGate 0] in
  let c := snd (run_gate_ops ops (init (Wire:=unit) (Message:=unit) 0)) in
  GetGate 0 c = (Ok None, c) /\ GetGate 1 c = (Ok (Some 9%nat), c).
Proof.
  intros ops c. split.
  - exact (GetGate_registered_or_tombstone (Wire:=unit) (Message:=unit)
             0%nat ops c 0%nat (Some 7%nat) eq_refl eq_refl).
  - exact (GetGate_registered_or_tombstone (Wire:=unit) (Message:=unit)
             0%nat ops c 1%nat (Some 9%nat) eq_refl eq_refl).
Defined.

(** C8: the check-then-lock sequence of [GetNextGateFromOnlineQueue] lets
    two consumers pop the same id.  In [racy_schedule] the producers have
    pushed 0 and 1 and are done; both consumers pass the size check and
    read the front (0) before either locks; both calls return 0, the queue
    ends up empty, and id 1 is never returned. *)
Theorem GetNextGateFromOnlineQueue_pops_twice :
  exists s,
    run racy_schedule two_by_two = Some s /\
    sh_active_gates s = [] /\
    sh_threads s
    = [Returned None; Returned None; Returned (Some 0); Returned (Some 0)] /\
    popped s = [0; 0].
Proof.
  eexists. split; [vm_compute; reflexivity|].
  split; [reflexivity|]. split; reflexivity.
Qed.

(** The counters of scenario 1: three gate ids, then sharing blocks of
    4, 1 and 3 values. *)
Lemma next_ids_post_increment_witness :
  (NextGateId_calls 3 (init (Gate:=unit) (Wire:=unit) (Message:=unit) 0)).1
    = Ok [0; 1; 2] /\
  exists starts,
    (NextArithmeticSharingId_calls [4; 1; 3]
       (init (Gate:=unit) (Wire:=unit) (Message:=unit) 0)).1 = Ok starts /\
    (forall s, head starts = Some s -> s = 0) /\
    gaps_exactly [4; 1; 3] starts.
Proof.
  apply (next_ids_post_increment (Gate:=unit) (Wire:=unit) (Message:=unit)
           0%nat 3%nat [4; 1; 3]).
  - cbn. lia.
  - repeat constructor; lia.
  - intros j Hj. cbn in Hj.
    destruct j as [|[|[|j]]]; cbn; lia.
Defined.

(** C7 (as stated) fails once the counter wraps: the calls
    [NextArithmeticSharingId(2^64 - 1)], [NextArithmeticSharingId(2)],
    [NextArithmeticSharingId(1)] return [0], [2^64 - 1] and then [1], so
    the starts are not increasing and the second gap is not [2]. *)
Lemma NextArithmeticSharingId_wraps :
  Forall (fun n => 1 <= n) [2 ^ 64 - 1; 2; 1] /\
  (NextArithmeticSharingId_calls [2 ^ 64 - 1; 2; 1]
     (init (Gate:=unit) (Wire:=unit) (Message:=unit) 0)).1
    = Ok [0; 2 ^ 64 - 1; 1] /\
  ~ gaps_exactly [2 ^ 64 - 1; 2; 1] [0; 2 ^ 64 - 1; 1].
Proof.
  split; [repeat constructor; lia|]. split; [reflexivity|].
  intros [_ H]. specialize (H 1%nat (2 ^ 64 - 1) 1 2 eq_refl eq_refl eq_refl).
  lia.
Qed.

End Core.

(** ** The transport handlers as shared objects

    [communication_handlers_] is a vector of [std::shared_ptr]:
    [RegisterCommunicationHandlers] copies the pointers, not the handlers,
    so one handler object may sit in several slots of the table.  Here the
    handler objects live in a store, a pointer is the address of its
    object, and [SendMessage] acts on the object. *)

Module CoreTransport.

Section Handlers.

Context {Message : Type}.

(** A [std::shared_ptr<CommunicationHandler>]: [nullptr], or the address
    of a handler object. *)
Definition CommunicationHandlerPtr : Type := option nat.

(** The members of [Core] that the transport functions use, and the
    handler objects by address. *)
Record Transport : Type := mkTransport {
  my_id : nat;                          (* config_->GetMyId() *)
  communication_handlers_ : list CommunicationHandlerPtr;
  handler_objects : list (Core.CommunicationHandler Message)
}.

Definition set_communication_handlers (v : list CommunicationHandlerPtr)
  (t : Transport) : Transport :=
  mkTransport (my_id t) v (handler_objects t).

Definition set_handler_objects (v : list (Core.CommunicationHandler Message))
  (t : Transport) : Transport :=
  mkTransport (my_id t) (communication_handlers_ t) v.

(** [communication_handlers_ = communication_handlers;] *)
Definition RegisterCommunicationHandlers
  (communication_handlers : list CommunicationHandlerPtr)
  : M Transport unit :=
  modify (set_communication_handlers communication_handlers).

(** A [shared_ptr] keeps its object alive, so a pointer of the table
    always has its object in the store; an address without an object is
    treated like a dangling pointer. *)
Definition Send (party_id : nat) (message : Message) : M Transport unit :=
  fun t =>
    if decide (party_id = my_id t) then
      (Throw (runtime_error "Want to send message to myself"), t)
    else
      match communication_handlers_ t !! party_id with
      | None => (Throw out_of_range, t)
      | Some None => (Throw undefined_behaviour, t)
      | Some (Some address) =>
          match handler_objects t !! address with
          | None => (Throw undefined_behaviour, t)
          | Some h =>
              (Ok tt,
               set_handler_objects
                 (<[address := Core.SendMessage message h]>
                    (handler_objects t)) t)
          end
      end.

(** [Send(p_1, m_1); Send(p_2, m_2); ...] *)
Definition Send_all (ms : list (nat * Message)) : M Transport unit :=
  for_each ms (fun pm => Send (fst pm) (snd pm)).

(** The messages of [ms] that are addressed to party [q], in order. *)
Definition addressed_to (q : nat) (ms : list (nat * Message)) : list Message :=
  omap (fun pm => if decide (fst pm = q) then Some (snd pm) else None) ms.

(** The messages of [ms] that are addressed to a party whose slot of
    [table] holds the object at [address], in order. *)
Definition handed_to (table : list CommunicationHandlerPtr) (address : nat)
  (ms : list (nat * Message)) : list Message :=
  omap (fun pm => if decide (table !! fst pm = Some (Some address))
                  then Some (snd pm) else None) ms.

(** What the slots of the table show, handler by handler. *)
Definition slots (t : Transport)
  : list (Core.CommunicationHandlerPtr Message) :=
  (fun ptr : CommunicationHandlerPtr =>
     ptr ≫= (fun address => handler_objects t !! address))
    <$> communication_handlers_ t.

(** No handler object sits in two slots. *)
Definition unshared (table : list CommunicationHandlerPtr) : Prop :=
  forall q q' address,
    table !! q = Some (Some address) -> table !! q' = Some (Some address) ->
    q = q'.

End Handlers.

Arguments Transport : clear implicits.

Section HandlerFacts.

Context {Message : Type}.
Implicit Types t : Transport Message.

Lemma handed_to_cons (table : list CommunicationHandlerPtr) (address p : nat)
  (m : Message) (ms : list (nat * Message)) :
  handed_to table address ((p, m) :: ms)
  = (if decide (table !! p = Some (Some address)) then [m] else [])
    ++ handed_to table address ms.
Proof.
  unfold handed_to. cbn [omap list_omap fst snd].
  by destruct (decide (table !! p = Some (Some address))).
Qed.

Lemma handed_to_unshared (table : list CommunicationHandlerPtr)
  (q address : nat) (ms : list (nat * Message)) :
  table !! q = Some (Some address) ->
  (forall q', table !! q' = Some (Some address) -> q' = q) ->
  handed_to table address ms = addressed_to q ms.
Proof.
  intros Hq Honly. unfold handed_to, addressed_to.
  induction ms as [|[p m] ms IH]; [done|]. cbn [omap list_omap fst snd].
  rewrite IH.
  destruct (decide (table !! p = Some (Some address))) as [Hp|Hp];
    destruct (decide (p = q)) as [->|Hne]; try done.
  - by apply Honly in Hp.
Qed.

(** One [Send] that returns: the object addressed got the message, no
    other object and nothing else changed. *)
Lemma Send_Ok t t' (p : nat) (m : Message) :
  Send p m t = (Ok tt, t') ->
  p <> my_id t /\
  exists address h,
    communication_handlers_ t !! p = Some (Some address) /\
    handler_objects t !! address = Some h /\
    t' = set_handler_objects
           (<[address := Core.mkHandler (Core.sent h ++ [m])]>
              (handler_objects t)) t.
Proof.
  unfold Send. intros E.
  destruct (decide (p = my_id t)) as [|Hp]; [discriminate E|].
  split; [done|].
  destruct (communication_handlers_ t !! p) as [[address|]|] eqn:Hslot;
    [|discriminate E|discriminate E].
  destruct (handler_objects t !! address) as [h|] eqn:Hobj;
    [|discriminate E].
  exists address, h. split; [done|]. split; [done|].
  by inversion E.
Qed.

(** On a table without shared objects [Core.Send] is [Send], slot by
    slot. *)
Lemma Send_slot_by_slot {Gate Wire : Type} (c : Core.Core Gate Wire Message)
  t (p : nat) (m : Message) :
  Core.my_id c = my_id t ->
  Core.communication_handlers_ c = slots t ->
  unshared (communication_handlers_ t) ->
  fst (Core.Send p m c) = fst (Send p m t) /\
  snd (Core.Send p m c)
  = Core.set_communication_handlers (slots (snd (Send p m t))) c.
Proof.
  intros Hid Htab Hun.
  assert (Hsame : c = Core.set_communication_handlers (slots t) c)
    by (rewrite <- Htab; by destruct c).
  unfold Core.Send, Send. rewrite Hid, Htab.
  destruct (decide (p = my_id t)) as [|Hp]; [by split|].
  assert (Hlook : slots t !! p
                  = (fun ptr : CommunicationHandlerPtr =>
                       ptr ≫= (fun address => handler_objects t !! address))
                      <$> communication_handlers_ t !! p)
    by (unfold slots; by rewrite list_lookup_fmap).
  rewrite Hlook.
  destruct (communication_handlers_ t !! p) as [[address|]|] eqn:Hslot;
    cbn [fmap option_fmap option_map mbind option_bind fst snd];
    [|by split|by split].
  destruct (handler_objects t !! address) as [h|] eqn:Hobj;
    cbn [fst snd]; [|by split].
  split; [done|]. f_equal.
  unfold slots. cbn [communication_handlers_ handler_objects
                     set_handler_objects].
  apply list_eq. intros q.
  destruct (decide (q = p)) as [->|Hne].
  - rewrite list_lookup_insert_eq
      by (rewrite length_fmap; by eapply lookup_lt_Some).
    rewrite list_lookup_fmap, Hslot.
    cbn [fmap option_fmap option_map mbind option_bind].
    by rewrite list_lookup_insert_eq by (by eapply lookup_lt_Some).
  - rewrite list_lookup_insert_ne by done. rewrite !list_lookup_fmap.
    destruct (communication_handlers_ t !! q) as [[a'|]|] eqn:Hq;
      cbn [fmap option_fmap option_map mbind option_bind]; [|done|done].
    destruct (decide (a' = address)) as [->|Ha].
    + by specialize (Hun _ _ _ Hq Hslot).
    + by rewrite list_lookup_insert_ne.
Qed.

(** C5: [send(my_id, message)] fails, with the [std::runtime_error] of
    line 62 that stands for the InvalidArgument of the specification, and
    performs no I/O: no handler object and nothing else changes.  For [p]
    different from [my_id], once the handler table is installed and holds
    a handler for [p], [send(p, message)] returns and hands the message
    to that handler exactly once: the handler gets one more buffer, the
    message, and no other handler object, nor the table, changes. *)
Theorem Send_self_throws_else_delegates t (p : nat) (message : Message) :
  (p = my_id t ->
   Send p message t
   = (Throw (runtime_error "Want to send message to myself"), t)) /\
  (p <> my_id t ->
   forall (address : nat) (h : Core.CommunicationHandler Message),
     communication_handlers_ t !! p = Some (Some address) ->
     handler_objects t !! address = Some h ->
     exists t',
       Send p message t = (Ok tt, t') /\
       my_id t' = my_id t /\
       communication_handlers_ t' = communication_handlers_ t /\
       length (handler_objects t') = length (handler_objects t) /\
       handler_objects t' !! address
       = Some (Core.mkHandler (Core.sent h ++ [message])) /\
       forall address', address' <> address ->
         handler_objects t' !! address' = handler_objects t !! address').
Proof.
  unfold Send. split.
  - intros ->. by rewrite decide_True.
  - intros Hp address h Hslot Hobj. rewrite decide_False by done.
    rewrite Hslot, Hobj. eexists. split; [reflexivity|].
    cbn [my_id communication_handlers_ handler_objects set_handler_objects].
    split; [done|]. split; [done|].
    split; [by rewrite length_insert|]. split.
    + by rewrite list_lookup_insert_eq by (by eapply lookup_lt_Some).
    + intros address' Hne. by rewrite list_lookup_insert_ne.
Qed.

(** X8: after a sequence of [Send] calls that all returned, no message
    was addressed to the party itself, and every handler object was handed
    exactly the messages addressed to the slots that hold it, in the order
    of the calls; the table and the number of objects are as before.  For
    an object held by one slot only these are the messages addressed to
    that party. *)
Theorem Send_hands_over_in_order (ms : list (nat * Message)) : forall t t',
  Send_all ms t = (Ok tt, t') ->
  my_id t' = my_id t /\
  communication_handlers_ t' = communication_handlers_ t /\
  length (handler_objects t') = length (handler_objects t) /\
  Forall (fun pm => fst pm <> my_id t) ms /\
  (forall address h,
     handler_objects t !! address = Some h ->
     handler_objects t' !! address
     = Some (Core.mkHandler
               (Core.sent h
                ++ handed_to (communication_handlers_ t) address ms))) /\
  (forall q address,
     communication_handlers_ t !! q = Some (Some address) ->
     (forall q', communication_handlers_ t !! q' = Some (Some address) ->
                 q' = q) ->
     handed_to (communication_handlers_ t) address ms = addressed_to q ms).
Proof.
  unfold Send_all.
  induction ms as [|[p m] ms IH]; intros t t' E.
  - cbn in E. unfold ret in E. inversion E; subst.
    do 4 (split; [done|]). split.
    + intros address [l] Hh. cbn. by rewrite app_nil_r.
    + intros q address Hq Honly. by apply handed_to_unshared.
  - cbn [for_each fst snd] in E. unfold bind at 1 in E.
    destruct (Send p m t) as [[[]|e] t1] eqn:E1; [|discriminate E].
    apply Send_Ok in E1 as (Hp & a & h & Hslot & Hobj & ->).
    destruct (IH _ _ E) as (Hid & Htab & Hlen & Hall & Hobjs & _).
    cbn [my_id communication_handlers_ handler_objects set_handler_objects]
      in *.
    split; [done|]. split; [done|].
    split; [by rewrite Hlen, length_insert|].
    split; [by constructor|]. split.
    + intros address h0 Hh0. rewrite handed_to_cons.
      destruct (decide (address = a)) as [->|Hne].
      * assert (h0 = h) as -> by congruence.
        rewrite (Hobjs a (Core.mkHandler (Core.sent h ++ [m])))
          by (by rewrite list_lookup_insert_eq
                by (by eapply lookup_lt_Some)).
        rewrite decide_True by done. cbn [Core.sent].
        by rewrite <- app_assoc.
      * rewrite (Hobjs address h0) by (by rewrite list_lookup_insert_ne).
        rewrite decide_False by congruence. done.
    + intros q address Hq Honly. by apply handed_to_unshared.
Qed.

End HandlerFacts.

(** Scenario 2: with [my_id = 1] and a handler installed for either
    party, [send(1, buf)] throws and changes nothing, and [send(0, buf)]
    reaches handler 0 once. *)
Lemma Send_self_throws_else_delegates_witness :
  let t := snd (RegisterCommunicationHandlers [Some 0%nat; Some 1%nat]
                  (mkTransport (Message:=Z) 1 []
                     [Core.mkHandler []; Core.mkHandler []])) in
  Send 1 42 t = (Throw (runtime_error "Want to send message to myself"), t) /\
  exists t',
    Send 0 42 t = (Ok tt, t') /\
    my_id t' = my_id t /\
    communication_handlers_ t' = communication_handlers_ t /\
    length (handler_objects t') = length (handler_objects t) /\
    handler_objects t' !! 0%nat = Some (Core.mkHandler ([] ++ [42])) /\
    forall address', address' <> 0%nat ->
      handler_objects t' !! address' = handler_objects t !! address'.
Proof.
  intros t. split.
  - exact (proj1 (Send_self_throws_else_delegates t 1%nat 42) eq_refl).
  - refine (proj2 (Send_self_throws_else_delegates t 0%nat 42)
              _ 0%nat (Core.mkHandler []) eq_refl eq_refl).
    cbn. lia.
Defined.

(** Three parties of which party 1 is the local one; the slots of
    parties 0 and 2 hold the same handler object, which is handed all
    three messages. *)
Lemma Send_hands_over_in_order_witness :
  let ms := [(0%nat, 10); (2%nat, 20); (0%nat, 30)] in
  let t := mkTransport (Message:=Z) 1 [Some 0%nat; Some 1%nat; Some 0%nat]
             [Core.mkHandler [5]; Core.mkHandler []] in
  let t' := mkTransport (Message:=Z) 1 [Some 0%nat; Some 1%nat; Some 0%nat]
              [Core.mkHandler [5; 10; 20; 30]; Core.mkHandler []] in
  Send_all ms t = (Ok tt, t') /\
  handed_to (communication_handlers_ t) 0 ms = [10; 20; 30] /\
  my_id t' = my_id t /\
  communication_handlers_ t' = communication_handlers_ t /\
  length (handler_objects t') = length (handler_objects t) /\
  Forall (fun pm => fst pm <> my_id t) ms /\
  (forall address h,
     handler_objects t !! address = Some h ->
     handler_objects t' !! address
     = Some (Core.mkHandler
               (Core.sent h
                ++ handed_to (communication_handlers_ t) address ms))) /\
  (forall q address,
     communication_handlers_ t !! q = Some (Some address) ->
     (forall q', communication_handlers_ t !! q' = Some (Some address) ->
                 q' = q) ->
     handed_to (communication_handlers_ t) address ms = addressed_to q ms).
Proof.
  intros ms t t'. split; [vm_compute; reflexivity|].
  split; [vm_compute; reflexivity|].
  apply (Send_hands_over_in_order ms t t'). vm_compute. reflexivity.
Defined.

End CoreTransport.

(** ** The square-pair provider *)

Module Sp.

(** *** Integer widths and their byte images *)

(** The five instantiations of [template <typename T>]:
    [std::uint8_t], ..., [__uint128_t]. *)
Inductive width : Type := W8 | W16 | W32 | W64 | W128.

Definition widths : list width := [W8; W16; W32; W64; W128].

(** [sizeof(T)] *)
Definition sizeof (w : width) : nat :=
  match w with
  | W8 => 1 | W16 => 2 | W32 => 4 | W64 => 8 | W128 => 16
  end%nat.

(** [constexpr std::size_t bit_size = sizeof(T) * 8;] *)
Definition bit_size (w : width) : nat := (sizeof w * 8)%nat.

(** Conversion of an integer result to [T]. *)
Definition to_T (w : width) (x : Z) : Z := wrap (Z.of_nat (bit_size w)) x.

(** One slot per width, for the members that exist once per [T]. *)
Record per_width (A : Type) : Type := mkPerWidth {
  pw_8 : A; pw_16 : A; pw_32 : A; pw_64 : A; pw_128 : A
}.

Arguments mkPerWidth {A} _ _ _ _ _.
Arguments pw_8 {A} _.
Arguments pw_16 {A} _.
Arguments pw_32 {A} _.
Arguments pw_64 {A} _.
Arguments pw_128 {A} _.

Definition pw_get {A} (w : width) (p : per_width A) : A :=
  match w with
  | W8 => pw_8 p | W16 => pw_16 p | W32 => pw_32 p
  | W64 => pw_64 p | W128 => pw_128 p
  end.

Definition pw_set {A} (w : width) (x : A) (p : per_width A) : per_width A :=
  match w with
  | W8 => mkPerWidth x (pw_16 p) (pw_32 p) (pw_64 p) (pw_128 p)
  | W16 => mkPerWidth (pw_8 p) x (pw_32 p) (pw_64 p) (pw_128 p)
  | W32 => mkPerWidth (pw_8 p) (pw_16 p) x (pw_64 p) (pw_128 p)
  | W64 => mkPerWidth (pw_8 p) (pw_16 p) (pw_32 p) x (pw_128 p)
  | W128 => mkPerWidth (pw_8 p) (pw_16 p) (pw_32 p) (pw_64 p) x
  end.

Definition pw_all {A} (x : A) : per_width A := mkPerWidth x x x x x.

(** The object representation of a [T] on the little-endian targets the
    library is built for: [n] bytes, least significant first. *)
Fixpoint to_bytes (n : nat) (x : Z) : list Z :=
  match n with
  | O => []
  | S n' => x mod 256 :: to_bytes n' (x / 256)
  end.

Definition from_bytes (bs : list Z) : Z :=
  foldr (fun b acc => b + 256 * acc) 0 bs.

(** Modelled from the spec: [BitVector] is not in src/.  A bit vector is
    its byte buffer ([GetData()]) and its length in bits ([GetSize()]); the
    constructor from a byte pointer and a bit count copies the bytes that
    hold these bits. *)
Record BitVector : Type := mkBitVector {
  bv_data : list Z;
  bv_size : nat
}.

(** [BitVector(reinterpret_cast<const std::byte*>(&input), bit_size)] *)
Definition BitVector_of_T (w : width) (input : Z) : BitVector :=
  mkBitVector (to_bytes (sizeof w) input) (bit_size w).

(** [*reinterpret_cast<const T*>(bv.GetData().data())]: the first
    [sizeof(T)] bytes of the buffer read as a [T]; reading past the end of
    the buffer has no defined meaning. *)
Definition T_of_BitVector {S} (w : width) (bv : BitVector) : M S Z :=
  if decide (sizeof w <= length (bv_data bv))%nat then
    ret (from_bytes (take (sizeof w) (bv_data bv)))
  else throw undefined_behaviour.

(** *** Square pairs and OT handles *)

(** [SpVector<T>] *)
Record SpVector : Type := mkSpVector {
  a : list Z;
  c : list Z
}.

Definition empty_sps : SpVector := mkSpVector [] [].

(** Modelled from the spec: the OT layer ([OtProvider], [OtVectorSender],
    [OtVectorReceiver]) is not in src/.  A handle is the data it was
    registered with and, once the OT has run, the outputs that
    [GetOutputs()] returns. *)
Record OtVectorSender : Type := mkOtVectorSender {
  s_bitlen : nat;
  s_number_of_ots : nat;
  s_inputs : list BitVector;
  s_outputs : list BitVector
}.

Record OtVectorReceiver : Type := mkOtVectorReceiver {
  r_bitlen : nat;
  r_number_of_ots : nat;
  r_choices : list bool;
  r_outputs : list BitVector
}.

(** [ot_provider.RegisterSend(bitlen, number_of_ots, kAcOt)] *)
Definition RegisterSend (bitlen number_of_ots : nat) : OtVectorSender :=
  mkOtVectorSender bitlen number_of_ots [] [].

Definition RegisterReceive (bitlen number_of_ots : nat) : OtVectorReceiver :=
  mkOtVectorReceiver bitlen number_of_ots [] [].

Definition SetInputs (inputs : list BitVector) (ot : OtVectorSender)
  : OtVectorSender :=
  mkOtVectorSender (s_bitlen ot) (s_number_of_ots ot) inputs (s_outputs ot).

Definition SetChoices (choices : list bool) (ot : OtVectorReceiver)
  : OtVectorReceiver :=
  mkOtVectorReceiver (r_bitlen ot) (r_number_of_ots ot) choices (r_outputs ot).

(** [ot->SendMessages()] and [ot->SendCorrections()] start the exchange
    with the peer; [outputs] is what the OT layer makes of it, which the
    handle keeps for [GetOutputs()]. *)
Definition SendMessages (outputs : list BitVector) (ot : OtVectorSender)
  : OtVectorSender :=
  mkOtVectorSender (s_bitlen ot) (s_number_of_ots ot) (s_inputs ot) outputs.

Definition SendCorrections (outputs : list BitVector) (ot : OtVectorReceiver)
  : OtVectorReceiver :=
  mkOtVectorReceiver (r_bitlen ot) (r_number_of_ots ot) (r_choices ot) outputs.

(** What the OT layer hands to one party: the outputs of the [h]-th sender
    handle and of the [h]-th receiver handle registered against [peer]. *)
Record ot_outputs : Type := mkOtOutputs {
  sender_outputs : nat -> nat -> list BitVector;
  receiver_outputs : nat -> nat -> list BitVector
}.

(** *** Provider state *)

Inductive statistics_id : Type := kSpPresetup | kSpSetup.

(** The calls into the statistics sink, the OT layer and the completion
    condition, in the order they are made. *)
Inductive event : Type :=
| RecordStart (id : statistics_id)
| RecordEnd (id : statistics_id)
| EvSendMessages (peer handle : nat)
| EvSendCorrections (peer handle : nat)
| MutexLock
| WriteFinished (value : bool)
| MutexUnlock
| NotifyAll.

Record SpProviderFromOts : Type := mkSpProvider {
  my_id_ : nat;
  ot_providers_size : nat;                 (* ot_providers_.size() *)
  number_of_sps_ : per_width Z;            (* number_of_sps_8_, ... *)
  sps_ : per_width SpVector;               (* sps_8_, ... *)
  finished_ : bool;
  ots_receiver_ : list (list OtVectorReceiver);
  ots_sender_ : list (list OtVectorSender);
  events_ : list event
}.

Definition number_of_sps_8_ (p : SpProviderFromOts) : Z := pw_8 (number_of_sps_ p).
Definition number_of_sps_16_ (p : SpProviderFromOts) : Z := pw_16 (number_of_sps_ p).
Definition number_of_sps_32_ (p : SpProviderFromOts) : Z := pw_32 (number_of_sps_ p).
Definition number_of_sps_64_ (p : SpProviderFromOts) : Z := pw_64 (number_of_sps_ p).
Definition number_of_sps_128_ (p : SpProviderFromOts) : Z := pw_128 (number_of_sps_ p).

Definition set_sps (v : per_width SpVector) (p : SpProviderFromOts)
  : SpProviderFromOts :=
  mkSpProvider (my_id_ p) (ot_providers_size p) (number_of_sps_ p) v
    (finished_ p) (ots_receiver_ p) (ots_sender_ p) (events_ p).

Definition set_finished (v : bool) (p : SpProviderFromOts)
  : SpProviderFromOts :=
  mkSpProvider (my_id_ p) (ot_providers_size p) (number_of_sps_ p) (sps_ p)
    v (ots_receiver_ p) (ots_sender_ p) (events_ p).

Definition set_ots_receiver (v : list (list OtVectorReceiver))
  (p : SpProviderFromOts) : SpProviderFromOts :=
  mkSpProvider (my_id_ p) (ot_providers_size p) (number_of_sps_ p) (sps_ p)
    (finished_ p) v (ots_sender_ p) (events_ p).

Definition set_ots_sender (v : list (list OtVectorSender))
  (p : SpProviderFromOts) : SpProviderFromOts :=
  mkSpProvider (my_id_ p) (ot_providers_size p) (number_of_sps_ p) (sps_ p)
    (finished_ p) (ots_receiver_ p) v (events_ p).

Definition set_events (v : list event) (p : SpProviderFromOts)
  : SpProviderFromOts :=
  mkSpProvider (my_id_ p) (ot_providers_size p) (number_of_sps_ p) (sps_ p)
    (finished_ p) (ots_receiver_ p) (ots_sender_ p) v.

Definition emit (e : event) : M SpProviderFromOts unit :=
  modify (fun p => set_events (events_ p ++ [e]) p).

(** The provider of party [my_id] among [parties], as the constructors
    leave it, with the requests the circuit build has accumulated. *)
Definition requested (my_id parties : nat) (counts : per_width Z)
  : SpProviderFromOts :=
  {| my_id_ := my_id;
     ot_providers_size := parties;
     number_of_sps_ := counts;
     sps_ := pw_all empty_sps;
     finished_ := false;
     ots_receiver_ := replicate parties [];
     ots_sender_ := replicate parties [];
     events_ := [] |}.

(** [finished_condition_]'s predicate, [[this]() { return finished_; }]. *)
Definition condition_function (p : SpProviderFromOts) : bool := finished_ p.

(** [0 < number_of_sps_8_ + ... + number_of_sps_128_], in [std::size_t]. *)
Definition NeedSps (p : SpProviderFromOts) : bool :=
  0 <? size_t_wrap
         (size_t_wrap
            (size_t_wrap
               (size_t_wrap (number_of_sps_8_ p + number_of_sps_16_ p)
                + number_of_sps_32_ p)
             + number_of_sps_64_ p)
          + number_of_sps_128_ p).

(** *** Operations *)

Section Operations.

(** [kMaxBatchSize] of utility/constants.h, which is not in src/. *)
Variable kMaxBatchSize : nat.

(** [RandomVector<T>(n)]: [n] fresh values of type [T]; [rnd] is the
    source's stream of raw random numbers. *)
Definition RandomVector (w : width) (rnd : nat -> Z) (n : nat) : list Z :=
  map (fun i => to_T w (rnd i)) (seq 0 n).

(** The lambda [a_i * a_i] is evaluated after the integer promotions and
    converted to [T] on assignment; the value stored is the product modulo
    [2^bit_size]. *)
Definition GenerateRandomPairs (w : width) (rnd : nat -> Z) (sps : SpVector)
  (number_of_sps : nat) : SpVector :=
  if decide (0 < number_of_sps)%nat then
    let a' := RandomVector w rnd number_of_sps in
    mkSpVector a' (map (fun a_i => to_T w (a_i * a_i)) a')
  else sps.

(** [for (std::size_t sp_id = 0; sp_id < number_of_sps;) {
       const auto batch_size = std::min(max_batch_size, number_of_sps - sp_id);
       body;  sp_id += batch_size; }]
    The loop makes no progress when [max_batch_size] is zero; [fuel] bounds
    the iterations, and [number_of_sps] of it is enough otherwise. *)
Fixpoint batch_loop {S} (fuel : nat) (max_batch_size number_of_sps sp_id : nat)
  (body : nat -> nat -> M S unit) : M S unit :=
  if decide (sp_id < number_of_sps)%nat then
    match fuel with
    | O => throw diverges
    | S fuel' =>
        let batch_size := Nat.min max_batch_size (number_of_sps - sp_id) in
        (do* body sp_id batch_size in
         batch_loop fuel' max_batch_size number_of_sps (sp_id + batch_size)
           body)%cxx
    end
  else ret tt.

(** [for k < batch_size, for bit_i < bit_size: body k bit_i] *)
Definition for_k_bit {S} (w : width) (batch_size : nat)
  (body : nat -> nat -> M S unit) : M S unit :=
  for_each (seq 0 batch_size) (fun k =>
    for_each (seq 0 (bit_size w)) (fun bit_i => body k bit_i)).

(** The state is [ots_sender]; [vector_to_send] is local to an iteration. *)
Definition RegisterHelperSend (w : width) (max_batch_size : nat)
  (sps : SpVector) (number_of_sps : nat) : M (list OtVectorSender) unit :=
  batch_loop number_of_sps max_batch_size number_of_sps 0
    (fun sp_id batch_size ots_sender =>
       let ot_to_send :=
         RegisterSend (bit_size w) (batch_size * bit_size w) in
       match
         for_k_bit w batch_size (fun k bit_i =>
           (let* a_k := at_ (a sps) (sp_id + k) in
            let input := to_T w (Z.shiftl a_k (Z.of_nat bit_i)) in
            modify (fun vector_to_send =>
                      vector_to_send ++ [BitVector_of_T w input]))%cxx) []
       with
       | (Ok _, vector_to_send) =>
           (Ok tt, ots_sender ++ [SetInputs vector_to_send ot_to_send])
       | (Throw e, _) => (Throw e, ots_sender)
       end).

Definition RegisterHelperReceptor (w : width) (max_batch_size : nat)
  (sps : SpVector) (number_of_sps : nat) : M (list OtVectorReceiver) unit :=
  batch_loop number_of_sps max_batch_size number_of_sps 0
    (fun sp_id batch_size ots_receiver =>
       let ot_to_receive :=
         RegisterReceive (bit_size w) (batch_size * bit_size w) in
       match
         for_k_bit w batch_size (fun k bit_i =>
           (let* a_k := at_ (a sps) (sp_id + k) in
            let choice :=
              bool_decide (Z.land (Z.shiftr a_k (Z.of_nat bit_i)) 1 = 1) in
            modify (fun choices => choices ++ [choice]))%cxx) []
       with
       | (Ok _, choices) =>
           (Ok tt, ots_receiver ++ [SetChoices choices ot_to_receive])
       | (Throw e, _) => (Throw e, ots_receiver)
       end).

(** [sps.c.at(i) -= v] and [sps.c.at(i) += v] *)
Definition c_at_sub {H} (w : width) (i : nat) (v : Z)
  : M (list H * SpVector) unit := fun '(ots, sps) =>
  match c sps !! i with
  | None => (Throw out_of_range, (ots, sps))
  | Some x =>
      (Ok tt, (ots, mkSpVector (a sps) (<[i := to_T w (x - v)]> (c sps))))
  end.

Definition c_at_add {H} (w : width) (i : nat) (v : Z)
  : M (list H * SpVector) unit := fun '(ots, sps) =>
  match c sps !! i with
  | None => (Throw out_of_range, (ots, sps))
  | Some x =>
      (Ok tt, (ots, mkSpVector (a sps) (<[i := to_T w (x + v)]> (c sps))))
  end.

(** [ots.front()], which has no defined meaning on an empty list, and
    [ots.pop_front()]. *)
Definition front {H} : M (list H * SpVector) H := fun '(ots, sps) =>
  match ots with
  | [] => (Throw undefined_behaviour, (ots, sps))
  | ot :: _ => (Ok ot, (ots, sps))
  end.

Definition pop_front {H} : M (list H * SpVector) unit := fun '(ots, sps) =>
  match ots with
  | [] => (Throw undefined_behaviour, (ots, sps))
  | _ :: ots' => (Ok tt, (ots', sps))
  end.

(** The state is the pair of [ots_sender] and [sps]. *)
Definition ParseHelperSend (w : width) (max_batch_size number_of_sps : nat)
  : M (list OtVectorSender * SpVector) unit :=
  batch_loop number_of_sps max_batch_size number_of_sps 0
    (fun sp_id batch_size =>
       (let* ot_to_send := front in
        let output_to_send := s_outputs ot_to_send in
        do* for_k_bit w batch_size (fun j bit_i =>
              let* o := at_ output_to_send (j * bit_size w + bit_i) in
              let* m := T_of_BitVector w o in
              c_at_sub w (sp_id + j) (2 * m)) in
        pop_front)%cxx).

Definition ParseHelperReceive (w : width) (max_batch_size number_of_sps : nat)
  : M (list OtVectorReceiver * SpVector) unit :=
  batch_loop number_of_sps max_batch_size number_of_sps 0
    (fun sp_id batch_size =>
       (let* ot_to_receive := front in
        let output_to_receive := r_outputs ot_to_receive in
        do* for_k_bit w batch_size (fun j bit_i =>
              let* o := at_ output_to_receive (j * bit_size w + bit_i) in
              let* m := T_of_BitVector w o in
              c_at_add w (sp_id + j) (2 * m)) in
        pop_front)%cxx).

(** [number_of_sps_W_] as passed for the [std::size_t] parameter. *)
Definition count (w : width) (p : SpProviderFromOts) : nat :=
  Z.to_nat (pw_get w (number_of_sps_ p)).

(** A helper called on [ots_sender_.at(i)] with [sps_W_] read-only. *)
Definition on_sender (i : nat) (w : width)
  (helper : SpVector -> M (list OtVectorSender) unit)
  : M SpProviderFromOts unit := fun p =>
  match ots_sender_ p !! i with
  | None => (Throw out_of_range, p)
  | Some ots =>
      let '(r, ots') := helper (pw_get w (sps_ p)) ots in
      (r, set_ots_sender (<[i := ots']> (ots_sender_ p)) p)
  end.

Definition on_receiver (i : nat) (w : width)
  (helper : SpVector -> M (list OtVectorReceiver) unit)
  : M SpProviderFromOts unit := fun p =>
  match ots_receiver_ p !! i with
  | None => (Throw out_of_range, p)
  | Some ots =>
      let '(r, ots') := helper (pw_get w (sps_ p)) ots in
      (r, set_ots_receiver (<[i := ots']> (ots_receiver_ p)) p)
  end.

(** A helper called on [ots_sender_.at(i)] and [sps_W_], both by
    reference. *)
Definition on_sender_sps (i : nat) (w : width)
  (helper : M (list OtVectorSender * SpVector) unit)
  : M SpProviderFromOts unit := fun p =>
  match ots_sender_ p !! i with
  | None => (Throw out_of_range, p)
  | Some ots =>
      let '(r, (ots', sps')) := helper (ots, pw_get w (sps_ p)) in
      (r, set_ots_sender (<[i := ots']> (ots_sender_ p))
            (set_sps (pw_set w sps' (sps_ p)) p))
  end.

Definition on_receiver_sps (i : nat) (w : width)
  (helper : M (list OtVectorReceiver * SpVector) unit)
  : M SpProviderFromOts unit := fun p =>
  match ots_receiver_ p !! i with
  | None => (Throw out_of_range, p)
  | Some ots =>
      let '(r, (ots', sps')) := helper (ots, pw_get w (sps_ p)) in
      (r, set_ots_receiver (<[i := ots']> (ots_receiver_ p))
            (set_sps (pw_set w sps' (sps_ p)) p))
  end.

(** The loop over peers of [RegisterOts] and [ParseOutputs]: the five
    calls of the sender branch for [i < my_id_], those of the receiver
    branch for [i > my_id_]. *)
Definition for_peers (lower higher : nat -> width -> M SpProviderFromOts unit)
  : M SpProviderFromOts unit := fun p =>
  for_each (seq 0 (ot_providers_size p)) (fun i =>
    if decide (i = my_id_ p) then ret tt
    else if decide (i < my_id_ p)%nat then for_each widths (lower i)
    else if decide (my_id_ p < i)%nat then for_each widths (higher i)
    else ret tt) p.

(** The iterations of the [omp parallel for] over peers touch
    [ots_sender_.at(i)] and [ots_receiver_.at(i)] of their own peer only and
    read [sps_W_]; they are run here in index order. *)
Definition RegisterOts (rnd : width -> nat -> Z) : M SpProviderFromOts unit :=
  (do* for_each widths (fun w =>
         modify (fun p =>
           set_sps (pw_set w (GenerateRandomPairs w (rnd w)
                                (pw_get w (sps_ p)) (count w p))
                      (sps_ p)) p)) in
   for_peers
     (fun i w p =>
        on_sender i w (fun sps =>
          RegisterHelperSend w kMaxBatchSize sps (count w p)) p)
     (fun i w p =>
        on_receiver i w (fun sps =>
          RegisterHelperReceptor w kMaxBatchSize sps (count w p)) p))%cxx.

Definition ParseOutputs : M SpProviderFromOts unit :=
  for_peers
    (fun i w p =>
       on_sender_sps i w (ParseHelperSend w kMaxBatchSize (count w p)) p)
    (fun i w p =>
       on_receiver_sps i w (ParseHelperReceive w kMaxBatchSize (count w p)) p).

(** Debug logging (under [kDebug]) is left out. *)
Definition PreSetup (rnd : width -> nat -> Z) : M SpProviderFromOts unit :=
  fun p =>
    if negb (NeedSps p) then (Ok tt, p)
    else
      (do* emit (RecordStart kSpPresetup) in
       do* RegisterOts rnd in
       emit (RecordEnd kSpPresetup))%cxx p.

(** [for (auto& ot : ots_sender_.at(i)) ot->SendMessages();] *)
Definition send_all_messages (env : ot_outputs) (i : nat)
  : M SpProviderFromOts unit := fun p =>
  match ots_sender_ p !! i with
  | None => (Throw out_of_range, p)
  | Some ots =>
      (Ok tt,
       set_events (events_ p ++ imap (fun h _ => EvSendMessages i h) ots)
         (set_ots_sender
            (<[i := imap (fun h ot => SendMessages (sender_outputs env i h) ot)
                      ots]> (ots_sender_ p)) p))
  end.

(** [for (auto& ot : ots_receiver_.at(i)) ot->SendCorrections();] *)
Definition send_all_corrections (env : ot_outputs) (i : nat)
  : M SpProviderFromOts unit := fun p =>
  match ots_receiver_ p !! i with
  | None => (Throw out_of_range, p)
  | Some ots =>
      (Ok tt,
       set_events (events_ p ++ imap (fun h _ => EvSendCorrections i h) ots)
         (set_ots_receiver
            (<[i := imap (fun h ot =>
                            SendCorrections (receiver_outputs env i h) ot)
                      ots]> (ots_receiver_ p)) p))
  end.

(** The first loop of [Setup]; as in [RegisterOts] the parallel iterations
    are independent and run here in index order. *)
Definition drive_ots (env : ot_outputs) : M SpProviderFromOts unit := fun p =>
  for_each (seq 0 (ot_providers_size p)) (fun i =>
    if decide (i = my_id_ p) then ret tt
    else (do* send_all_messages env i in send_all_corrections env i)%cxx) p.

(** [{ std::scoped_lock lock(finished_condition_->GetMutex());
       finished_ = true; }
     finished_condition_->NotifyAll();] *)
Definition signal_finished : M SpProviderFromOts unit :=
  (do* emit MutexLock in
   do* modify (set_finished true) in
   do* emit (WriteFinished true) in
   do* emit MutexUnlock in
   emit NotifyAll)%cxx.

Definition Setup (env : ot_outputs) : M SpProviderFromOts unit := fun p =>
  if negb (NeedSps p) then (Ok tt, p)
  else
    (do* emit (RecordStart kSpSetup) in
     do* drive_ots env in
     do* ParseOutputs in
     do* signal_finished in
     emit (RecordEnd kSpSetup))%cxx p.

End Operations.

(** [sum_to n f] is [f 0 + ... + f (n-1)]. *)
Fixpoint sum_to (n : nat) (f : nat -> Z) : Z :=
  match n with
  | O => 0
  | S n' => sum_to n' f + f n'
  end.

(** *** Runs of several parties *)

(** Modelled from the spec: the additively correlated OT of the OT layer,
    which is not in src/.  In the OT at position [t] of a pair of handles
    the sender learns a mask and the receiver learns the mask, plus the
    sender's input at [t] if its choice bit at [t] is set; both are
    [bitlen]-bit values.  [masks] stands for the layer's randomness. *)
Definition acot_sender_outputs (masks : nat -> Z) (s : OtVectorSender)
  : list BitVector :=
  map (fun t => mkBitVector (to_bytes (s_bitlen s / 8) (masks t)) (s_bitlen s))
    (seq 0 (s_number_of_ots s)).

Definition acot_receiver_outputs (masks : nat -> Z) (s : OtVectorSender)
  (r : OtVectorReceiver) : list BitVector :=
  imap (fun t (choice : bool) =>
          let input :=
            match s_inputs s !! t with
            | Some i => from_bytes (take (s_bitlen s / 8) (bv_data i))
            | None => 0
            end in
          mkBitVector
            (to_bytes (r_bitlen r / 8)
               (masks t + if choice then input else 0))
            (r_bitlen r))
    (r_choices r).

(** The outputs such a layer hands to party [p], given the providers
    [pre q] of all parties after [PreSetup]: the [h]-th sender handle that
    [p] holds against [q] is paired with the [h]-th receiver handle that
    [q] holds against [p]. *)
Definition acot_env (pre : nat -> SpProviderFromOts)
  (masks : nat -> nat -> nat -> nat -> Z) (p : nat) : ot_outputs :=
  {| sender_outputs := fun q h =>
       match ots_sender_ (pre p) !! q ≫= (fun l => l !! h) with
       | Some s => acot_sender_outputs (masks p q h) s
       | None => []
       end;
     receiver_outputs := fun q h =>
       match ots_sender_ (pre q) !! p ≫= (fun l => l !! h),
             ots_receiver_ (pre p) !! q ≫= (fun l => l !! h) with
       | Some s, Some r => acot_receiver_outputs (masks q p h) s r
       | _, _ => []
       end |}.

(** The contract itself, for one pair of handles and the outputs the
    layer delivers for them: at every position [t] the receiver's output
    is the sender's output plus, if the choice bit is set, the sender's
    input, as [bitlen]-bit integers; and both outputs hold [bitlen] bits. *)
Definition acot_pair (s : OtVectorSender) (souts : list BitVector)
  (r : OtVectorReceiver) (routs : list BitVector) : Prop :=
  let sz := (s_bitlen s / 8)%nat in
  let val (bv : BitVector) := from_bytes (take sz (bv_data bv)) in
  forall (t : nat) (inp : BitVector) (ch : bool),
    (t < s_number_of_ots s)%nat ->
    s_inputs s !! t = Some inp -> r_choices r !! t = Some ch ->
    exists so ro,
      souts !! t = Some so /\ routs !! t = Some ro /\
      (sz <= length (bv_data so))%nat /\ (sz <= length (bv_data ro))%nat /\
      wrap (Z.of_nat (s_bitlen s)) (val ro)
      = wrap (Z.of_nat (s_bitlen s)) (val so + (if ch then val inp else 0)).

(** The OT layer meets the contract in a run of [parties] parties: for
    [q < p], the [h]-th sender handle of [p] against [q] and the [h]-th
    receiver handle of [q] against [p] get outputs related as above. *)
Definition meets_acot_contract (parties : nat)
  (pre : nat -> SpProviderFromOts) (env : nat -> ot_outputs) : Prop :=
  forall p q h ls lr s r,
    (q < p)%nat -> (p < parties)%nat ->
    ots_sender_ (pre p) !! q = Some ls -> ls !! h = Some s ->
    ots_receiver_ (pre q) !! p = Some lr -> lr !! h = Some r ->
    acot_pair s (sender_outputs (env p) q h) r (receiver_outputs (env q) p h).

(** The shares of square pair [i] of width [w] add up as they should:
    every party holds [a_W[i]] and [c_W[i]], and the sum of the [c]
    shares is the square of the sum of the [a] shares, modulo
    [2^bit_size]. *)
Definition shares_square (parties : nat) (fin : nat -> SpProviderFromOts)
  (w : width) (i : nat) : Prop :=
  exists av cv : nat -> Z,
    (forall p, (p < parties)%nat ->
       a (pw_get w (sps_ (fin p))) !! i = Some (av p) /\
       c (pw_get w (sps_ (fin p))) !! i = Some (cv p)) /\
    let A_i := to_T w (sum_to parties av) in
    to_T w (sum_to parties cv) = to_T w (A_i * A_i).

(** [PreSetup] on every party, then [Setup] on every party against the
    layer above. *)
Definition run_parties (max_batch : nat) (parties : nat) (counts : per_width Z)
  (rnd : nat -> width -> nat -> Z) (masks : nat -> nat -> nat -> nat -> Z)
  : list (result unit * SpProviderFromOts) :=
  let pre p := snd (PreSetup max_batch (rnd p) (requested p parties counts)) in
  map (fun p => Setup max_batch (acot_env pre masks p) (pre p))
    (seq 0 parties).

(** *** The lifetime of a provider and its waiters *)

(** The calls that other components make on a provider. *)
Inductive call : Type :=
| CallPreSetup (rnd : width -> nat -> Z)
| CallSetup (env : ot_outputs).

Definition run_call (max_batch : nat) (cl : call) : M SpProviderFromOts unit :=
  match cl with
  | CallPreSetup rnd => PreSetup max_batch rnd
  | CallSetup env => Setup max_batch env
  end.

(** The states of the provider after each call of [calls]; a call that
    throws leaves the provider as it was at the throw. *)
Fixpoint lifetime (max_batch : nat) (calls : list call) (p : SpProviderFromOts)
  : list SpProviderFromOts :=
  match calls with
  | [] => []
  | cl :: calls' =>
      let p' := snd (run_call max_batch cl p) in
      p' :: lifetime max_batch calls' p'
  end.

(** The values of [finished_] over the lifetime. *)
Definition flag_history (max_batch : nat) (calls : list call)
  (p : SpProviderFromOts) : list bool :=
  map finished_ (p :: lifetime max_batch calls p).

(** Modelled from the spec: [FiberCondition] is not in src/.  A thread
    that waits on the completion condition stays blocked until it finds the
    condition's predicate true. *)
Inductive waiter : Type := Blocked | Released.

Definition wait_step (p : SpProviderFromOts) (t : waiter) : waiter :=
  match t with
  | Blocked => if condition_function p then Released else Blocked
  | Released => Released
  end.

(** A provider and a waiting thread, interleaved. *)
Inductive sys_step : Type :=
| StepCall (cl : call)
| StepWaiter.

Definition run_sys_step (max_batch : nat) (st : sys_step)
  (s : SpProviderFromOts * waiter) : SpProviderFromOts * waiter :=
  match st with
  | StepCall cl => (snd (run_call max_batch cl s.1), s.2)
  | StepWaiter => (s.1, wait_step s.1 s.2)
  end.

Definition run_sys (max_batch : nat) (steps : list sys_step)
  (s : SpProviderFromOts * waiter) : SpProviderFromOts * waiter :=
  foldl (fun s st => run_sys_step max_batch st s) s steps.

(** The number of places where [false] is followed by [true]. *)
Fixpoint transitions (l : list bool) : nat :=
  match l with
  | [] => 0
  | b :: l' =>
      match b, l' with
      | false, true :: _ => S (transitions l')
      | _, _ => transitions l'
      end
  end.

(** *** Quantities the statements are phrased with *)

(** The number of iterations of the batch loop: [number_of_sps] split
    into batches of at most [max_batch]. *)
Definition batches (max_batch number_of_sps : nat) : nat :=
  ((number_of_sps + (max_batch - 1)) / max_batch)%nat.

(** The first [sizeof(T)] bytes of [outs.at(t)] as a [T]; 0 when there is
    no such output. *)
Definition out_val (w : width) (outs : list BitVector) (t : nat) : Z :=
  match outs !! t with
  | Some o => from_bytes (take (sizeof w) (bv_data o))
  | None => 0
  end.

(** The sum over [bit < bit_size] of the values [m] read for square pair
    [i]: they sit in the handle of batch [i / max_batch] at the positions
    [k * bit_size + bit] with [k = i mod max_batch]. *)
Definition sp_total {H} (outputs : H -> list BitVector) (w : width)
  (max_batch : nat) (ots : list H) (i : nat) : Z :=
  match ots !! (i / max_batch)%nat with
  | Some ot =>
      sum_to (bit_size w) (fun bit =>
        out_val w (outputs ot) ((i mod max_batch) * bit_size w + bit))
  | None => 0
  end.

(** *** Arithmetic of [T] *)

Lemma to_T_range (w : width) (x : Z) :
  0 <= to_T w x < 2 ^ Z.of_nat (bit_size w).
Proof. unfold to_T, wrap. apply Z.mod_pos_bound. lia. Qed.

Lemma to_T_idem (w : width) (x : Z) : to_T w (to_T w x) = to_T w x.
Proof. unfold to_T, wrap. apply Zmod_mod. Qed.

Lemma to_T_small (w : width) (x : Z) :
  0 <= x < 2 ^ Z.of_nat (bit_size w) -> to_T w x = x.
Proof. intros H. unfold to_T, wrap. by apply Z.mod_small. Qed.

Lemma to_T_add (w : width) (x x' y y' : Z) :
  to_T w x = to_T w x' -> to_T w y = to_T w y' ->
  to_T w (x + y) = to_T w (x' + y').
Proof.
  unfold to_T, wrap. intros Hx Hy.
  rewrite (Zplus_mod x y), (Zplus_mod x' y'). by rewrite Hx, Hy.
Qed.

Lemma to_T_mul (w : width) (x x' y y' : Z) :
  to_T w x = to_T w x' -> to_T w y = to_T w y' ->
  to_T w (x * y) = to_T w (x' * y').
Proof.
  unfold to_T, wrap. intros Hx Hy.
  rewrite (Zmult_mod x y), (Zmult_mod x' y'). by rewrite Hx, Hy.
Qed.

Lemma to_T_add_l (w : width) (x y : Z) : to_T w (to_T w x + y) = to_T w (x + y).
Proof. apply to_T_add; [apply to_T_idem | done]. Qed.

Lemma to_T_add_r (w : width) (x y : Z) : to_T w (x + to_T w y) = to_T w (x + y).
Proof. apply to_T_add; [done | apply to_T_idem]. Qed.

Lemma sum_to_ext (n : nat) (f g : nat -> Z) :
  (forall i, (i < n)%nat -> f i = g i) -> sum_to n f = sum_to n g.
Proof.
  induction n as [|n IH]; intros H; cbn; [done|].
  rewrite IH by (intros; apply H; lia). rewrite H by lia. done.
Qed.

Lemma sum_to_add (n : nat) (f g : nat -> Z) :
  sum_to n (fun i => f i + g i) = sum_to n f + sum_to n g.
Proof. induction n as [|n IH]; cbn; [done|]. rewrite IH. lia. Qed.

Lemma sum_to_scale (n : nat) (k : Z) (f : nat -> Z) :
  sum_to n (fun i => k * f i) = k * sum_to n f.
Proof. induction n as [|n IH]; cbn; [lia|]. rewrite IH. lia. Qed.

Lemma sum_to_zero (n : nat) : sum_to n (fun _ => 0) = 0.
Proof. induction n as [|n IH]; cbn; [done|]. rewrite IH. done. Qed.

Lemma to_T_sum_to (w : width) (n : nat) (f g : nat -> Z) :
  (forall i, (i < n)%nat -> to_T w (f i) = to_T w (g i)) ->
  to_T w (sum_to n f) = to_T w (sum_to n g).
Proof.
  induction n as [|n IH]; intros H; cbn; [done|].
  apply to_T_add; [apply IH; intros; apply H; lia | apply H; lia].
Qed.

(** Binary expansion: the low [n] bits of [x]. *)
Lemma low_bits_sum (x : Z) (n : nat) :
  x mod 2 ^ Z.of_nat n
  = sum_to n (fun i => Z.b2z (Z.testbit x (Z.of_nat i)) * 2 ^ Z.of_nat i).
Proof.
  induction n as [|n IH].
  - cbn. apply Z.mod_1_r.
  - cbn [sum_to]. rewrite <- IH.
    rewrite Nat2Z.inj_succ, Z.pow_succ_r by lia.
    rewrite (Z.mul_comm 2), Z.rem_mul_r by lia.
    rewrite Z.testbit_spec' by lia. lia.
Qed.

(** The choice bit [((a >> bit_i) & 1u) == 1] is bit [bit_i] of [a]. *)
Lemma choice_is_testbit (x : Z) (i : nat) :
  bool_decide (Z.land (Z.shiftr x (Z.of_nat i)) 1 = 1)
  = Z.testbit x (Z.of_nat i).
Proof.
  pose proof (Z.land_ones (Z.shiftr x (Z.of_nat i)) 1 ltac:(lia)) as Hland.
  change (Z.ones 1) with 1 in Hland. change (2 ^ 1) with 2 in Hland.
  rewrite Hland, Z.shiftr_div_pow2 by lia.
  rewrite <- Z.testbit_spec' by lia.
  destruct (Z.testbit x (Z.of_nat i)); cbn; by case_bool_decide.
Qed.

(** Summed over the bits of [y], the shifted copies of [x] make up [x*y]. *)
Lemma shifted_copies_sum (w : width) (x y : Z) :
  to_T w (sum_to (bit_size w) (fun i =>
            if Z.testbit y (Z.of_nat i)
            then to_T w (Z.shiftl x (Z.of_nat i)) else 0))
  = to_T w (x * y).
Proof.
  transitivity (to_T w (x * to_T w y)).
  - assert (Hy : to_T w y = sum_to (bit_size w) (fun i =>
               Z.b2z (Z.testbit y (Z.of_nat i)) * 2 ^ Z.of_nat i))
      by apply low_bits_sum.
    rewrite Hy, <- sum_to_scale. apply to_T_sum_to. intros i _.
    destruct (Z.testbit y (Z.of_nat i)); cbn [Z.b2z].
    + rewrite to_T_idem, Z.shiftl_mul_pow2 by lia. f_equal. lia.
    + f_equal. lia.
  - apply to_T_mul; [done | apply to_T_idem].
Qed.

(** Byte images. *)
Lemma from_to_bytes (n : nat) (x : Z) :
  from_bytes (to_bytes n x) = x mod 2 ^ (8 * Z.of_nat n).
Proof.
  revert x. induction n as [|n IH]; intros x.
  - cbn. by rewrite Z.mod_1_r.
  - cbn [to_bytes from_bytes foldr]. fold (from_bytes (to_bytes n (x / 256))).
    rewrite IH. replace (8 * Z.of_nat (S n)) with (8 + 8 * Z.of_nat n) by lia.
    rewrite Z.pow_add_r by lia. change (2 ^ 8) with 256.
    rewrite Z.rem_mul_r by lia. lia.
Qed.

Lemma length_to_bytes (n : nat) (x : Z) : length (to_bytes n x) = n.
Proof. revert x. induction n as [|n IH]; intros x; cbn; [done|]. by rewrite IH. Qed.

Lemma T_of_BitVector_of_T {S} (w : width) (x : Z) (s : S) :
  T_of_BitVector w (BitVector_of_T w x) s = (Ok (to_T w x), s).
Proof.
  unfold T_of_BitVector, BitVector_of_T. cbn [bv_data].
  rewrite length_to_bytes. rewrite decide_True by lia.
  rewrite firstn_all2 by (rewrite length_to_bytes; lia).
  rewrite from_to_bytes. unfold ret, to_T, wrap, bit_size.
  replace (Z.of_nat (sizeof w * 8)) with (8 * Z.of_nat (sizeof w)) by lia.
  reflexivity.
Qed.

(** *** Loops *)

Lemma for_each_seq_ok {S} (I : nat -> S -> Prop) (body : nat -> M S unit)
  (len : nat) : forall (start : nat) (s : S),
  (forall k s, (start <= k < start + len)%nat -> I k s ->
     exists s', body k s = (Ok tt, s') /\ I (Datatypes.S k) s') ->
  I start s ->
  exists s', for_each (seq start len) body s = (Ok tt, s')
             /\ I (start + len)%nat s'.
Proof.
  induction len as [|len IH]; intros start s Hbody HI.
  - exists s. rewrite Nat.add_0_r. done.
  - cbn [seq for_each]. unfold bind.
    destruct (Hbody start s ltac:(lia) HI) as [s1 [-> HI1]].
    destruct (IH (Datatypes.S start) s1) as [s2 [Hs2 HI2]]; [|done|].
    { intros k s' Hk. apply Hbody. lia. }
    exists s2. split; [done|]. by replace (start + Datatypes.S len)%nat
      with (Datatypes.S start + len)%nat by lia.
Qed.

Lemma batch_loop_ok {S} (I : nat -> S -> Prop) (B n : nat)
  (body : nat -> nat -> M S unit) :
  (0 < B)%nat ->
  (forall sp_id s, (sp_id < n)%nat -> I sp_id s ->
     exists s', body sp_id (Nat.min B (n - sp_id)) s = (Ok tt, s')
                /\ I (sp_id + Nat.min B (n - sp_id))%nat s') ->
  forall (fuel sp_id : nat) (s : S),
    (n - sp_id <= fuel)%nat -> (sp_id <= n)%nat -> I sp_id s ->
    exists s', batch_loop fuel B n sp_id body s = (Ok tt, s') /\ I n s'.
Proof.
  intros HB Hbody. induction fuel as [|fuel IH]; intros sp_id s Hfuel Hle HI.
  - assert (sp_id = n) as -> by lia. exists s. cbn.
    rewrite decide_False by lia. done.
  - cbn [batch_loop]. destruct (decide (sp_id < n)%nat) as [Hlt|Hge].
    + unfold bind. destruct (Hbody sp_id s Hlt HI) as [s1 [-> HI1]].
      apply IH; [lia | lia | done].
    + assert (sp_id = n) as -> by lia. by exists s.
Qed.

(** *** Batches *)

Lemma batches_spec (B n : nat) :
  (0 < B)%nat -> (n <= batches B n * B < n + B)%nat.
Proof.
  intros HB. unfold batches.
  pose proof (Nat.div_mod_eq (n + (B - 1)) B) as Hdm.
  pose proof (Nat.mod_upper_bound (n + (B - 1)) B ltac:(lia)) as Hr.
  rewrite (Nat.mul_comm _ B). lia.
Qed.

Lemma batches_unique (B n h : nat) :
  (0 < B)%nat -> (n <= h * B < n + B)%nat -> h = batches B n.
Proof.
  intros HB Hh. pose proof (batches_spec B n HB) as Hb.
  destruct (Nat.lt_trichotomy h (batches B n)) as [Hlt|[Heq|Hgt]]; [|done|].
  - assert (Datatypes.S h * B <= batches B n * B)%nat
      by (apply Nat.mul_le_mono_r; lia). lia.
  - assert (Datatypes.S (batches B n) * B <= h * B)%nat
      by (apply Nat.mul_le_mono_r; lia). lia.
Qed.

Lemma batch_div_mod (B h k : nat) :
  (k < B)%nat -> ((h * B + k) / B = h /\ (h * B + k) mod B = k)%nat.
Proof.
  intros Hk. split.
  - symmetry. apply (Nat.div_unique _ _ _ k); lia.
  - symmetry. apply (Nat.mod_unique _ _ h); lia.
Qed.

(** *** Parsing one list of handles *)

(** The two parse helpers are one loop, up to the handle type and the
    sign of the update. *)
Definition parse_generic {H} (outputs : H -> list BitVector) (adj : Z -> Z)
  (w : width) (max_batch_size number_of_sps : nat)
  : M (list H * SpVector) unit :=
  batch_loop number_of_sps max_batch_size number_of_sps 0
    (fun sp_id batch_size =>
       (let* ot := front in
        let output := outputs ot in
        do* for_k_bit w batch_size (fun j bit_i =>
              let* o := at_ output (j * bit_size w + bit_i) in
              let* m := T_of_BitVector w o in
              c_at_add w (sp_id + j) (adj (2 * m))) in
        pop_front)%cxx).

Lemma ParseHelperSend_generic (w : width) (B n : nat) :
  ParseHelperSend w B n = parse_generic s_outputs Z.opp w B n.
Proof. reflexivity. Qed.

Lemma ParseHelperReceive_generic (w : width) (B n : nat) :
  ParseHelperReceive w B n = parse_generic r_outputs (fun v => v) w B n.
Proof. reflexivity. Qed.

Lemma bit_size_pos (w : width) : (0 < bit_size w)%nat.
Proof. destruct w; cbn; lia. Qed.

Section ParseGeneric.

Context {H : Type} (outputs : H -> list BitVector) (adj : Z -> Z).
Hypothesis adj_add : forall u v, adj (u + v) = adj u + adj v.
Variable w : width.

(** The contribution of the outputs [k * bit_size ..] of one handle. *)
Definition batch_total (ot : H) (k : nat) : Z :=
  sum_to (bit_size w) (fun bit =>
    out_val w (outputs ot) (k * bit_size w + bit)).

Lemma adj_0 : adj 0 = 0.
Proof. pose proof (adj_add 0 0) as E. change (0 + 0) with 0 in E. lia. Qed.

(** The loop over [bit_i] for one square pair. *)
Lemma parse_bits_ok (ot : H) (ots : list H) (sps : SpVector)
  (sp_id j : nat) (x : Z) :
  (forall bit, (bit < bit_size w)%nat ->
     exists o, outputs ot !! (j * bit_size w + bit)%nat = Some o /\
               (sizeof w <= length (bv_data o))%nat) ->
  c sps !! (sp_id + j)%nat = Some x ->
  for_each (seq 0 (bit_size w)) (fun bit_i =>
    (let* o := at_ (outputs ot) (j * bit_size w + bit_i) in
     let* m := T_of_BitVector w o in
     c_at_add w (sp_id + j) (adj (2 * m)))%cxx) (ots, sps)
  = (Ok tt,
     (ots, mkSpVector (a sps)
             (<[(sp_id + j)%nat :=
                  to_T w (x + adj (2 * batch_total ot j))]> (c sps)))).
Proof.
  intros Hout Hx.
  pose (I := fun (bit : nat) (s : list H * SpVector) =>
    s.1 = ots /\ a s.2 = a sps /\
    c s.2 = (if decide (bit = 0)%nat then c sps
             else <[(sp_id + j)%nat :=
                      to_T w (x + adj (2 * sum_to bit (fun b =>
                        out_val w (outputs ot) (j * bit_size w + b))))]>
                    (c sps))).
  destruct (for_each_seq_ok I
    (fun bit_i =>
       (let* o := at_ (outputs ot) (j * bit_size w + bit_i) in
        let* m := T_of_BitVector w o in
        c_at_add w (sp_id + j) (adj (2 * m)))%cxx)
    (bit_size w) 0%nat (ots, sps)) as [[ots' sps'] [Hrun HI]].
  - intros bit [ots1 sps1] Hbit (Hots & Ha & Hc). cbn [fst snd] in *. subst ots1.
    destruct (Hout bit ltac:(lia)) as [o [Ho Hlen]].
    assert (Hcur : exists y, c sps1 !! (sp_id + j)%nat = Some y /\
      to_T w (y + adj (2 * out_val w (outputs ot) (j * bit_size w + bit)))
      = to_T w (x + adj (2 * sum_to (Datatypes.S bit) (fun b =>
                           out_val w (outputs ot) (j * bit_size w + b))))).
    { rewrite Hc. cbn [sum_to]. destruct (decide (bit = 0)%nat) as [->|Hne].
      - exists x. split; [done|]. reflexivity.
      - eexists. split.
        + apply list_lookup_insert_eq. by eapply lookup_lt_Some.
        + rewrite to_T_add_l. f_equal.
          rewrite Z.mul_add_distr_l, adj_add. lia. }
    destruct Hcur as [y [Hy Hval]].
    eexists. split.
    + unfold bind at 1. unfold at_. rewrite Ho. unfold ret.
      unfold bind at 1. unfold T_of_BitVector. rewrite decide_True by done.
      unfold ret. unfold c_at_add. rewrite Hy. reflexivity.
    + unfold I. cbn [fst snd a c]. split; [done|]. split; [done|].
      rewrite decide_False by lia.
      unfold out_val in Hval. rewrite Ho in Hval. rewrite Hval.
      rewrite Hc. destruct (decide (bit = 0)%nat); [done|].
      by rewrite list_insert_insert_eq.
  - unfold I. cbn. rewrite decide_True by done. done.
  - rewrite Hrun. destruct HI as (Hots & Ha & Hc). cbn [fst snd] in *.
    rewrite decide_False in Hc by (pose proof (bit_size_pos w); lia).
    subst ots'. destruct sps' as [a' c']. cbn in *. by subst.
Qed.

(** The loops over [j] and [bit_i] for one batch. *)
Lemma parse_batch_ok (ot : H) (ots : list H) (sps : SpVector)
  (sp_id b : nat) :
  (forall j bit, (j < b)%nat -> (bit < bit_size w)%nat ->
     exists o, outputs ot !! (j * bit_size w + bit)%nat = Some o /\
               (sizeof w <= length (bv_data o))%nat) ->
  (sp_id + b <= length (c sps))%nat ->
  exists c',
    for_k_bit w b (fun j bit_i =>
      (let* o := at_ (outputs ot) (j * bit_size w + bit_i) in
       let* m := T_of_BitVector w o in
       c_at_add w (sp_id + j) (adj (2 * m)))%cxx) (ots, sps)
    = (Ok tt, (ots, mkSpVector (a sps) c')) /\
    length c' = length (c sps) /\
    forall i x, c sps !! i = Some x ->
      c' !! i = Some (if decide (sp_id <= i < sp_id + b)%nat
                      then to_T w (x + adj (2 * batch_total ot (i - sp_id)))
                      else x).
Proof.
  intros Hout Hlen.
  pose (J := fun (j : nat) (s : list H * SpVector) =>
    s.1 = ots /\ a s.2 = a sps /\ length (c s.2) = length (c sps) /\
    forall i x, c sps !! i = Some x ->
      c s.2 !! i = Some (if decide (sp_id <= i < sp_id + j)%nat
                         then to_T w (x + adj (2 * batch_total ot (i - sp_id)))
                         else x)).
  destruct (for_each_seq_ok J
    (fun k => for_each (seq 0 (bit_size w)) (fun bit_i =>
       (let* o := at_ (outputs ot) (k * bit_size w + bit_i) in
        let* m := T_of_BitVector w o in
        c_at_add w (sp_id + k) (adj (2 * m)))%cxx))
    b 0%nat (ots, sps)) as [[ots' sps'] [Hrun HJ]].
  - intros j [ots1 sps1] Hj (Hots & Ha & Hl & Hc). cbn [fst snd] in *.
    subst ots1.
    destruct (lookup_lt_is_Some_2 (c sps) (sp_id + j)%nat ltac:(lia))
      as [x Hx].
    pose proof (Hc _ _ Hx) as Hx1. rewrite decide_False in Hx1 by lia.
    eexists. split.
    + apply (parse_bits_ok ot ots sps1 sp_id j x); [|done].
      intros bit Hbit. apply Hout; lia.
    + unfold J. cbn [fst snd a c]. split; [done|]. split; [done|].
      split; [by rewrite length_insert|].
      intros i y Hy. destruct (decide (i = sp_id + j)%nat) as [->|Hne].
      * rewrite list_lookup_insert_eq by lia.
        rewrite decide_True by lia. rewrite Hx in Hy. inversion Hy; subst.
        by replace (sp_id + j - sp_id)%nat with j by lia.
      * rewrite list_lookup_insert_ne by done. rewrite (Hc _ _ Hy).
        f_equal. destruct (decide (sp_id <= i < sp_id + j)%nat).
        -- by rewrite decide_True by lia.
        -- by rewrite decide_False by lia.
  - unfold J. cbn [fst snd]. split; [done|]. split; [done|]. split; [done|].
    intros i x Hx. by rewrite decide_False by lia.
  - destruct HJ as (Hots & Ha & Hl & Hc). cbn [fst snd] in *. subst ots'.
    exists (c sps'). unfold for_k_bit. rewrite Hrun.
    split; [|split; [done|]].
    + destruct sps' as [a' c']. cbn in *. by subst.
    + intros i x Hx. rewrite (Hc _ _ Hx). cbn. done.
Qed.

(** The whole helper. *)
Lemma parse_generic_ok (B n : nat) (hs : list H) (sps : SpVector) :
  (0 < B)%nat -> (n <= length (c sps))%nat ->
  (forall h k bit, (k < B)%nat -> (h * B + k < n)%nat ->
     (bit < bit_size w)%nat ->
     exists ot o, hs !! h = Some ot /\
       outputs ot !! (k * bit_size w + bit)%nat = Some o /\
       (sizeof w <= length (bv_data o))%nat) ->
  exists c',
    parse_generic outputs adj w B n (hs, sps)
    = (Ok tt, (drop (batches B n) hs, mkSpVector (a sps) c')) /\
    length c' = length (c sps) /\
    forall i x, c sps !! i = Some x ->
      c' !! i = Some (if decide (i < n)%nat
                      then to_T w (x + adj (2 * sp_total outputs w B hs i))
                      else x).
Proof.
  intros HB Hlen Hhs.
  pose (I := fun (sp_id : nat) (s : list H * SpVector) =>
    exists h, s.1 = drop h hs /\ sp_id = Nat.min (h * B) n /\
      (h * B < n + B)%nat /\ a s.2 = a sps /\
      length (c s.2) = length (c sps) /\
      forall i x, c sps !! i = Some x ->
        c s.2 !! i = Some (if decide (i < sp_id)%nat
                           then to_T w (x + adj (2 * sp_total outputs w B hs i))
                           else x)).
  destruct (batch_loop_ok I B n
    (fun sp_id batch_size =>
       (let* ot := front in
        let output := outputs ot in
        do* for_k_bit w batch_size (fun j bit_i =>
              let* o := at_ output (j * bit_size w + bit_i) in
              let* m := T_of_BitVector w o in
              c_at_add w (sp_id + j) (adj (2 * m))) in
        pop_front)%cxx) HB) with (fuel := n) (sp_id := 0%nat) (s := (hs, sps))
    as [[ots' sps'] [Hrun HI]].
  - intros sp_id [ots1 sps1] Hlt (h & Hots & Hsp & Hh & Ha & Hl & Hc).
    cbn [fst snd] in *. subst ots1.
    assert (Hsp' : sp_id = (h * B)%nat) by lia. clear Hsp. subst sp_id.
    set (b := Nat.min B (n - h * B)).
    destruct (Hhs h 0%nat 0%nat ltac:(lia) ltac:(lia) (bit_size_pos w))
      as (ot & _ & Hot & _).
    destruct (parse_batch_ok ot (drop h hs) sps1 (h * B) b)
      as (c' & Hbatch & Hl' & Hc').
    { intros j bit Hj Hbit.
      destruct (Hhs h j bit ltac:(lia) ltac:(lia) Hbit)
        as (ot' & o & Hot' & Ho & Hsz).
      rewrite Hot in Hot'. inversion Hot'; subst ot'. eauto. }
    { lia. }
    exists (drop (Datatypes.S h) hs, mkSpVector (a sps1) c'). split.
    + unfold bind at 1. rewrite (drop_S _ _ _ Hot) in *. cbn [front].
      unfold bind at 1. rewrite Hbatch. reflexivity.
    + exists (Datatypes.S h). cbn [fst snd a c].
      split; [done|]. split; [subst b; lia|]. split; [lia|].
      split; [done|]. split; [lia|].
      intros i x Hx. pose proof (Hc _ _ Hx) as Hi.
      destruct (decide (i < h * B)%nat) as [Hlo|Hhi].
      * rewrite (Hc' _ _ Hi). rewrite decide_False by lia.
        by rewrite decide_True by lia.
      * rewrite (Hc' _ _ Hi).
        destruct (decide (h * B <= i < h * B + b)%nat) as [Hin|Hout].
        -- rewrite decide_True by lia. do 4 f_equal.
           unfold sp_total, batch_total.
           destruct (batch_div_mod B h (i - h * B) ltac:(lia)) as [Hd Hm].
           replace (h * B + (i - h * B))%nat with i in Hd, Hm by lia.
           by rewrite Hd, Hm, Hot.
        -- by rewrite decide_False by lia.
  - lia.
  - lia.
  - exists 0%nat. cbn [fst snd]. split; [done|]. split; [lia|].
    split; [lia|]. split; [done|]. split; [done|].
    intros i x Hx. by rewrite decide_False by lia.
  - destruct HI as (h & Hots & Hsp & Hh & Ha & Hl & Hc). cbn [fst snd] in *.
    assert (h = batches B n) as -> by (apply batches_unique; lia).
    exists (c sps'). unfold parse_generic. rewrite Hrun.
    split; [|split; [done|done]].
    destruct sps' as [a' c']. cbn in *. by subst.
Qed.

End ParseGeneric.

(** *** Registering one list of handles *)

(** The two register helpers are one loop, up to the handle type and
    what is collected for a bit of a square pair. *)
Definition register_generic {H E} (mk : nat -> list E -> H)
  (elem : Z -> nat -> E) (w : width) (max_batch_size : nat) (sps : SpVector)
  (number_of_sps : nat) : M (list H) unit :=
  batch_loop number_of_sps max_batch_size number_of_sps 0
    (fun sp_id batch_size ots =>
       match
         for_k_bit w batch_size (fun k bit_i =>
           (let* a_k := at_ (a sps) (sp_id + k) in
            modify (fun v => v ++ [elem a_k bit_i]))%cxx) []
       with
       | (Ok _, v) => (Ok tt, ots ++ [mk batch_size v])
       | (Throw e, _) => (Throw e, ots)
       end).

Definition sender_handle (w : width) (batch_size : nat)
  (inputs : list BitVector) : OtVectorSender :=
  SetInputs inputs (RegisterSend (bit_size w) (batch_size * bit_size w)).

Definition sender_input (w : width) (a_k : Z) (bit_i : nat) : BitVector :=
  BitVector_of_T w (to_T w (Z.shiftl a_k (Z.of_nat bit_i))).

Definition receiver_handle (w : width) (batch_size : nat)
  (choices : list bool) : OtVectorReceiver :=
  SetChoices choices (RegisterReceive (bit_size w) (batch_size * bit_size w)).

Definition receiver_choice (a_k : Z) (bit_i : nat) : bool :=
  bool_decide (Z.land (Z.shiftr a_k (Z.of_nat bit_i)) 1 = 1).

Lemma RegisterHelperSend_generic (w : width) (B : nat) (sps : SpVector)
  (n : nat) :
  RegisterHelperSend w B sps n
  = register_generic (sender_handle w) (sender_input w) w B sps n.
Proof. reflexivity. Qed.

Lemma RegisterHelperReceptor_generic (w : width) (B : nat) (sps : SpVector)
  (n : nat) :
  RegisterHelperReceptor w B sps n
  = register_generic (receiver_handle w) receiver_choice w B sps n.
Proof. reflexivity. Qed.

Section RegisterGeneric.

Context {H E : Type} (mk : nat -> list E -> H) (elem : Z -> nat -> E).
Variable w : width.

Lemma flat_index_unique (k k' bit bit' : nat) :
  (bit < bit_size w)%nat -> (bit' < bit_size w)%nat ->
  (k * bit_size w + bit = k' * bit_size w + bit')%nat ->
  k = k' /\ bit = bit'.
Proof.
  intros Hb Hb' Heq.
  destruct (batch_div_mod (bit_size w) k bit Hb) as [Hd Hm].
  destruct (batch_div_mod (bit_size w) k' bit' Hb') as [Hd' Hm'].
  rewrite Heq in Hd, Hm. split; congruence.
Qed.

(** What one batch collects: an entry for every pair of [k] and
    [bit_i], at position [k * bit_size + bit_i]. *)
Lemma register_batch_ok (sps : SpVector) (sp_id b : nat) :
  (sp_id + b <= length (a sps))%nat ->
  exists v,
    for_k_bit w b (fun k bit_i =>
      (let* a_k := at_ (a sps) (sp_id + k) in
       modify (fun v => v ++ [elem a_k bit_i]))%cxx) []
    = (Ok tt, v) /\
    length v = (b * bit_size w)%nat /\
    forall k bit, (k < b)%nat -> (bit < bit_size w)%nat ->
      exists x, a sps !! (sp_id + k)%nat = Some x /\
                v !! (k * bit_size w + bit)%nat = Some (elem x bit).
Proof.
  intros Hlen.
  pose (P := fun (t : nat) (v : list E) =>
    length v = t /\
    forall k bit, (bit < bit_size w)%nat -> (k * bit_size w + bit < t)%nat ->
      exists x, a sps !! (sp_id + k)%nat = Some x /\
                v !! (k * bit_size w + bit)%nat = Some (elem x bit)).
  destruct (for_each_seq_ok (fun k v => P (k * bit_size w)%nat v)
    (fun k => for_each (seq 0 (bit_size w)) (fun bit_i =>
       (let* a_k := at_ (a sps) (sp_id + k) in
        modify (fun v => v ++ [elem a_k bit_i]))%cxx))
    b 0%nat []) as [v [Hrun HP]].
  - intros k v Hk HPk.
    destruct (lookup_lt_is_Some_2 (a sps) (sp_id + k)%nat ltac:(lia))
      as [x Hx].
    destruct (for_each_seq_ok (fun bit v => P (k * bit_size w + bit)%nat v)
      (fun bit_i =>
         (let* a_k := at_ (a sps) (sp_id + k) in
          modify (fun v => v ++ [elem a_k bit_i]))%cxx)
      (bit_size w) 0%nat v) as [v' [Hrun' HP']].
    + intros bit v1 Hbit [Hl1 Hv1]. eexists. split.
      * unfold bind, at_. rewrite Hx. unfold ret, modify. reflexivity.
      * split; [rewrite length_app; cbn; lia|].
        intros k' bit' Hbit' Hlt.
        destruct (decide (k' * bit_size w + bit' < k * bit_size w + bit)%nat)
          as [Hold|Hnew].
        -- destruct (Hv1 k' bit' Hbit' Hold) as [x' [Hx' Hv']].
           exists x'. split; [done|]. rewrite lookup_app_l by lia. done.
        -- assert (Heq : (k' * bit_size w + bit'
                          = k * bit_size w + bit)%nat) by lia.
           apply flat_index_unique in Heq as [-> ->]; [|done|lia].
           exists x. split; [done|].
           rewrite lookup_app_r by lia. rewrite Hl1, Nat.sub_diag. done.
    + by rewrite Nat.add_0_r.
    + exists v'. split; [done|].
      replace (Datatypes.S k * bit_size w)%nat
        with (k * bit_size w + (0 + bit_size w))%nat by lia. done.
  - split; [done|]. intros k bit _ Hlt. lia.
  - exists v. unfold for_k_bit. split; [done|].
    destruct HP as [Hl Hv]. cbn in Hl. split; [done|].
    intros k bit Hk Hbit. apply Hv; [done|].
    cbn. assert (Datatypes.S k * bit_size w <= b * bit_size w)%nat
      by (apply Nat.mul_le_mono_r; lia). lia.
Qed.

Lemma register_generic_ok (B n : nat) (sps : SpVector) (L : list H) :
  (0 < B)%nat -> (n <= length (a sps))%nat ->
  exists G,
    register_generic mk elem w B sps n L = (Ok tt, L ++ G) /\
    length G = batches B n /\
    forall h k bit, (k < B)%nat -> (h * B + k < n)%nat ->
      (bit < bit_size w)%nat ->
      exists v x,
        G !! h = Some (mk (Nat.min B (n - h * B)) v) /\
        length v = (Nat.min B (n - h * B) * bit_size w)%nat /\
        a sps !! (h * B + k)%nat = Some x /\
        v !! (k * bit_size w + bit)%nat = Some (elem x bit).
Proof.
  intros HB Hlen.
  pose (I := fun (sp_id : nat) (ots : list H) =>
    exists G, ots = L ++ G /\ sp_id = Nat.min (length G * B) n /\
      (length G * B < n + B)%nat /\
      forall h k bit, (h < length G)%nat -> (k < B)%nat ->
        (h * B + k < n)%nat -> (bit < bit_size w)%nat ->
        exists v x,
          G !! h = Some (mk (Nat.min B (n - h * B)) v) /\
          length v = (Nat.min B (n - h * B) * bit_size w)%nat /\
          a sps !! (h * B + k)%nat = Some x /\
          v !! (k * bit_size w + bit)%nat = Some (elem x bit)).
  destruct (batch_loop_ok I B n
    (fun sp_id batch_size ots =>
       match
         for_k_bit w batch_size (fun k bit_i =>
           (let* a_k := at_ (a sps) (sp_id + k) in
            modify (fun v => v ++ [elem a_k bit_i]))%cxx) []
       with
       | (Ok _, v) => (Ok tt, ots ++ [mk batch_size v])
       | (Throw e, _) => (Throw e, ots)
       end) HB) with (fuel := n) (sp_id := 0%nat) (s := L)
    as [ots' [Hrun HI]].
  - intros sp_id ots Hlt (G & -> & Hsp & HG & Hreg).
    assert (Hsp' : sp_id = (length G * B)%nat) by lia. clear Hsp. subst sp_id.
    set (b := Nat.min B (n - length G * B)).
    destruct (register_batch_ok sps (length G * B) b ltac:(lia))
      as (v & Hv & Hlv & Hve).
    exists ((L ++ G) ++ [mk b v]). split; [by rewrite Hv|].
    exists (G ++ [mk b v]). rewrite length_app. cbn [length].
    split; [by rewrite app_assoc|].
    replace ((length G + 1) * B)%nat with (length G * B + B)%nat by lia.
    split; [subst b; lia|]. split; [lia|].
    intros h k bit Hh Hk Hn Hbit.
    destruct (decide (h < length G)%nat) as [Hold|Hnew].
    + destruct (Hreg h k bit Hold Hk Hn Hbit) as (v' & x & ? & ? & ? & ?).
      exists v', x. rewrite lookup_app_l by done. done.
    + assert (h = length G) as -> by lia.
      destruct (Hve k bit ltac:(lia) Hbit) as (x & Hx & Hvx).
      exists v, x. rewrite lookup_app_r by lia. rewrite Nat.sub_diag. done.
  - lia.
  - lia.
  - exists []. rewrite app_nil_r. cbn. split; [done|]. split; [lia|].
    split; [lia|]. intros; lia.
  - destruct HI as (G & -> & Hsp & HG & Hreg). exists G.
    unfold register_generic. split; [done|].
    assert (HlG : length G = batches B n) by (apply batches_unique; lia).
    split; [done|]. intros h k bit Hk Hn Hbit. apply Hreg; try done.
    pose proof (batches_spec B n HB) as Hb. rewrite <- HlG in Hb.
    destruct (decide (h < length G)%nat); [done|].
    assert (length G * B <= h * B)%nat by (apply Nat.mul_le_mono_r; lia). lia.
Qed.

End RegisterGeneric.

(** *** Per-width members and the order of the widths *)

Lemma pw_get_set_eq {A} (w : width) (x : A) (p : per_width A) :
  pw_get w (pw_set w x p) = x.
Proof. by destruct w. Qed.

Lemma pw_get_set_ne {A} (w w' : width) (x : A) (p : per_width A) :
  w <> w' -> pw_get w' (pw_set w x p) = pw_get w' p.
Proof. by destruct w, w'. Qed.

#[local] Instance width_eq_dec : EqDecision width.
Proof. solve_decision. Defined.

(** The handles of the widths before position [k] of [widths], when
    width [w] takes [nb w] of them. *)
Definition offset (nb : width -> nat) (k : nat) : nat :=
  sum_list_with nb (take k widths).

Lemma offset_S (nb : width -> nat) (k : nat) (w : width) :
  widths !! k = Some w -> offset nb (S k) = (offset nb k + nb w)%nat.
Proof.
  intros Hk. unfold offset. rewrite (take_S_r _ _ _ Hk).
  rewrite sum_list_with_app. cbn. lia.
Qed.

Definition width_index (w : width) : nat :=
  match w with
  | W8 => 0 | W16 => 1 | W32 => 2 | W64 => 3 | W128 => 4
  end%nat.

Lemma widths_lookup (w : width) : widths !! width_index w = Some w.
Proof. by destruct w. Qed.

Lemma widths_lookup_inv (k : nat) (w : width) :
  widths !! k = Some w -> k = width_index w.
Proof.
  destruct k as [|[|[|[|[|k]]]]]; cbn; intros E; inversion E; subst; done.
Qed.

Lemma for_each_ok {S A} (I : nat -> S -> Prop) (body : A -> M S unit)
  (l : list A) (s : S) :
  (forall k x s, l !! k = Some x -> I k s ->
     exists s', body x s = (Ok tt, s') /\ I (Datatypes.S k) s') ->
  I 0%nat s ->
  exists s', for_each l body s = (Ok tt, s') /\ I (length l) s'.
Proof.
  revert I s. induction l as [|x l IH]; intros I s Hbody HI.
  - by exists s.
  - cbn [for_each]. unfold bind.
    destruct (Hbody 0%nat x s eq_refl HI) as [s1 [-> HI1]].
    destruct (IH (fun k => I (Datatypes.S k)) s1) as [s2 [Hs2 HI2]]; [|done|].
    { intros k y s' Hk. apply (Hbody (Datatypes.S k)). done. }
    by exists s2.
Qed.

(** What a list of handles holds from position [off] on after the
    batches of one width were registered. *)
Definition registered_from {H E} (mk : nat -> list E -> H)
  (elem : Z -> nat -> E) (w : width) (B n : nat) (av : list Z)
  (hs : list H) (off : nat) : Prop :=
  forall h k bit, (k < B)%nat -> (h * B + k < n)%nat ->
    (bit < bit_size w)%nat ->
    exists v x,
      hs !! (off + h)%nat = Some (mk (Nat.min B (n - h * B)) v) /\
      length v = (Nat.min B (n - h * B) * bit_size w)%nat /\
      av !! (h * B + k)%nat = Some x /\
      v !! (k * bit_size w + bit)%nat = Some (elem x bit).

Lemma registered_from_app {H E} (mk : nat -> list E -> H)
  (elem : Z -> nat -> E) (w : width) (B n : nat) (av : list Z)
  (hs G : list H) (off : nat) :
  registered_from mk elem w B n av hs off ->
  registered_from mk elem w B n av (hs ++ G) off.
Proof.
  intros Hreg h k bit Hk Hn Hbit.
  destruct (Hreg h k bit Hk Hn Hbit) as (v & x & Hh & ?).
  exists v, x. split; [|done].
  rewrite lookup_app_l; [done|]. by eapply lookup_lt_Some.
Qed.

(** *** One provider: [PreSetup] *)

Section Provider.

Variable B : nat.
Hypothesis B_pos : (0 < B)%nat.

(** The fields no operation of the provider changes. *)
Definition same_config (p p' : SpProviderFromOts) : Prop :=
  my_id_ p' = my_id_ p /\ ot_providers_size p' = ot_providers_size p /\
  number_of_sps_ p' = number_of_sps_ p.

(** The pairs [GenerateRandomPairs] leaves for width [w]. *)
Definition fresh_pairs (w : width) (rnd : nat -> Z) (n : nat) : SpVector :=
  let a' := RandomVector w rnd n in
  mkSpVector a' (map (fun a_i => to_T w (a_i * a_i)) a').

Lemma GenerateRandomPairs_fresh (w : width) (rnd : nat -> Z) (n : nat) :
  GenerateRandomPairs w rnd empty_sps n = fresh_pairs w rnd n.
Proof.
  unfold GenerateRandomPairs, fresh_pairs. case_decide; [done|].
  by assert (n = 0%nat) as -> by lia.
Qed.

Lemma length_RandomVector (w : width) (rnd : nat -> Z) (n : nat) :
  length (RandomVector w rnd n) = n.
Proof. unfold RandomVector. by rewrite length_map, length_seq. Qed.

Lemma lookup_RandomVector (w : width) (rnd : nat -> Z) (n i : nat) :
  (i < n)%nat -> RandomVector w rnd n !! i = Some (to_T w (rnd i)).
Proof.
  intros Hi. unfold RandomVector. rewrite list_lookup_fmap.
  by rewrite lookup_seq_lt.
Qed.

(** The state [RegisterOts] reaches from a provider whose handle lists
    are still empty. *)
Record registered_state (rnd : width -> nat -> Z) (p p' : SpProviderFromOts)
  : Prop := {
  reg_config : same_config p p';
  reg_finished : finished_ p' = finished_ p;
  reg_sps : forall w, pw_get w (sps_ p') = fresh_pairs w (rnd w) (count w p);
  reg_len_s : length (ots_sender_ p') = ot_providers_size p;
  reg_len_r : length (ots_receiver_ p') = ot_providers_size p;
  reg_no_sender : forall i, (my_id_ p <= i < ot_providers_size p)%nat ->
    ots_sender_ p' !! i = Some [];
  reg_no_receiver : forall i, (i <= my_id_ p)%nat ->
    (i < ot_providers_size p)%nat -> ots_receiver_ p' !! i = Some [];
  reg_sender : forall i, (i < my_id_ p)%nat ->
    (i < ot_providers_size p)%nat ->
    exists hs, ots_sender_ p' !! i = Some hs /\
      length hs = offset (fun w => batches B (count w p)) (length widths) /\
      forall j w, widths !! j = Some w ->
        registered_from (sender_handle w) (sender_input w) w B (count w p)
          (a (fresh_pairs w (rnd w) (count w p))) hs
          (offset (fun w => batches B (count w p)) j);
  reg_receiver : forall i, (my_id_ p < i < ot_providers_size p)%nat ->
    exists hs, ots_receiver_ p' !! i = Some hs /\
      length hs = offset (fun w => batches B (count w p)) (length widths) /\
      forall j w, widths !! j = Some w ->
        registered_from (receiver_handle w) receiver_choice w B (count w p)
          (a (fresh_pairs w (rnd w) (count w p))) hs
          (offset (fun w => batches B (count w p)) j)
}.

(** A provider on which [RegisterOts] has not run. *)
Definition fresh (p : SpProviderFromOts) : Prop :=
  sps_ p = pw_all empty_sps /\
  ots_sender_ p = replicate (ot_providers_size p) [] /\
  ots_receiver_ p = replicate (ot_providers_size p) [].

Abbreviation nb p := (fun w => batches B (count w p)).

(** The five register calls on [ots_sender_.at(i)]. *)
Lemma register_senders_ok (rnd : width -> nat -> Z) (p s : SpProviderFromOts)
  (i : nat) :
  same_config p s ->
  (forall w, pw_get w (sps_ s) = fresh_pairs w (rnd w) (count w p)) ->
  ots_sender_ s !! i = Some [] ->
  exists s' hs,
    for_each widths (fun w p =>
      on_sender i w (fun sps =>
        RegisterHelperSend w B sps (count w p)) p) s = (Ok tt, s') /\
    s' = set_ots_sender (<[i := hs]> (ots_sender_ s)) s /\
    length hs = offset (nb p) (length widths) /\
    forall j w, widths !! j = Some w ->
      registered_from (sender_handle w) (sender_input w) w B (count w p)
        (a (fresh_pairs w (rnd w) (count w p))) hs (offset (nb p) j).
Proof.
  intros Hcfg Hsps Hi.
  pose (I := fun (k : nat) (s' : SpProviderFromOts) =>
    exists hs,
      s' = set_ots_sender (<[i := hs]> (ots_sender_ s)) s /\
      length hs = offset (nb p) k /\
      forall j w, (j < k)%nat -> widths !! j = Some w ->
        registered_from (sender_handle w) (sender_input w) w B (count w p)
          (a (fresh_pairs w (rnd w) (count w p))) hs (offset (nb p) j)).
  destruct (for_each_ok I
    (fun w p => on_sender i w (fun sps =>
       RegisterHelperSend w B sps (count w p)) p) widths s)
    as [s' [Hrun (hs & Hs' & Hlen & Hreg)]].
  - intros k w s1 Hk (hs & -> & Hlen & Hreg).
    assert (Hcount : count w (set_ots_sender (<[i:=hs]> (ots_sender_ s)) s)
                     = count w p).
    { unfold count. cbn. destruct Hcfg as (_ & _ & ->). done. }
    unfold on_sender. cbn [ots_sender_ set_ots_sender sps_].
    rewrite list_lookup_insert_eq by (by eapply lookup_lt_Some).
    rewrite Hcount, RegisterHelperSend_generic, Hsps.
    destruct (register_generic_ok (sender_handle w) (sender_input w) w B
                (count w p) (fresh_pairs w (rnd w) (count w p)) hs B_pos)
      as (G & -> & HlG & HG).
    { cbn. by rewrite length_RandomVector. }
    eexists. split; [reflexivity|].
    exists (hs ++ G). split; [|split].
    + unfold set_ots_sender. cbn. by rewrite list_insert_insert_eq.
    + rewrite length_app, (offset_S _ _ _ Hk). lia.
    + intros j w' Hj Hw'. destruct (decide (j = k)) as [->|Hne].
      * rewrite Hk in Hw'. inversion Hw'; subst w'.
        intros h k' bit Hk' Hn Hbit.
        destruct (HG h k' bit Hk' Hn Hbit) as (v & x & HGh & ?).
        exists v, x. split; [|done].
        rewrite lookup_app_r by lia.
        by replace (offset (nb p) k + h - length hs)%nat with h by lia.
      * apply registered_from_app, Hreg; [lia|done].
  - exists []. split; [|split].
    + unfold set_ots_sender. rewrite list_insert_id by done.
      by destruct s.
    + done.
    + intros j w Hj. lia.
  - exists s', hs. split; [done|]. split; [done|]. split; [done|].
    intros j w Hw. apply Hreg; [|done]. by eapply lookup_lt_Some.
Qed.

(** The five register calls on [ots_receiver_.at(i)]. *)
Lemma register_receivers_ok (rnd : width -> nat -> Z) (p s : SpProviderFromOts)
  (i : nat) :
  same_config p s ->
  (forall w, pw_get w (sps_ s) = fresh_pairs w (rnd w) (count w p)) ->
  ots_receiver_ s !! i = Some [] ->
  exists s' hs,
    for_each widths (fun w p =>
      on_receiver i w (fun sps =>
        RegisterHelperReceptor w B sps (count w p)) p) s = (Ok tt, s') /\
    s' = set_ots_receiver (<[i := hs]> (ots_receiver_ s)) s /\
    length hs = offset (nb p) (length widths) /\
    forall j w, widths !! j = Some w ->
      registered_from (receiver_handle w) receiver_choice w B (count w p)
        (a (fresh_pairs w (rnd w) (count w p))) hs (offset (nb p) j).
Proof.
  intros Hcfg Hsps Hi.
  pose (I := fun (k : nat) (s' : SpProviderFromOts) =>
    exists hs,
      s' = set_ots_receiver (<[i := hs]> (ots_receiver_ s)) s /\
      length hs = offset (nb p) k /\
      forall j w, (j < k)%nat -> widths !! j = Some w ->
        registered_from (receiver_handle w) receiver_choice w B (count w p)
          (a (fresh_pairs w (rnd w) (count w p))) hs (offset (nb p) j)).
  destruct (for_each_ok I
    (fun w p => on_receiver i w (fun sps =>
       RegisterHelperReceptor w B sps (count w p)) p) widths s)
    as [s' [Hrun (hs & Hs' & Hlen & Hreg)]].
  - intros k w s1 Hk (hs & -> & Hlen & Hreg).
    assert (Hcount : count w (set_ots_receiver (<[i:=hs]> (ots_receiver_ s)) s)
                     = count w p).
    { unfold count. cbn. destruct Hcfg as (_ & _ & ->). done. }
    unfold on_receiver. cbn [ots_receiver_ set_ots_receiver sps_].
    rewrite list_lookup_insert_eq by (by eapply lookup_lt_Some).
    rewrite Hcount, RegisterHelperReceptor_generic, Hsps.
    destruct (register_generic_ok (receiver_handle w) receiver_choice w B
                (count w p) (fresh_pairs w (rnd w) (count w p)) hs B_pos)
      as (G & -> & HlG & HG).
    { cbn. by rewrite length_RandomVector. }
    eexists. split; [reflexivity|].
    exists (hs ++ G). split; [|split].
    + unfold set_ots_receiver. cbn. by rewrite list_insert_insert_eq.
    + rewrite length_app, (offset_S _ _ _ Hk). lia.
    + intros j w' Hj Hw'. destruct (decide (j = k)) as [->|Hne].
      * rewrite Hk in Hw'. inversion Hw'; subst w'.
        intros h k' bit Hk' Hn Hbit.
        destruct (HG h k' bit Hk' Hn Hbit) as (v & x & HGh & ?).
        exists v, x. split; [|done].
        rewrite lookup_app_r by lia.
        by replace (offset (nb p) k + h - length hs)%nat with h by lia.
      * apply registered_from_app, Hreg; [lia|done].
  - exists []. split; [|split].
    + unfold set_ots_receiver. rewrite list_insert_id by done.
      by destruct s.
    + done.
    + intros j w Hj. lia.
  - exists s', hs. split; [done|]. split; [done|]. split; [done|].
    intros j w Hw. apply Hreg; [|done]. by eapply lookup_lt_Some.
Qed.

(** [RegisterOts] on a fresh provider. *)
Lemma RegisterOts_ok (rnd : width -> nat -> Z) (p : SpProviderFromOts) :
  fresh p ->
  exists p', RegisterOts B rnd p = (Ok tt, p') /\ registered_state rnd p p'.
Proof.
  intros (Hsps & Hsnd & Hrcv).
  unfold RegisterOts. unfold bind at 1.
  set (pg := set_sps
    (mkPerWidth
       (fresh_pairs W8 (rnd W8) (count W8 p))
       (fresh_pairs W16 (rnd W16) (count W16 p))
       (fresh_pairs W32 (rnd W32) (count W32 p))
       (fresh_pairs W64 (rnd W64) (count W64 p))
       (fresh_pairs W128 (rnd W128) (count W128 p))) p).
  assert (Hgen : for_each widths (fun w =>
      modify (fun p => set_sps
        (pw_set w (GenerateRandomPairs w (rnd w) (pw_get w (sps_ p))
                     (count w p)) (sps_ p)) p)) p = (Ok tt, pg)).
  { unfold widths, for_each, bind, modify, ret. cbn. rewrite Hsps. cbn.
    by rewrite !GenerateRandomPairs_fresh. }
  rewrite Hgen. clear Hgen.
  assert (Hpg : forall w, pw_get w (sps_ pg) = fresh_pairs w (rnd w) (count w p))
    by (by intros []).
  set (P := ot_providers_size p). set (me := my_id_ p).
  pose (I := fun (i : nat) (s : SpProviderFromOts) =>
    same_config p s /\ finished_ s = finished_ p /\ events_ s = events_ p /\
    sps_ s = sps_ pg /\
    length (ots_sender_ s) = P /\ length (ots_receiver_ s) = P /\
    (forall i', (i <= i' < P)%nat ->
       ots_sender_ s !! i' = Some [] /\ ots_receiver_ s !! i' = Some []) /\
    (forall i', (i' < i)%nat -> (i' < P)%nat ->
       ((me <= i')%nat -> ots_sender_ s !! i' = Some []) /\
       ((i' <= me)%nat -> ots_receiver_ s !! i' = Some []) /\
       ((i' < me)%nat ->
          exists hs, ots_sender_ s !! i' = Some hs /\
            length hs = offset (nb p) (length widths) /\
            forall j w, widths !! j = Some w ->
              registered_from (sender_handle w) (sender_input w) w B
                (count w p) (a (fresh_pairs w (rnd w) (count w p))) hs
                (offset (nb p) j)) /\
       ((me < i')%nat ->
          exists hs, ots_receiver_ s !! i' = Some hs /\
            length hs = offset (nb p) (length widths) /\
            forall j w, widths !! j = Some w ->
              registered_from (receiver_handle w) receiver_choice w B
                (count w p) (a (fresh_pairs w (rnd w) (count w p))) hs
                (offset (nb p) j)))).
  unfold for_peers. change (ot_providers_size pg) with P.
  change (my_id_ pg) with me.
  destruct (for_each_seq_ok I
    (fun i =>
       if decide (i = me) then ret tt
       else if decide (i < me)%nat then
         for_each widths (fun w p =>
           on_sender i w (fun sps =>
             RegisterHelperSend w B sps (count w p)) p)
       else if decide (me < i)%nat then
         for_each widths (fun w p =>
           on_receiver i w (fun sps =>
             RegisterHelperReceptor w B sps (count w p)) p)
       else ret tt) P 0%nat pg) as [p' [Hrun HI]].
  - intros i s [_ Hi] (Hcfg & Hfin & Hev & Hs & Hls & Hlr & Hrest & Hdone).
    cbn in Hi.
    assert (Hsps' : forall w,
      pw_get w (sps_ s) = fresh_pairs w (rnd w) (count w p))
      by (intros w; by rewrite Hs).
    destruct (Hrest i ltac:(lia)) as [Hsi Hri].
    destruct (decide (i = me)) as [->|Hne].
    { exists s. split; [done|]. repeat (split; [done|]). split.
      - intros i' Hi'. apply Hrest. lia.
      - intros i' Hi' HP'. destruct (decide (i' = me)) as [->|Hne'].
        + split; [done|]. split; [done|]. split; intros; lia.
        + apply Hdone; [lia|done]. }
    destruct (decide (i < me)%nat) as [Hlt|Hge].
    { destruct (register_senders_ok rnd p s i Hcfg Hsps' Hsi)
        as (s' & hs & Hrun & -> & Hlen & Hreg).
      exists (set_ots_sender (<[i:=hs]> (ots_sender_ s)) s).
      split; [done|]. unfold I, same_config in *.
      cbn [ots_sender_ ots_receiver_ set_ots_sender sps_ finished_ events_
           my_id_ ot_providers_size number_of_sps_].
      split; [done|]. split; [done|]. split; [done|]. split; [done|].
      split; [by rewrite length_insert|]. split; [done|]. split.
      - intros i' Hi'. rewrite list_lookup_insert_ne by lia.
        apply Hrest. lia.
      - intros i' Hi' HP'. destruct (decide (i' = i)) as [->|Hne'].
        + rewrite list_lookup_insert_eq by lia.
          split; [intros; lia|]. split; [done|]. split; [|intros; lia].
          intros _. by exists hs.
        + rewrite list_lookup_insert_ne by done. apply Hdone; [lia|done]. }
    destruct (decide (me < i)%nat) as [Hgt|Hle]; [|lia].
    destruct (register_receivers_ok rnd p s i Hcfg Hsps' Hri)
      as (s' & hs & Hrun & -> & Hlen & Hreg).
    exists (set_ots_receiver (<[i:=hs]> (ots_receiver_ s)) s).
    split; [done|]. unfold I, same_config in *.
    cbn [ots_sender_ ots_receiver_ set_ots_receiver sps_ finished_ events_
         my_id_ ot_providers_size number_of_sps_].
    split; [done|]. split; [done|]. split; [done|]. split; [done|].
    split; [done|]. split; [by rewrite length_insert|]. split.
    + intros i' Hi'. rewrite list_lookup_insert_ne by lia.
      apply Hrest. lia.
    + intros i' Hi' HP'. destruct (decide (i' = i)) as [->|Hne'].
      * rewrite list_lookup_insert_eq by lia.
        split; [done|]. split; [intros; lia|]. split; [intros; lia|].
        intros _. by exists hs.
      * rewrite list_lookup_insert_ne by done. apply Hdone; [lia|done].
  - unfold I. subst pg. cbn [ots_sender_ ots_receiver_ set_sps sps_
      finished_ events_]. split; [done|].
    split; [done|]. split; [done|]. split; [done|].
    rewrite Hsnd, Hrcv, !length_replicate. split; [done|]. split; [done|].
    split; [|intros; lia].
    intros i' Hi'. by rewrite !lookup_replicate_2 by lia.
  - exists p'. split; [done|].
    destruct HI as (Hcfg & Hfin & Hev & Hs & Hls & Hlr & Hrest & Hdone).
    cbn in Hdone.
    split; try done.
    + intros w. by rewrite Hs.
    + intros i Hi. apply Hdone; lia.
    + intros i Hi HP. apply Hdone; lia.
    + intros i Hi HP. apply Hdone; lia.
    + intros i Hi. apply Hdone; lia.
Qed.

Lemma same_config_count (p p' : SpProviderFromOts) (w : width) :
  same_config p p' -> count w p' = count w p.
Proof. intros (_ & _ & E). unfold count. by rewrite E. Qed.

Lemma PreSetup_ok (rnd : width -> nat -> Z) (p : SpProviderFromOts) :
  fresh p ->
  exists p', PreSetup B rnd p = (Ok tt, p') /\
    (NeedSps p = false -> p' = p) /\
    (NeedSps p = true -> registered_state rnd p p').
Proof.
  intros Hfresh. unfold PreSetup.
  destruct (NeedSps p) eqn:Hneed; cbn [negb].
  - unfold bind at 1. unfold emit at 1. unfold modify.
    set (pe := set_events (events_ p ++ [RecordStart kSpPresetup]) p).
    destruct (RegisterOts_ok rnd pe) as [p1 [Hrun Hreg]].
    { destruct Hfresh as (? & ? & ?). by repeat split. }
    unfold bind. rewrite Hrun. unfold emit, modify.
    eexists. split; [reflexivity|]. split; [done|]. intros _.
    destruct Hreg as [Hc Hf Hs Hls Hlr Hns Hnr Hsn Hrc].
    split; try done.
  - exists p. split; [done|]. split; [done|]. done.
Qed.

(** *** One provider: the OT exchange *)

Definition is_ot_event (e : event) : Prop :=
  match e with
  | EvSendMessages _ _ | EvSendCorrections _ _ => True
  | _ => False
  end.

Lemma drive_ots_ok (env : ot_outputs) (p : SpProviderFromOts) :
  length (ots_sender_ p) = ot_providers_size p ->
  length (ots_receiver_ p) = ot_providers_size p ->
  exists p' evs,
    drive_ots env p = (Ok tt, p') /\
    same_config p p' /\ finished_ p' = finished_ p /\ sps_ p' = sps_ p /\
    events_ p' = events_ p ++ evs /\ Forall is_ot_event evs /\
    length (ots_sender_ p') = ot_providers_size p /\
    length (ots_receiver_ p') = ot_providers_size p /\
    (forall i hs, ots_sender_ p !! i = Some hs ->
       ots_sender_ p' !! i
       = Some (if decide (i = my_id_ p) then hs
               else imap (fun h ot => SendMessages (sender_outputs env i h) ot)
                      hs)) /\
    (forall i hs, ots_receiver_ p !! i = Some hs ->
       ots_receiver_ p' !! i
       = Some (if decide (i = my_id_ p) then hs
               else imap (fun h ot =>
                            SendCorrections (receiver_outputs env i h) ot)
                      hs)).
Proof.
  intros Hls Hlr. set (P := ot_providers_size p). set (me := my_id_ p).
  pose (I := fun (i : nat) (s : SpProviderFromOts) =>
    same_config p s /\ finished_ s = finished_ p /\ sps_ s = sps_ p /\
    (exists evs, events_ s = events_ p ++ evs /\ Forall is_ot_event evs) /\
    length (ots_sender_ s) = P /\ length (ots_receiver_ s) = P /\
    (forall i' hs, ots_sender_ p !! i' = Some hs ->
       ots_sender_ s !! i'
       = Some (if decide (i' < i /\ i' <> me)%nat
               then imap (fun h ot =>
                            SendMessages (sender_outputs env i' h) ot) hs
               else hs)) /\
    (forall i' hs, ots_receiver_ p !! i' = Some hs ->
       ots_receiver_ s !! i'
       = Some (if decide (i' < i /\ i' <> me)%nat
               then imap (fun h ot =>
                            SendCorrections (receiver_outputs env i' h) ot) hs
               else hs))).
  unfold drive_ots. fold P me.
  destruct (for_each_seq_ok I
    (fun i => if decide (i = me) then ret tt
              else (do* send_all_messages env i in
                    send_all_corrections env i)%cxx) P 0%nat p)
    as [p' [Hrun HI]].
  - intros i s [_ Hi] (Hcfg & Hfin & Hsps & (evs & Hev & Hevs) & Hl1 & Hl2
                       & Hsnd & Hrcv).
    cbn in Hi. destruct (decide (i = me)) as [->|Hne].
    { exists s. split; [done|]. unfold I. repeat (split; [done|]).
      split; [by exists evs|]. split; [done|]. split; [done|]. split.
      - intros i' hs Hhs. rewrite (Hsnd _ _ Hhs). f_equal.
        destruct (decide (i' < me /\ i' <> me)%nat),
          (decide (i' < Datatypes.S me /\ i' <> me)%nat); try done; lia.
      - intros i' hs Hhs. rewrite (Hrcv _ _ Hhs). f_equal.
        destruct (decide (i' < me /\ i' <> me)%nat),
          (decide (i' < Datatypes.S me /\ i' <> me)%nat); try done; lia. }
    destruct (lookup_lt_is_Some_2 (ots_sender_ p) i ltac:(lia)) as [hs Hhs].
    destruct (lookup_lt_is_Some_2 (ots_receiver_ p) i ltac:(lia)) as [hr Hhr].
    pose proof (Hsnd _ _ Hhs) as Hs1. rewrite decide_False in Hs1 by lia.
    pose proof (Hrcv _ _ Hhr) as Hr1. rewrite decide_False in Hr1 by lia.
    eexists. split.
    + unfold bind, send_all_messages. rewrite Hs1.
      unfold send_all_corrections.
      cbn [ots_receiver_ set_events set_ots_sender]. rewrite Hr1. reflexivity.
    + unfold I, same_config in *.
      cbn [ots_sender_ ots_receiver_ set_ots_sender set_ots_receiver
           set_events sps_ finished_ events_ my_id_ ot_providers_size
           number_of_sps_].
      split; [done|]. split; [done|]. split; [done|]. split.
      { eexists. rewrite Hev, <- !app_assoc. split; [reflexivity|].
        rewrite !Forall_app. split; [done|].
        split; apply Forall_forall; intros e He;
          apply elem_of_lookup_imap in He as (h & ot & -> & _); done. }
      split; [by rewrite length_insert|]. split; [by rewrite length_insert|].
      split.
      * intros i' hs' Hhs'. destruct (decide (i' = i)) as [->|Hne'].
        -- rewrite list_lookup_insert_eq by lia.
           rewrite decide_True by lia. rewrite Hhs in Hhs'. by inversion Hhs'.
        -- rewrite list_lookup_insert_ne by done. rewrite (Hsnd _ _ Hhs').
           f_equal. destruct (decide (i' < i /\ i' <> me)%nat),
             (decide (i' < Datatypes.S i /\ i' <> me)%nat); try done; lia.
      * intros i' hr' Hhr'. destruct (decide (i' = i)) as [->|Hne'].
        -- rewrite list_lookup_insert_eq by lia.
           rewrite decide_True by lia. rewrite Hhr in Hhr'. by inversion Hhr'.
        -- rewrite list_lookup_insert_ne by done. rewrite (Hrcv _ _ Hhr').
           f_equal. destruct (decide (i' < i /\ i' <> me)%nat),
             (decide (i' < Datatypes.S i /\ i' <> me)%nat); try done; lia.
  - unfold I. split; [done|]. split; [done|]. split; [done|].
    split; [exists []; by rewrite app_nil_r|]. split; [done|]. split; [done|].
    split; intros i' hs Hhs; rewrite Hhs; f_equal;
      by rewrite decide_False by lia.
  - destruct HI as (Hcfg & Hfin & Hsps & (evs & Hev & Hevs) & Hl1 & Hl2
                    & Hsnd & Hrcv).
    cbn in Hsnd, Hrcv. exists p', evs. split; [done|].
    repeat (split; [done|]). split.
    + intros i hs Hhs. rewrite (Hsnd _ _ Hhs). f_equal.
      apply lookup_lt_Some in Hhs.
      destruct (decide (i < P /\ i <> me)%nat), (decide (i = me));
        try done; lia.
    + intros i hr Hhr. rewrite (Hrcv _ _ Hhr). f_equal.
      apply lookup_lt_Some in Hhr.
      destruct (decide (i < P /\ i <> me)%nat), (decide (i = me));
        try done; lia.
Qed.

(** *** One provider: [ParseOutputs] *)

(** [c1] is [c0] with [f idx] added at every index, modulo [2^bit_size]. *)
Definition c_rel (w : width) (f : nat -> Z) (c0 c1 : list Z) : Prop :=
  length c1 = length c0 /\
  forall idx x, c0 !! idx = Some x ->
    exists y, c1 !! idx = Some y /\ to_T w y = to_T w (x + f idx).

Lemma c_rel_refl (w : width) (c0 : list Z) : c_rel w (fun _ => 0) c0 c0.
Proof.
  split; [done|]. intros idx x Hx. exists x. split; [done|]. f_equal. lia.
Qed.

Lemma c_rel_ext (w : width) (f g : nat -> Z) (c0 c1 : list Z) :
  (forall idx, f idx = g idx) -> c_rel w f c0 c1 -> c_rel w g c0 c1.
Proof.
  intros Hfg [Hl Hc]. split; [done|]. intros idx x Hx.
  destruct (Hc _ _ Hx) as (y & Hy & E). exists y. by rewrite <- Hfg.
Qed.

Lemma c_rel_step (w : width) (f g : nat -> Z) (n : nat) (c0 c1 c2 : list Z) :
  c_rel w f c0 c1 ->
  length c2 = length c1 ->
  (forall idx y, c1 !! idx = Some y ->
     c2 !! idx = Some (if decide (idx < n)%nat then to_T w (y + g idx)
                       else y)) ->
  c_rel w (fun idx => f idx + (if decide (idx < n)%nat then g idx else 0))
    c0 c2.
Proof.
  intros [Hl Hc] Hl2 Hc2. split; [congruence|]. intros idx x Hx.
  destruct (Hc _ _ Hx) as (y & Hy & E). eexists. split; [by apply Hc2|].
  destruct (decide (idx < n)%nat).
  - rewrite to_T_idem, Z.add_assoc. by apply to_T_add.
  - by rewrite Z.add_0_r.
Qed.

(** The outputs the parse helpers will read are there. *)
Definition ready {H} (outputs : H -> list BitVector) (p : SpProviderFromOts)
  (hs : list H) : Prop :=
  forall j w, widths !! j = Some w ->
    forall h k bit, (k < B)%nat -> (h * B + k < count w p)%nat ->
      (bit < bit_size w)%nat ->
      exists ot o, hs !! (offset (nb p) j + h)%nat = Some ot /\
        outputs ot !! (k * bit_size w + bit)%nat = Some o /\
        (sizeof w <= length (bv_data o))%nat.

(** The sum of the values read for square pair [idx] of width [w] from
    the handles [hs] of one peer. *)
Definition width_total {H} (outputs : H -> list BitVector)
  (p : SpProviderFromOts) (hs : list H) (w : width) (idx : nat) : Z :=
  sp_total outputs w B (drop (offset (nb p) (width_index w)) hs) idx.

Lemma width_index_inj (w w' : width) :
  width_index w = width_index w' -> w = w'.
Proof. by destruct w, w'. Qed.

(** The five parse calls on [ots_sender_.at(i)]. *)
Lemma parse_senders_ok (p s : SpProviderFromOts) (i : nat)
  (hs : list OtVectorSender) (F : width -> nat -> Z) (c0 : width -> list Z) :
  same_config p s ->
  ots_sender_ s !! i = Some hs ->
  ready s_outputs p hs ->
  (forall w, (count w p <= length (c0 w))%nat) ->
  (forall w, c_rel w (F w) (c0 w) (c (pw_get w (sps_ s)))) ->
  exists s',
    for_each widths (fun w p =>
      on_sender_sps i w (ParseHelperSend w B (count w p)) p) s
    = (Ok tt, s') /\
    same_config p s' /\ finished_ s' = finished_ s /\
    events_ s' = events_ s /\ ots_receiver_ s' = ots_receiver_ s /\
    length (ots_sender_ s') = length (ots_sender_ s) /\
    (forall i', i' <> i -> ots_sender_ s' !! i' = ots_sender_ s !! i') /\
    forall w,
      a (pw_get w (sps_ s')) = a (pw_get w (sps_ s)) /\
      c_rel w (fun idx =>
                 F w idx + (if decide (idx < count w p)%nat
                            then - (2 * width_total s_outputs p hs w idx)
                            else 0))
        (c0 w) (c (pw_get w (sps_ s'))).
Proof.
  intros Hcfg Hi Hready Hn Hrel.
  pose (I := fun (k : nat) (s' : SpProviderFromOts) =>
    same_config p s' /\ finished_ s' = finished_ s /\
    events_ s' = events_ s /\ ots_receiver_ s' = ots_receiver_ s /\
    length (ots_sender_ s') = length (ots_sender_ s) /\
    (forall i', i' <> i -> ots_sender_ s' !! i' = ots_sender_ s !! i') /\
    ots_sender_ s' !! i = Some (drop (offset (nb p) k) hs) /\
    forall w,
      a (pw_get w (sps_ s')) = a (pw_get w (sps_ s)) /\
      c_rel w (fun idx =>
                 F w idx + (if decide (width_index w < k)%nat then
                              if decide (idx < count w p)%nat
                              then - (2 * width_total s_outputs p hs w idx)
                              else 0
                            else 0))
        (c0 w) (c (pw_get w (sps_ s')))).
  destruct (for_each_ok I
    (fun w p => on_sender_sps i w (ParseHelperSend w B (count w p)) p)
    widths s) as [s' [Hrun HI]].
  - intros k w s1 Hk (Hcfg1 & Hfin & Hev & Hrc & Hlen & Hoth & Hcur & Hw).
    pose proof (widths_lookup_inv _ _ Hk) as Hkw.
    destruct (Hw w) as [Ha Hrelw]. pose proof Hrelw as [Hl Hc].
    destruct (parse_generic_ok s_outputs Z.opp Z.opp_add_distr w B
                (count w p) (drop (offset (nb p) k) hs)
                (pw_get w (sps_ s1)) B_pos) as (c' & Hparse & Hl' & Hc').
    { rewrite Hl. apply Hn. }
    { intros h k' bit Hk' Hh Hbit.
      destruct (Hready k w Hk h k' bit Hk' Hh Hbit) as (ot & o & ? & ? & ?).
      exists ot, o. by rewrite lookup_drop. }
    eexists. split.
    + unfold on_sender_sps. rewrite Hcur.
      rewrite (same_config_count _ _ _ Hcfg1), ParseHelperSend_generic.
      rewrite Hparse. reflexivity.
    + unfold I, same_config in *.
      cbn [ots_sender_ ots_receiver_ set_ots_sender set_sps sps_ finished_
           events_ my_id_ ot_providers_size number_of_sps_].
      split; [done|]. split; [done|]. split; [done|]. split; [done|].
      split; [by rewrite length_insert|]. split.
      { intros i' Hi'. rewrite list_lookup_insert_ne by done. by apply Hoth. }
      split.
      { rewrite list_lookup_insert_eq by (by eapply lookup_lt_Some).
        by rewrite drop_drop, (offset_S _ _ _ Hk). }
      intros w'. destruct (decide (w' = w)) as [->|Hne].
      * rewrite pw_get_set_eq. cbn [a c]. split; [done|].
        eapply c_rel_ext;
          [|apply (c_rel_step w (F w)
                     (fun idx => - (2 * width_total s_outputs p hs w idx))
                     (count w p) (c0 w) (c (pw_get w (sps_ s1))) c')].
        -- intros idx. cbn. by rewrite (decide_True (P := (_ < S k)%nat)) by lia.
        -- eapply c_rel_ext; [|exact Hrelw]. intros idx. cbn.
           rewrite decide_False by lia. lia.
        -- done.
        -- intros idx y Hy. rewrite (Hc' _ _ Hy).
           unfold width_total. by rewrite <- Hkw.
      * rewrite pw_get_set_ne by done. destruct (Hw w') as [Ha' Hrel'].
        split; [done|]. eapply c_rel_ext; [|exact Hrel'].
        intros idx. cbn.
        assert (width_index w' <> k)
          by (intros E; apply Hne, width_index_inj; congruence).
        destruct (decide (width_index w' < k)%nat),
          (decide (width_index w' < Datatypes.S k)%nat); try done; lia.
  - unfold I. do 6 (split; [done|]). split; [exact Hi|].
    intros w. split; [done|]. eapply c_rel_ext; [|apply Hrel].
    intros idx. cbn. rewrite decide_False by lia. lia.
  - exists s'. split; [done|].
    destruct HI as (Hcfg1 & Hfin & Hev & Hrc & Hlen & Hoth & Hcur & Hw).
    do 6 (split; [done|]). intros w. destruct (Hw w) as [Ha Hr].
    split; [done|]. eapply c_rel_ext; [|exact Hr]. intros idx. cbn.
    rewrite decide_True; [done|]. destruct w; cbn; lia.
Qed.

(** The five parse calls on [ots_receiver_.at(i)]. *)
Lemma parse_receivers_ok (p s : SpProviderFromOts) (i : nat)
  (hs : list OtVectorReceiver) (F : width -> nat -> Z) (c0 : width -> list Z) :
  same_config p s ->
  ots_receiver_ s !! i = Some hs ->
  ready r_outputs p hs ->
  (forall w, (count w p <= length (c0 w))%nat) ->
  (forall w, c_rel w (F w) (c0 w) (c (pw_get w (sps_ s)))) ->
  exists s',
    for_each widths (fun w p =>
      on_receiver_sps i w (ParseHelperReceive w B (count w p)) p) s
    = (Ok tt, s') /\
    same_config p s' /\ finished_ s' = finished_ s /\
    events_ s' = events_ s /\ ots_sender_ s' = ots_sender_ s /\
    length (ots_receiver_ s') = length (ots_receiver_ s) /\
    (forall i', i' <> i -> ots_receiver_ s' !! i' = ots_receiver_ s !! i') /\
    forall w,
      a (pw_get w (sps_ s')) = a (pw_get w (sps_ s)) /\
      c_rel w (fun idx =>
                 F w idx + (if decide (idx < count w p)%nat
                            then (2 * width_total r_outputs p hs w idx)
                            else 0))
        (c0 w) (c (pw_get w (sps_ s'))).
Proof.
  intros Hcfg Hi Hready Hn Hrel.
  pose (I := fun (k : nat) (s' : SpProviderFromOts) =>
    same_config p s' /\ finished_ s' = finished_ s /\
    events_ s' = events_ s /\ ots_sender_ s' = ots_sender_ s /\
    length (ots_receiver_ s') = length (ots_receiver_ s) /\
    (forall i', i' <> i -> ots_receiver_ s' !! i' = ots_receiver_ s !! i') /\
    ots_receiver_ s' !! i = Some (drop (offset (nb p) k) hs) /\
    forall w,
      a (pw_get w (sps_ s')) = a (pw_get w (sps_ s)) /\
      c_rel w (fun idx =>
                 F w idx + (if decide (width_index w < k)%nat then
                              if decide (idx < count w p)%nat
                              then (2 * width_total r_outputs p hs w idx)
                              else 0
                            else 0))
        (c0 w) (c (pw_get w (sps_ s')))).
  destruct (for_each_ok I
    (fun w p => on_receiver_sps i w (ParseHelperReceive w B (count w p)) p)
    widths s) as [s' [Hrun HI]].
  - intros k w s1 Hk (Hcfg1 & Hfin & Hev & Hrc & Hlen & Hoth & Hcur & Hw).
    pose proof (widths_lookup_inv _ _ Hk) as Hkw.
    destruct (Hw w) as [Ha Hrelw]. pose proof Hrelw as [Hl Hc].
    destruct (parse_generic_ok r_outputs (fun v => v) (fun u v => eq_refl) w B
                (count w p) (drop (offset (nb p) k) hs)
                (pw_get w (sps_ s1)) B_pos) as (c' & Hparse & Hl' & Hc').
    { rewrite Hl. apply Hn. }
    { intros h k' bit Hk' Hh Hbit.
      destruct (Hready k w Hk h k' bit Hk' Hh Hbit) as (ot & o & ? & ? & ?).
      exists ot, o. by rewrite lookup_drop. }
    eexists. split.
    + unfold on_receiver_sps. rewrite Hcur.
      rewrite (same_config_count _ _ _ Hcfg1), ParseHelperReceive_generic.
      rewrite Hparse. reflexivity.
    + unfold I, same_config in *.
      cbn [ots_receiver_ ots_sender_ set_ots_receiver set_sps sps_ finished_
           events_ my_id_ ot_providers_size number_of_sps_].
      split; [done|]. split; [done|]. split; [done|]. split; [done|].
      split; [by rewrite length_insert|]. split.
      { intros i' Hi'. rewrite list_lookup_insert_ne by done. by apply Hoth. }
      split.
      { rewrite list_lookup_insert_eq by (by eapply lookup_lt_Some).
        by rewrite drop_drop, (offset_S _ _ _ Hk). }
      intros w'. destruct (decide (w' = w)) as [->|Hne].
      * rewrite pw_get_set_eq. cbn [a c]. split; [done|].
        eapply c_rel_ext;
          [|apply (c_rel_step w (F w)
                     (fun idx => (2 * width_total r_outputs p hs w idx))
                     (count w p) (c0 w) (c (pw_get w (sps_ s1))) c')].
        -- intros idx. cbn. by rewrite (decide_True (P := (_ < S k)%nat)) by lia.
        -- eapply c_rel_ext; [|exact Hrelw]. intros idx. cbn.
           rewrite decide_False by lia. lia.
        -- done.
        -- intros idx y Hy. rewrite (Hc' _ _ Hy).
           unfold width_total. by rewrite <- Hkw.
      * rewrite pw_get_set_ne by done. destruct (Hw w') as [Ha' Hrel'].
        split; [done|]. eapply c_rel_ext; [|exact Hrel'].
        intros idx. cbn.
        assert (width_index w' <> k)
          by (intros E; apply Hne, width_index_inj; congruence).
        destruct (decide (width_index w' < k)%nat),
          (decide (width_index w' < Datatypes.S k)%nat); try done; lia.
  - unfold I. do 6 (split; [done|]). split; [exact Hi|].
    intros w. split; [done|]. eapply c_rel_ext; [|apply Hrel].
    intros idx. cbn. rewrite decide_False by lia. lia.
  - exists s'. split; [done|].
    destruct HI as (Hcfg1 & Hfin & Hev & Hrc & Hlen & Hoth & Hcur & Hw).
    do 6 (split; [done|]). intros w. destruct (Hw w) as [Ha Hr].
    split; [done|]. eapply c_rel_ext; [|exact Hr]. intros idx. cbn.
    rewrite decide_True; [done|]. destruct w; cbn; lia.
Qed.

(** What the handles of peer [i] add to [c_W[idx]] of provider [p]: the
    sender side subtracts twice the sum of the values read, the receiver
    side adds it. *)
Definition contribution (p : SpProviderFromOts) (w : width) (idx i : nat)
  : Z :=
  if decide (idx < count w p)%nat then
    if decide (i < my_id_ p)%nat then
      - (2 * width_total s_outputs p (ots_sender_ p !!! i) w idx)
    else if decide (my_id_ p < i)%nat then
      (2 * width_total r_outputs p (ots_receiver_ p !!! i) w idx)
    else 0
  else 0.

Definition parse_ready (p : SpProviderFromOts) : Prop :=
  length (ots_sender_ p) = ot_providers_size p /\
  length (ots_receiver_ p) = ot_providers_size p /\
  (forall i, (i < my_id_ p)%nat -> (i < ot_providers_size p)%nat ->
     exists hs, ots_sender_ p !! i = Some hs /\ ready s_outputs p hs) /\
  (forall i, (my_id_ p < i < ot_providers_size p)%nat ->
     exists hs, ots_receiver_ p !! i = Some hs /\ ready r_outputs p hs) /\
  forall w, (count w p <= length (c (pw_get w (sps_ p))))%nat.

Lemma ParseOutputs_ok (p : SpProviderFromOts) :
  parse_ready p ->
  exists p',
    ParseOutputs B p = (Ok tt, p') /\
    same_config p p' /\ finished_ p' = finished_ p /\
    events_ p' = events_ p /\
    forall w,
      a (pw_get w (sps_ p')) = a (pw_get w (sps_ p)) /\
      c_rel w (fun idx => sum_to (ot_providers_size p) (contribution p w idx))
        (c (pw_get w (sps_ p))) (c (pw_get w (sps_ p'))).
Proof.
  intros (Hls & Hlr & Hsnd & Hrcv & Hn).
  set (P := ot_providers_size p). set (me := my_id_ p).
  pose (I := fun (i : nat) (s : SpProviderFromOts) =>
    same_config p s /\ finished_ s = finished_ p /\ events_ s = events_ p /\
    (forall i', (i <= i')%nat ->
       ots_sender_ s !! i' = ots_sender_ p !! i' /\
       ots_receiver_ s !! i' = ots_receiver_ p !! i') /\
    forall w,
      a (pw_get w (sps_ s)) = a (pw_get w (sps_ p)) /\
      c_rel w (fun idx => sum_to i (contribution p w idx))
        (c (pw_get w (sps_ p))) (c (pw_get w (sps_ s)))).
  unfold ParseOutputs, for_peers. fold P me.
  destruct (for_each_seq_ok I
    (fun i =>
       if decide (i = me) then ret tt
       else if decide (i < me)%nat then
         for_each widths (fun w p =>
           on_sender_sps i w (ParseHelperSend w B (count w p)) p)
       else if decide (me < i)%nat then
         for_each widths (fun w p =>
           on_receiver_sps i w (ParseHelperReceive w B (count w p)) p)
       else ret tt) P 0%nat p) as [p' [Hrun HI]].
  - intros i s [_ Hi] (Hcfg & Hfin & Hev & Hsame & Hw). cbn in Hi.
    destruct (Hsame i ltac:(lia)) as [Hsi Hri].
    destruct (decide (i = me)) as [->|Hne].
    { exists s. split; [done|]. unfold I. do 3 (split; [done|]). split.
      - intros i' Hi'. apply Hsame. lia.
      - intros w. destruct (Hw w) as [Ha Hr]. split; [done|].
        eapply c_rel_ext; [|exact Hr]. intros idx. cbn [sum_to].
        assert (contribution p w idx me = 0) as ->; [|lia].
        unfold contribution. fold me. repeat case_decide; lia. }
    destruct (decide (i < me)%nat) as [Hlt|Hge].
    { destruct (Hsnd i Hlt Hi) as (hs & Hhs & Hready).
      destruct (parse_senders_ok p s i hs
                  (fun w idx => sum_to i (contribution p w idx))
                  (fun w => c (pw_get w (sps_ p))) Hcfg)
        as (s' & Hrun & Hcfg' & Hfin' & Hev' & Hrc' & Hlen' & Hoth' & Hw');
        [congruence | done | done | intros w; apply Hw |].
      exists s'. split; [done|]. unfold I.
      split; [done|]. split; [congruence|]. split; [congruence|]. split.
      - intros i' Hi'. rewrite Hrc', Hoth' by lia. apply Hsame. lia.
      - intros w. destruct (Hw' w) as [Ha' Hr'].
        split; [rewrite Ha'; apply Hw|].
        eapply c_rel_ext; [|exact Hr']. intros idx. cbn [sum_to].
        f_equal. unfold contribution. fold me.
        rewrite (list_lookup_total_correct _ _ _ Hhs).
        destruct (decide (idx < count w p)%nat); [|done].
        by rewrite decide_True by done. }
    destruct (decide (me < i)%nat) as [Hgt|Hle]; [|lia].
    destruct (Hrcv i ltac:(lia)) as (hs & Hhs & Hready).
    destruct (parse_receivers_ok p s i hs
                (fun w idx => sum_to i (contribution p w idx))
                (fun w => c (pw_get w (sps_ p))) Hcfg)
      as (s' & Hrun & Hcfg' & Hfin' & Hev' & Hrc' & Hlen' & Hoth' & Hw');
      [congruence | done | done | intros w; apply Hw |].
    exists s'. split; [done|]. unfold I.
    split; [done|]. split; [congruence|]. split; [congruence|]. split.
    + intros i' Hi'. rewrite Hrc', Hoth' by lia. apply Hsame. lia.
    + intros w. destruct (Hw' w) as [Ha' Hr'].
      split; [rewrite Ha'; apply Hw|].
      eapply c_rel_ext; [|exact Hr']. intros idx. cbn [sum_to].
      f_equal. unfold contribution. fold me.
      rewrite (list_lookup_total_correct _ _ _ Hhs).
      destruct (decide (idx < count w p)%nat); [|done].
      rewrite decide_False by lia. by rewrite decide_True by done.
  - unfold I. split; [done|]. split; [done|]. split; [done|].
    split; [done|]. intros w. split; [done|]. apply c_rel_refl.
  - exists p'. destruct HI as (Hcfg & Hfin & Hev & Hsame & Hw). done.
Qed.

End Provider.

(** *** [NeedSps] *)

Definition total_requested (p : SpProviderFromOts) : Z :=
  number_of_sps_8_ p + number_of_sps_16_ p + number_of_sps_32_ p
  + number_of_sps_64_ p + number_of_sps_128_ p.

Lemma NeedSps_total (p : SpProviderFromOts) :
  NeedSps p = (0 <? size_t_wrap (total_requested p)).
Proof.
  unfold NeedSps, total_requested. rewrite !Core.size_t_wrap_add_l.
  rewrite <- (Z.add_assoc (size_t_wrap _)), Core.size_t_wrap_add_l.
  by rewrite Z.add_assoc.
Qed.

Lemma NeedSps_same_config (p p' : SpProviderFromOts) :
  same_config p p' -> NeedSps p' = NeedSps p.
Proof.
  intros (_ & _ & E). unfold NeedSps, number_of_sps_8_, number_of_sps_16_,
    number_of_sps_32_, number_of_sps_64_, number_of_sps_128_. by rewrite E.
Qed.

Lemma val_BitVector_of_T (w : width) (x : Z) :
  from_bytes (take (sizeof w) (bv_data (BitVector_of_T w x))) = to_T w x.
Proof.
  pose proof (T_of_BitVector_of_T w x tt) as E.
  unfold T_of_BitVector in E. cbn [bv_data BitVector_of_T] in *.
  rewrite length_to_bytes, decide_True in E by lia.
  unfold ret in E. by inversion E.
Qed.

Lemma bit_size_div_8 (w : width) : (bit_size w / 8 = sizeof w)%nat.
Proof. by destruct w. Qed.

(** *** Runs of several parties: the shares add up *)

Section Parties.

Variable B : nat.
Hypothesis B_pos : (0 < B)%nat.
Variable P : nat.
Variable counts : per_width Z.
Variable rnd : nat -> width -> nat -> Z.
Variable env : nat -> ot_outputs.

Definition party_init (p : nat) : SpProviderFromOts := requested p P counts.

Definition party_pre (p : nat) : SpProviderFromOts :=
  snd (PreSetup B (rnd p) (party_init p)).

Hypothesis contract : meets_acot_contract P party_pre env.

(** The number of pairs of width [w], the handles they take and where
    those start in a list of handles. *)
Definition n_of (w : width) : nat := Z.to_nat (pw_get w counts).
Definition off_of (w : width) : nat :=
  offset (fun w => batches B (n_of w)) (width_index w).

(** The share of [a_W[i]] that party [p] draws. *)
Definition a_of (p : nat) (w : width) (i : nat) : Z := to_T w (rnd p w i).

Hypothesis need : NeedSps (party_init 0) = true.

Lemma need_all (p : nat) : NeedSps (party_init p) = true.
Proof. exact need. Qed.

Lemma fresh_init (p : nat) : fresh (party_init p).
Proof. done. Qed.

Lemma pre_registered (p : nat) :
  PreSetup B (rnd p) (party_init p) = (Ok tt, party_pre p) /\
  registered_state B (rnd p) (party_init p) (party_pre p).
Proof.
  destruct (PreSetup_ok B B_pos (rnd p) (party_init p) (fresh_init p))
    as (p' & Hrun & _ & Hreg).
  unfold party_pre. rewrite Hrun. split; [done|]. apply Hreg, need_all.
Qed.

Lemma in_batch (w : width) (h k bit : nat) :
  (k < B)%nat -> (h * B + k < n_of w)%nat -> (bit < bit_size w)%nat ->
  (k * bit_size w + bit < Nat.min B (n_of w - h * B) * bit_size w)%nat.
Proof.
  intros Hk Hn Hbit.
  assert (Datatypes.S k * bit_size w
          <= Nat.min B (n_of w - h * B) * bit_size w)%nat
    by (apply Nat.mul_le_mono_r; lia).
  lia.
Qed.

(** The sender handle of [p] against [q < p] for batch [h] of width [w]. *)
Lemma sender_handle_at (p q : nat) (w : width) (h k bit : nat) :
  (q < p)%nat -> (p < P)%nat ->
  (k < B)%nat -> (h * B + k < n_of w)%nat -> (bit < bit_size w)%nat ->
  exists ls v,
    ots_sender_ (party_pre p) !! q = Some ls /\
    ls !! (off_of w + h)%nat
    = Some (sender_handle w (Nat.min B (n_of w - h * B)) v) /\
    v !! (k * bit_size w + bit)%nat
    = Some (sender_input w (a_of p w (h * B + k)) bit).
Proof.
  intros Hq Hp Hk Hn Hbit.
  destruct (pre_registered p) as [_ Hreg].
  destruct (reg_sender _ _ _ _ Hreg q Hq ltac:(cbn; lia))
    as (ls & Hls & _ & Hfrom).
  destruct (Hfrom _ w (widths_lookup w) h k bit Hk Hn Hbit)
    as (v & x & Hh & _ & Hx & Hv).
  exists ls, v. split; [done|]. split; [exact Hh|].
  cbn [a fresh_pairs] in Hx.
  rewrite lookup_RandomVector in Hx by exact Hn. inversion Hx; subst x.
  exact Hv.
Qed.

(** The receiver handle of [q] against [p > q] for the same batch. *)
Lemma receiver_handle_at (p q : nat) (w : width) (h k bit : nat) :
  (q < p)%nat -> (p < P)%nat ->
  (k < B)%nat -> (h * B + k < n_of w)%nat -> (bit < bit_size w)%nat ->
  exists lr v,
    ots_receiver_ (party_pre q) !! p = Some lr /\
    lr !! (off_of w + h)%nat
    = Some (receiver_handle w (Nat.min B (n_of w - h * B)) v) /\
    v !! (k * bit_size w + bit)%nat
    = Some (receiver_choice (a_of q w (h * B + k)) bit).
Proof.
  intros Hq Hp Hk Hn Hbit.
  destruct (pre_registered q) as [_ Hreg].
  destruct (reg_receiver _ _ _ _ Hreg p ltac:(cbn; lia))
    as (lr & Hlr & _ & Hfrom).
  destruct (Hfrom _ w (widths_lookup w) h k bit Hk Hn Hbit)
    as (v & x & Hh & _ & Hx & Hv).
  exists lr, v. split; [done|]. split; [exact Hh|].
  cbn [a fresh_pairs] in Hx.
  rewrite lookup_RandomVector in Hx by exact Hn. inversion Hx; subst x.
  exact Hv.
Qed.

(** What the contract gives for bit [bit] of square pair [h * B + k]. *)
Lemma linked_outputs (p q : nat) (w : width) (h k bit : nat) :
  (q < p)%nat -> (p < P)%nat ->
  (k < B)%nat -> (h * B + k < n_of w)%nat -> (bit < bit_size w)%nat ->
  exists so ro,
    sender_outputs (env p) q (off_of w + h) !! (k * bit_size w + bit)%nat
    = Some so /\
    receiver_outputs (env q) p (off_of w + h) !! (k * bit_size w + bit)%nat
    = Some ro /\
    (sizeof w <= length (bv_data so))%nat /\
    (sizeof w <= length (bv_data ro))%nat /\
    to_T w (from_bytes (take (sizeof w) (bv_data ro)))
    = to_T w (from_bytes (take (sizeof w) (bv_data so))
              + (if Z.testbit (a_of q w (h * B + k)) (Z.of_nat bit)
                 then to_T w (Z.shiftl (a_of p w (h * B + k)) (Z.of_nat bit))
                 else 0)).
Proof.
  intros Hq Hp Hk Hn Hbit.
  destruct (sender_handle_at p q w h k bit Hq Hp Hk Hn Hbit)
    as (ls & v & Hls & Hs & Hv).
  destruct (receiver_handle_at p q w h k bit Hq Hp Hk Hn Hbit)
    as (lr & v' & Hlr & Hr & Hv').
  pose proof (contract p q _ _ _ _ _ Hq Hp Hls Hs Hlr Hr) as Hpair.
  unfold acot_pair in Hpair.
  cbn [s_bitlen s_number_of_ots s_inputs r_choices sender_handle
       receiver_handle SetInputs SetChoices RegisterSend RegisterReceive]
    in Hpair.
  rewrite bit_size_div_8 in Hpair.
  destruct (Hpair _ _ _ (in_batch w h k bit Hk Hn Hbit) Hv Hv')
    as (so & ro & Hso & Hro & Hlso & Hlro & Hrel).
  exists so, ro. do 4 (split; [done|]).
  unfold sender_input in Hrel. rewrite val_BitVector_of_T, to_T_idem in Hrel.
  unfold receiver_choice in Hrel. rewrite choice_is_testbit in Hrel.
  exact Hrel.
Qed.

Lemma offset_ext (f g : width -> nat) (k : nat) :
  (forall w, f w = g w) -> offset f k = offset g k.
Proof.
  intros Hfg. unfold offset. induction (take k widths) as [|w l IH]; [done|].
  cbn. by rewrite Hfg, IH.
Qed.

Lemma count_of_config (p : nat) (s : SpProviderFromOts) (w : width) :
  same_config (party_init p) s -> count w s = n_of w.
Proof. intros H. by rewrite (same_config_count _ _ _ H). Qed.

Lemma offset_of_config (p : nat) (s : SpProviderFromOts) (w : width) :
  same_config (party_init p) s ->
  offset (fun w => batches B (count w s)) (width_index w) = off_of w.
Proof.
  intros H. apply offset_ext. intros w'. by rewrite (count_of_config p).
Qed.

(** Party [p] when the first loop of [Setup] is through. *)
Definition party_driven (p : nat) : SpProviderFromOts :=
  snd (drive_ots (env p)
         (set_events (events_ (party_pre p) ++ [RecordStart kSpSetup])
            (party_pre p))).

(** Party [p] after [Setup]. *)
Definition party_fin (p : nat) : SpProviderFromOts :=
  snd (Setup B (env p) (party_pre p)).

Lemma same_config_trans (p1 p2 p3 : SpProviderFromOts) :
  same_config p1 p2 -> same_config p2 p3 -> same_config p1 p3.
Proof. intros (? & ? & ?) (? & ? & ?). repeat split; congruence. Qed.

Lemma party_driven_ok (p : nat) :
  (p < P)%nat ->
  drive_ots (env p)
    (set_events (events_ (party_pre p) ++ [RecordStart kSpSetup])
       (party_pre p)) = (Ok tt, party_driven p) /\
  same_config (party_init p) (party_driven p) /\
  finished_ (party_driven p) = false /\
  sps_ (party_driven p) = sps_ (party_pre p) /\
  (forall i ls, i <> p -> ots_sender_ (party_pre p) !! i = Some ls ->
     ots_sender_ (party_driven p) !! i
     = Some (imap (fun h ot => SendMessages (sender_outputs (env p) i h) ot)
               ls)) /\
  (forall i lr, i <> p -> ots_receiver_ (party_pre p) !! i = Some lr ->
     ots_receiver_ (party_driven p) !! i
     = Some (imap (fun h ot =>
                     SendCorrections (receiver_outputs (env p) i h) ot) lr)) /\
  parse_ready B (party_driven p).
Proof.
  intros Hp. destruct (pre_registered p) as [_ Hreg].
  pose proof (reg_config _ _ _ _ Hreg) as Hcfg.
  set (pe := set_events (events_ (party_pre p) ++ [RecordStart kSpSetup])
               (party_pre p)).
  pose proof Hcfg as (Hme' & HP' & _).
  change (my_id_ (party_pre p) = p) in Hme'.
  change (ot_providers_size (party_pre p) = P) in HP'.
  destruct (drive_ots_ok B B_pos (env p) pe)
    as (p2 & evs & Hrun & Hcfg2 & Hfin & Hsps & _ & _ & Hl1 & Hl2 & Hs & Hr).
  { cbn. by rewrite (reg_len_s _ _ _ _ Hreg). }
  { cbn. by rewrite (reg_len_r _ _ _ _ Hreg). }
  assert (Hd : party_driven p = p2)
    by (unfold party_driven; fold pe; by rewrite Hrun).
  rewrite Hd. clear Hd.
  assert (Hcfg' : same_config (party_init p) p2).
  { eapply same_config_trans; [exact Hcfg|]. exact Hcfg2. }
  pose proof Hcfg' as (Hme & HP & _).
  change (my_id_ p2 = p) in Hme. change (ot_providers_size p2 = P) in HP.
  change (my_id_ pe) with (my_id_ (party_pre p)) in Hs, Hr.
  change (ot_providers_size pe) with (ot_providers_size (party_pre p))
    in Hl1, Hl2.
  assert (Hsnd : forall i ls, i <> p ->
    ots_sender_ (party_pre p) !! i = Some ls ->
    ots_sender_ p2 !! i
    = Some (imap (fun h ot => SendMessages (sender_outputs (env p) i h) ot) ls)).
  { intros i ls Hi Hls. rewrite (Hs i ls Hls), Hme'.
    by rewrite decide_False by done. }
  assert (Hrcv : forall i lr, i <> p ->
    ots_receiver_ (party_pre p) !! i = Some lr ->
    ots_receiver_ p2 !! i
    = Some (imap (fun h ot =>
                    SendCorrections (receiver_outputs (env p) i h) ot) lr)).
  { intros i lr Hi Hlr. rewrite (Hr i lr Hlr), Hme'.
    by rewrite decide_False by done. }
  split; [done|]. split; [done|]. split.
  { rewrite Hfin. cbn. by rewrite (reg_finished _ _ _ _ Hreg). }
  split; [done|]. split; [done|]. split; [done|].
  unfold parse_ready. rewrite Hme, HP. rewrite HP' in Hl1, Hl2.
  split; [done|]. split; [done|]. split; [|split].
  - intros i Hi _.
    destruct (reg_sender _ _ _ _ Hreg i Hi ltac:(cbn; lia)) as (ls & Hls & _).
    eexists. split; [apply (Hsnd i ls); [lia|done]|].
    intros j w Hj h k bit Hk Hn Hbit.
    rewrite (count_of_config p) in Hn by done.
    rewrite (widths_lookup_inv _ _ Hj), (offset_of_config p) by done.
    destruct (sender_handle_at p i w h k bit Hi Hp Hk Hn Hbit)
      as (ls' & v & Hls' & Hh & _).
    rewrite Hls in Hls'. inversion Hls'; subst ls'.
    destruct (linked_outputs p i w h k bit Hi Hp Hk Hn Hbit)
      as (so & ro & Hso & _ & Hlso & _).
    eexists _, so. rewrite list_lookup_imap, Hh. cbn. done.
  - intros i Hi.
    destruct (reg_receiver _ _ _ _ Hreg i ltac:(cbn; lia)) as (lr & Hlr & _).
    eexists. split; [apply (Hrcv i lr); [lia|done]|].
    intros j w Hj h k bit Hk Hn Hbit.
    rewrite (count_of_config p) in Hn by done.
    rewrite (widths_lookup_inv _ _ Hj), (offset_of_config p) by done.
    destruct (receiver_handle_at i p w h k bit ltac:(lia) ltac:(lia) Hk Hn Hbit)
      as (lr' & v & Hlr' & Hh & _).
    rewrite Hlr in Hlr'. inversion Hlr'; subst lr'.
    destruct (linked_outputs i p w h k bit ltac:(lia) ltac:(lia) Hk Hn Hbit)
      as (so & ro & _ & Hro & _ & Hlro & _).
    eexists _, ro. rewrite list_lookup_imap, Hh. cbn. done.
  - intros w. rewrite (count_of_config p) by done. rewrite Hsps.
    cbn [sps_ set_events]. rewrite (reg_sps _ _ _ _ Hreg). cbn.
    by rewrite length_map, length_RandomVector.
Qed.

Lemma party_fin_ok (p : nat) :
  (p < P)%nat ->
  Setup B (env p) (party_pre p) = (Ok tt, party_fin p) /\
  finished_ (party_fin p) = true /\
  forall w,
    a (pw_get w (sps_ (party_fin p))) = a (fresh_pairs w (rnd p w) (n_of w)) /\
    c_rel w (fun idx =>
               sum_to P (contribution B (party_driven p) w idx))
      (c (fresh_pairs w (rnd p w) (n_of w)))
      (c (pw_get w (sps_ (party_fin p)))).
Proof.
  intros Hp. destruct (pre_registered p) as [_ Hreg].
  pose proof (reg_config _ _ _ _ Hreg) as Hcfg.
  destruct (party_driven_ok p Hp)
    as (Hdrive & Hcfg2 & Hfin2 & Hsps2 & _ & _ & Hready).
  destruct (ParseOutputs_ok B B_pos (party_driven p) Hready)
    as (p3 & Hparse & Hcfg3 & Hfin3 & Hev3 & Hw).
  assert (HP : ot_providers_size (party_driven p) = P)
    by (by destruct Hcfg2 as (_ & -> & _)).
  rewrite HP in Hw.
  assert (Hrun : Setup B (env p) (party_pre p)
    = (Ok tt,
       set_events (events_ p3 ++ [MutexLock; WriteFinished true; MutexUnlock;
                                  NotifyAll; RecordEnd kSpSetup])
         (set_finished true p3))).
  { unfold Setup. rewrite (NeedSps_same_config _ _ Hcfg), need_all.
    cbn [negb]. unfold bind at 1. unfold emit at 1. unfold modify at 1.
    unfold bind at 1. rewrite Hdrive.
    unfold bind at 1. rewrite Hparse.
    unfold signal_finished, bind, emit, modify. cbn.
    by rewrite <- !app_assoc. }
  unfold party_fin. rewrite Hrun. split; [done|]. split; [done|].
  intros w. cbn [snd sps_ set_events set_finished].
  destruct (Hw w) as [Ha Hc]. rewrite Hsps2 in Ha, Hc.
  rewrite (reg_sps _ _ _ _ Hreg) in Ha, Hc. done.
Qed.

(** The sums of the values party [p] reads as sender against [q], and as
    receiver against [q], for square pair [idx] of width [w]. *)
Definition S_tot (p q : nat) (w : width) (idx : nat) : Z :=
  sum_to (bit_size w) (fun bit =>
    out_val w (sender_outputs (env p) q (off_of w + idx / B))
      ((idx mod B) * bit_size w + bit)).

Definition R_tot (p q : nat) (w : width) (idx : nat) : Z :=
  sum_to (bit_size w) (fun bit =>
    out_val w (receiver_outputs (env p) q (off_of w + idx / B))
      ((idx mod B) * bit_size w + bit)).

Lemma idx_split (idx : nat) :
  ((idx mod B < B) /\ (idx / B) * B + idx mod B = idx)%nat.
Proof.
  split; [apply Nat.mod_upper_bound; lia|].
  pose proof (Nat.div_mod_eq idx B). lia.
Qed.

Lemma contribution_lower (p q : nat) (w : width) (idx : nat) :
  (q < p)%nat -> (p < P)%nat -> (idx < n_of w)%nat ->
  contribution B (party_driven p) w idx q = - (2 * S_tot p q w idx).
Proof.
  intros Hq Hp Hidx.
  destruct (party_driven_ok p Hp) as (_ & Hcfg & _ & _ & Hs & _ & _).
  pose proof Hcfg as (Hme & _ & _). change (my_id_ (party_driven p) = p) in Hme.
  destruct (idx_split idx) as [Hk Hsplit].
  destruct (sender_handle_at p q w (idx / B) (idx mod B) 0 Hq Hp Hk
              ltac:(lia) (bit_size_pos w)) as (ls & v & Hls & Hh & _).
  unfold contribution. rewrite (count_of_config p), Hme by done.
  rewrite decide_True by done. rewrite decide_True by done.
  pose proof (Hs q ls ltac:(lia) Hls) as Hdrv.
  rewrite (list_lookup_total_correct _ _ _ Hdrv).
  unfold width_total, sp_total.
  rewrite (offset_of_config p) by done.
  rewrite lookup_drop, list_lookup_imap, Hh. cbn. done.
Qed.

Lemma contribution_higher (p q : nat) (w : width) (idx : nat) :
  (p < q)%nat -> (q < P)%nat -> (idx < n_of w)%nat ->
  contribution B (party_driven p) w idx q = 2 * R_tot p q w idx.
Proof.
  intros Hq HqP Hidx. assert (Hp : (p < P)%nat) by lia.
  destruct (party_driven_ok p Hp) as (_ & Hcfg & _ & _ & _ & Hr & _).
  pose proof Hcfg as (Hme & _ & _). change (my_id_ (party_driven p) = p) in Hme.
  destruct (idx_split idx) as [Hk Hsplit].
  destruct (receiver_handle_at q p w (idx / B) (idx mod B) 0 Hq HqP Hk
              ltac:(lia) (bit_size_pos w)) as (lr & v & Hlr & Hh & _).
  unfold contribution. rewrite (count_of_config p), Hme by done.
  rewrite decide_True by done. rewrite decide_False by lia.
  rewrite decide_True by done.
  pose proof (Hr q lr ltac:(lia) Hlr) as Hdrv.
  rewrite (list_lookup_total_correct _ _ _ Hdrv).
  unfold width_total, sp_total.
  rewrite (offset_of_config p) by done.
  rewrite lookup_drop, list_lookup_imap, Hh. cbn. done.
Qed.

Lemma contribution_self (p : nat) (w : width) (idx : nat) :
  (p < P)%nat -> contribution B (party_driven p) w idx p = 0.
Proof.
  intros Hp.
  destruct (party_driven_ok p Hp) as (_ & Hcfg & _).
  pose proof Hcfg as (Hme & _ & _). change (my_id_ (party_driven p) = p) in Hme.
  unfold contribution. rewrite Hme. repeat case_decide; lia.
Qed.

(** The heart of the protocol: what the receiver [q] gains over what the
    sender [p] gives up is the product of their shares. *)
Lemma pair_product (p q : nat) (w : width) (idx : nat) :
  (q < p)%nat -> (p < P)%nat -> (idx < n_of w)%nat ->
  to_T w (R_tot q p w idx - S_tot p q w idx)
  = to_T w (a_of p w idx * a_of q w idx).
Proof.
  intros Hq Hp Hidx. destruct (idx_split idx) as [Hk Hsplit].
  rewrite <- shifted_copies_sum. unfold R_tot, S_tot.
  replace (sum_to (bit_size w) (fun bit =>
             out_val w (receiver_outputs (env q) p (off_of w + idx / B))
               (idx mod B * bit_size w + bit))
           - sum_to (bit_size w) (fun bit =>
               out_val w (sender_outputs (env p) q (off_of w + idx / B))
                 (idx mod B * bit_size w + bit)))
    with (sum_to (bit_size w) (fun bit =>
            out_val w (receiver_outputs (env q) p (off_of w + idx / B))
              (idx mod B * bit_size w + bit)
            + -1 * out_val w (sender_outputs (env p) q (off_of w + idx / B))
                     (idx mod B * bit_size w + bit)))
    by (rewrite sum_to_add, sum_to_scale; lia).
  apply to_T_sum_to. intros bit Hbit.
  destruct (linked_outputs p q w (idx / B) (idx mod B) bit Hq Hp Hk
              ltac:(lia) Hbit) as (so & ro & Hso & Hro & _ & _ & Hrel).
  rewrite Hsplit in Hrel. unfold out_val. rewrite Hso, Hro.
  set (vr := from_bytes (take (sizeof w) (bv_data ro))) in *.
  set (vs := from_bytes (take (sizeof w) (bv_data so))) in *.
  set (x := if Z.testbit (a_of q w idx) (Z.of_nat bit)
            then to_T w (Z.shiftl (a_of p w idx) (Z.of_nat bit)) else 0) in *.
  transitivity (to_T w (vs + x + -1 * vs)); [|f_equal; lia].
  by apply to_T_add.
Qed.

Lemma sum_pairs (n : nat) (f : nat -> nat -> Z) :
  sum_to n (fun p => sum_to n (f p))
  = sum_to n (fun p => sum_to p (fun q => f p q + f q p))
    + sum_to n (fun p => f p p).
Proof.
  induction n as [|n IH]; [done|].
  cbn [sum_to]. rewrite sum_to_add, IH, sum_to_add. lia.
Qed.

Lemma square_of_sum (n : nat) (x : nat -> Z) :
  sum_to n x * sum_to n x
  = sum_to n (fun p => x p * x p)
    + 2 * sum_to n (fun p => sum_to p (fun q => x p * x q)).
Proof.
  induction n as [|n IH]; [done|].
  cbn [sum_to]. rewrite sum_to_scale.
  transitivity (sum_to n x * sum_to n x + 2 * (x n * sum_to n x) + x n * x n);
    [ring|].
  rewrite IH. ring.
Qed.

(** The shares of one square pair, when some pairs were requested. *)
Lemma shares_square_need (w : width) (i : nat) :
  (i < n_of w)%nat -> shares_square P party_fin w i.
Proof.
  intros Hi.
  exists (fun p => a_of p w i),
         (fun p => c (pw_get w (sps_ (party_fin p))) !!! i).
  assert (Hc : forall p, (p < P)%nat ->
    c (pw_get w (sps_ (party_fin p))) !! i
    = Some (c (pw_get w (sps_ (party_fin p))) !!! i) /\
    to_T w (c (pw_get w (sps_ (party_fin p))) !!! i)
    = to_T w (a_of p w i * a_of p w i
              + sum_to P (contribution B (party_driven p) w i))).
  { intros p Hp. destruct (party_fin_ok p Hp) as (_ & _ & Hw).
    destruct (Hw w) as [_ [_ Hrel]].
    destruct (Hrel i (to_T w (a_of p w i * a_of p w i))) as (y & Hy & E).
    { cbn [c fresh_pairs]. rewrite list_lookup_fmap.
      by rewrite lookup_RandomVector by done. }
    rewrite (list_lookup_total_correct _ _ _ Hy). split; [done|].
    rewrite E. apply to_T_add_l. }
  split.
  - intros p Hp. split; [|apply Hc, Hp].
    destruct (party_fin_ok p Hp) as (_ & _ & Hw).
    destruct (Hw w) as [-> _]. cbn [a fresh_pairs].
    by rewrite lookup_RandomVector by done.
  - cbn zeta.
    transitivity (to_T w (sum_to P (fun p =>
      a_of p w i * a_of p w i
      + sum_to P (contribution B (party_driven p) w i)))).
    { apply to_T_sum_to. intros p Hp. apply Hc, Hp. }
    rewrite sum_to_add, sum_pairs.
    rewrite (sum_to_ext P (fun p => contribution B (party_driven p) w i p)
               (fun _ => 0)) by (intros p Hp; by apply contribution_self).
    rewrite sum_to_zero, Z.add_0_r.
    transitivity (to_T w (sum_to P (fun p => a_of p w i * a_of p w i)
      + sum_to P (fun p => sum_to p (fun q =>
          2 * (a_of p w i * a_of q w i))))).
    { apply to_T_add; [done|]. apply to_T_sum_to. intros p Hp.
      apply to_T_sum_to. intros q Hq.
      rewrite (contribution_lower p q w i Hq Hp Hi).
      rewrite (contribution_higher q p w i Hq Hp Hi).
      replace (- (2 * S_tot p q w i) + 2 * R_tot q p w i)
        with (2 * (R_tot q p w i - S_tot p q w i)) by lia.
      apply to_T_mul; [done|]. by apply pair_product. }
    rewrite (sum_to_ext P
               (fun p => sum_to p (fun q => 2 * (a_of p w i * a_of q w i)))
               (fun p => 2 * sum_to p (fun q => a_of p w i * a_of q w i)))
      by (intros p _; apply sum_to_scale).
    rewrite sum_to_scale, <- square_of_sum.
    apply to_T_mul; by rewrite to_T_idem.
Qed.

Lemma parties_run_ok (p : nat) :
  (p < P)%nat ->
  PreSetup B (rnd p) (party_init p) = (Ok tt, party_pre p) /\
  Setup B (env p) (party_pre p) = (Ok tt, party_fin p) /\
  finished_ (party_fin p) = true.
Proof.
  intros Hp. destruct (pre_registered p) as [Hpre _].
  destruct (party_fin_ok p Hp) as (Hfin & Hdone & _). done.
Qed.

End Parties.

(** *** Properties of the square pairs *)

Lemma NeedSps_false_no_requests (p : SpProviderFromOts) :
  (forall w, 0 <= pw_get w (number_of_sps_ p)) ->
  total_requested p < 2 ^ 64 ->
  NeedSps p = false ->
  forall w, pw_get w (number_of_sps_ p) = 0.
Proof.
  intros Hnn Hfit Hneed w. rewrite NeedSps_total in Hneed.
  pose proof (Hnn W8). pose proof (Hnn W16). pose proof (Hnn W32).
  pose proof (Hnn W64). pose proof (Hnn W128).
  unfold total_requested, number_of_sps_8_, number_of_sps_16_,
    number_of_sps_32_, number_of_sps_64_, number_of_sps_128_ in *.
  cbn [pw_get] in *.
  rewrite Core.size_t_wrap_small in Hneed by lia.
  apply Z.ltb_ge in Hneed. destruct w; cbn [pw_get]; lia.
Qed.

(** C1 (as amended): in a run of [P] parties with the request counts
    [n_W], against an OT layer that meets the additively correlated OT
    contract, [PreSetup] and [Setup] return on every party.  If pairs are
    needed, that is, if the sum of the five counts is not 0 modulo [2^64],
    then [Setup] sets the completion flag on every party and for every
    width [W] and every index [i < n_W] every party holds shares [a_W[i]]
    and [c_W[i]], with [sum_p c_W[i] = A_i * A_i (mod 2^W)] for
    [A_i = sum_p a_W[i] mod 2^W].  Pairs are needed whenever some count is
    positive and the sum of the counts is below [2^64].  If no pairs are
    needed, [Setup] returns without a pair: every party is left as it was
    constructed. *)
Theorem Setup_shares_of_squares (B P : nat) (counts : per_width Z)
  (rnd : nat -> width -> nat -> Z) (env : nat -> ot_outputs) :
  (0 < B)%nat ->
  meets_acot_contract P (party_pre B P counts rnd) env ->
  (forall p, (p < P)%nat ->
     PreSetup B (rnd p) (requested p P counts)
     = (Ok tt, party_pre B P counts rnd p) /\
     Setup B (env p) (party_pre B P counts rnd p)
     = (Ok tt, party_fin B P counts rnd env p)) /\
  (NeedSps (requested 0 P counts) = true ->
   (forall p, (p < P)%nat ->
      finished_ (party_fin B P counts rnd env p) = true) /\
   forall w i, Z.of_nat i < pw_get w counts ->
     shares_square P (party_fin B P counts rnd env) w i) /\
  ((forall w, 0 <= pw_get w counts) ->
   pw_8 counts + pw_16 counts + pw_32 counts + pw_64 counts + pw_128 counts
     < 2 ^ 64 ->
   (exists w, 0 < pw_get w counts) ->
   NeedSps (requested 0 P counts) = true) /\
  (NeedSps (requested 0 P counts) = false ->
   forall p, party_fin B P counts rnd env p = requested p P counts).
Proof.
  intros HB Hcontract.
  assert (Hsome : (forall w, 0 <= pw_get w counts) ->
                  pw_8 counts + pw_16 counts + pw_32 counts + pw_64 counts
                  + pw_128 counts < 2 ^ 64 ->
                  (exists w, 0 < pw_get w counts) ->
                  NeedSps (requested 0 P counts) = true).
  { intros Hnn Hfit [w Hw].
    destruct (NeedSps (requested 0 P counts)) eqn:Hneed; [done|].
    pose proof (NeedSps_false_no_requests (requested 0 P counts) Hnn Hfit
                  Hneed w) as Hzero.
    cbn in Hzero. lia. }
  destruct (NeedSps (requested 0 P counts)) eqn:Hneed.
  - split; [|split; [|split]].
    + intros p Hp.
      destruct (parties_run_ok B HB P counts rnd env Hcontract Hneed p Hp)
        as (? & ? & _). done.
    + intros _. split.
      * intros p Hp.
        by destruct (parties_run_ok B HB P counts rnd env Hcontract Hneed p
                       Hp) as (_ & _ & ?).
      * intros w i Hi. apply shares_square_need; try done.
        unfold n_of. lia.
    + done.
    + discriminate.
  - assert (Hfin : forall p,
               PreSetup B (rnd p) (requested p P counts)
               = (Ok tt, requested p P counts) /\
               party_fin B P counts rnd env p = requested p P counts /\
               Setup B (env p) (party_pre B P counts rnd p)
               = (Ok tt, party_fin B P counts rnd env p)).
    { intros p.
      assert (Hneed' : NeedSps (requested p P counts) = false) by exact Hneed.
      assert (Hpre : PreSetup B (rnd p) (requested p P counts)
                     = (Ok tt, requested p P counts))
        by (unfold PreSetup; by rewrite Hneed').
      unfold party_fin, party_pre, party_init. rewrite Hpre. cbn [snd].
      split; [done|]. unfold Setup. by rewrite Hneed'. }
    split; [|split; [|split]].
    + intros p Hp. destruct (Hfin p) as (Hpre & _ & Hset).
      split; [|done]. unfold party_pre, party_init. by rewrite Hpre.
    + discriminate.
    + done.
    + intros _ p. by destruct (Hfin p) as (_ & E & _).
Qed.

(** C9 (as amended): for request counts that are [size_t] values,
    [NeedSps()] is true exactly if their sum is non-zero modulo [2^64];
    whenever the sum is below [2^64] this is the case exactly if one of
    the five counts is greater than zero. *)
Theorem NeedSps_iff_some_request (p : SpProviderFromOts) :
  (forall w, 0 <= pw_get w (number_of_sps_ p) < 2 ^ 64) ->
  (NeedSps p = true <-> 0 < size_t_wrap (total_requested p)) /\
  (total_requested p < 2 ^ 64 ->
   (NeedSps p = true <-> exists w, 0 < pw_get w (number_of_sps_ p))).
Proof.
  intros Hrange. split.
  - rewrite NeedSps_total. apply Z.ltb_lt.
  - intros Hfit. split.
    + intros Hneed.
      rewrite NeedSps_total in Hneed. apply Z.ltb_lt in Hneed.
      pose proof (Hrange W8). pose proof (Hrange W16). pose proof (Hrange W32).
      pose proof (Hrange W64). pose proof (Hrange W128).
      unfold total_requested, number_of_sps_8_, number_of_sps_16_,
        number_of_sps_32_, number_of_sps_64_, number_of_sps_128_ in *.
      cbn [pw_get] in *.
      rewrite Core.size_t_wrap_small in Hneed by lia.
      destruct (decide (0 < pw_8 (number_of_sps_ p))); [by exists W8|].
      destruct (decide (0 < pw_16 (number_of_sps_ p))); [by exists W16|].
      destruct (decide (0 < pw_32 (number_of_sps_ p))); [by exists W32|].
      destruct (decide (0 < pw_64 (number_of_sps_ p))); [by exists W64|].
      exists W128. cbn [pw_get]. lia.
    + intros [w Hw].
      destruct (NeedSps p) eqn:Hneed; [done|].
      rewrite (NeedSps_false_no_requests p) in Hw; [lia| |done|done].
      intros w'. apply Hrange.
Qed.

(** Counts of 1, 0, 2, 0 and 1 pairs, as in scenario 6. *)
Lemma NeedSps_iff_some_request_witness :
  let p := requested 0 3 (mkPerWidth 1 0 2 0 1) in
  (NeedSps p = true <-> 0 < size_t_wrap (total_requested p)) /\
  (total_requested p < 2 ^ 64 ->
   (NeedSps p = true <-> exists w, 0 < pw_get w (number_of_sps_ p))).
Proof.
  intros p. apply (NeedSps_iff_some_request p).
  intros w. destruct w; cbn; lia.
Defined.

(** C9 (as stated) fails when the sum wraps: with [2^63] requests of 8 bit
    and [2^63] of 16 bit the sum is [0] in [size_t] and [NeedSps()] is
    false although two counts are positive. *)
Lemma NeedSps_wraps_to_false :
  let p := requested 0 2 (mkPerWidth (2 ^ 63) (2 ^ 63) 0 0 0) in
  NeedSps p = false /\ 0 < number_of_sps_8_ p /\
  ~ (NeedSps p = true <-> exists w, 0 < pw_get w (number_of_sps_ p)).
Proof.
  cbn zeta. split; [reflexivity|]. split; [reflexivity|].
  intros [_ H].
  assert (Hex : exists w,
    0 < pw_get w (number_of_sps_
                    (requested 0 2 (mkPerWidth (2 ^ 63) (2 ^ 63) 0 0 0))))
    by (exists W8; reflexivity).
  apply H in Hex. discriminate Hex.
Qed.

(** The outputs a parse helper reads from the handles [hs] are there:
    for every batch [h] and every pair of [k] and [bit] of it, an output
    at position [k * bit_size + bit] holding at least [sizeof(T)] bytes. *)
Definition outputs_present {H} (outputs : H -> list BitVector) (w : width)
  (B n : nat) (hs : list H) : Prop :=
  forall h k bit, (k < B)%nat -> (h * B + k < n)%nat ->
    (bit < bit_size w)%nat ->
    exists ot o, hs !! h = Some ot /\
      outputs ot !! (k * bit_size w + bit)%nat = Some o /\
      (sizeof w <= length (bv_data o))%nat.

(** C3: for every width, [ParseHelperSend] reads, for every batch and
    every pair of [k] and [bit], the first [sizeof(T)] bytes of the output
    at position [k * bit_size + bit] as a little-endian [T] value [m] and
    subtracts [2 * m] from [c[sp_id + k]] modulo [2^bit_size];
    [ParseHelperReceive] adds it; both consume the handles of their
    batches from the front.  [ParseOutputs] runs the sender helpers on the
    lists of the peers below [my_id] and the receiver helpers on those of
    the peers above, so [c[idx]] ends up, modulo [2^bit_size], as its old
    value minus twice the values read on the sender side plus twice the
    values read on the receiver side. *)
Theorem ParseOutputs_subtracts_and_adds_2m (B : nat) (w : width) (n : nat)
  (sps : SpVector) :
  (0 < B)%nat ->
  (n <= length (c sps))%nat ->
  (forall hs : list OtVectorSender,
     outputs_present s_outputs w B n hs ->
     exists c',
       ParseHelperSend w B n (hs, sps)
       = (Ok tt, (drop (batches B n) hs, mkSpVector (a sps) c')) /\
       length c' = length (c sps) /\
       forall i x, c sps !! i = Some x ->
         c' !! i = Some (if decide (i < n)%nat
                         then to_T w (x - 2 * sp_total s_outputs w B hs i)
                         else x)) /\
  (forall hr : list OtVectorReceiver,
     outputs_present r_outputs w B n hr ->
     exists c',
       ParseHelperReceive w B n (hr, sps)
       = (Ok tt, (drop (batches B n) hr, mkSpVector (a sps) c')) /\
       length c' = length (c sps) /\
       forall i x, c sps !! i = Some x ->
         c' !! i = Some (if decide (i < n)%nat
                         then to_T w (x + 2 * sp_total r_outputs w B hr i)
                         else x)) /\
  (forall p : SpProviderFromOts,
     parse_ready B p ->
     exists p',
       ParseOutputs B p = (Ok tt, p') /\
       forall w' idx x, c (pw_get w' (sps_ p)) !! idx = Some x ->
         exists y, c (pw_get w' (sps_ p')) !! idx = Some y /\
           to_T w' y
           = to_T w' (x + sum_to (ot_providers_size p) (fun i =>
                            if decide (idx < count w' p)%nat then
                              if decide (i < my_id_ p)%nat then
                                - (2 * width_total B s_outputs p
                                         (ots_sender_ p !!! i) w' idx)
                              else if decide (my_id_ p < i)%nat then
                                2 * width_total B r_outputs p
                                      (ots_receiver_ p !!! i) w' idx
                              else 0
                            else 0))).
Proof.
  intros HB Hlen. split; [|split].
  - intros hs Hhs. rewrite ParseHelperSend_generic.
    exact (parse_generic_ok s_outputs Z.opp Z.opp_add_distr w B n hs sps
             HB Hlen Hhs).
  - intros hr Hhr. rewrite ParseHelperReceive_generic.
    exact (parse_generic_ok r_outputs (fun v => v) (fun u v => eq_refl)
             w B n hr sps HB Hlen Hhr).
  - intros p Hready.
    destruct (ParseOutputs_ok B HB p Hready) as (p' & Hrun & _ & _ & _ & Hw).
    exists p'. split; [done|]. intros w' idx x Hx.
    destruct (Hw w') as [_ [_ Hrel]]. exact (Hrel idx x Hx).
Qed.

(** *** The completion flag *)

(** [m] keeps [Q] whatever its outcome. *)
Definition preserves {S A} (Q : S -> Prop) (m : M S A) : Prop :=
  forall s r s', m s = (r, s') -> Q s -> Q s'.

Lemma preserves_ret {S A} (Q : S -> Prop) (x : A) : preserves Q (ret x).
Proof. intros s r s' E HQ. unfold ret in E. by inversion E; subst. Qed.

Lemma preserves_bind {S A A'} (Q : S -> Prop) (m : M S A) (k : A -> M S A') :
  preserves Q m -> (forall x, preserves Q (k x)) -> preserves Q (bind m k).
Proof.
  intros Hm Hk s r s' E HQ. unfold bind in E.
  destruct (m s) as [[x|e] s1] eqn:Em.
  - eapply Hk; [exact E|]. eapply Hm; eauto.
  - inversion E; subst. eapply Hm; eauto.
Qed.

Lemma preserves_for_each {S A} (Q : S -> Prop) (l : list A)
  (body : A -> M S unit) :
  (forall x, preserves Q (body x)) -> preserves Q (for_each l body).
Proof.
  intros Hbody. induction l as [|x l IH]; cbn [for_each].
  - apply preserves_ret.
  - apply preserves_bind; [apply Hbody|]. intros _. apply IH.
Qed.

(** The flag and the events, which the register and parse loops leave
    alone. *)
Definition flag_and_events (b : bool) (evs : list event)
  (p : SpProviderFromOts) : Prop :=
  finished_ p = b /\ events_ p = evs.

Lemma preserves_for_peers (Q : SpProviderFromOts -> Prop)
  (lower higher : nat -> width -> M SpProviderFromOts unit) :
  (forall i w, preserves Q (lower i w)) ->
  (forall i w, preserves Q (higher i w)) ->
  preserves Q (for_peers lower higher).
Proof.
  intros Hl Hh s r s' E HQ. unfold for_peers in E.
  eapply preserves_for_each; [|exact E|exact HQ].
  intros i. cbn beta.
  destruct (decide (i = my_id_ s)); [apply preserves_ret|].
  destruct (decide (i < my_id_ s)%nat);
    [apply preserves_for_each; intros w; apply Hl|].
  destruct (decide (my_id_ s < i)%nat);
    [apply preserves_for_each; intros w; apply Hh | apply preserves_ret].
Qed.

Lemma preserves_on_sender (b : bool) (evs : list event) (i : nat) (w : width)
  (helper : SpVector -> M (list OtVectorSender) unit) :
  preserves (flag_and_events b evs) (on_sender i w helper).
Proof.
  intros s r s' E HQ. unfold on_sender in E.
  destruct (ots_sender_ s !! i); [|by inversion E; subst].
  destruct (helper _ _) as [r1 ots']. by inversion E; subst.
Qed.

Lemma preserves_on_receiver (b : bool) (evs : list event) (i : nat)
  (w : width) (helper : SpVector -> M (list OtVectorReceiver) unit) :
  preserves (flag_and_events b evs) (on_receiver i w helper).
Proof.
  intros s r s' E HQ. unfold on_receiver in E.
  destruct (ots_receiver_ s !! i); [|by inversion E; subst].
  destruct (helper _ _) as [r1 ots']. by inversion E; subst.
Qed.

Lemma preserves_on_sender_sps (b : bool) (evs : list event) (i : nat)
  (w : width) (helper : M (list OtVectorSender * SpVector) unit) :
  preserves (flag_and_events b evs) (on_sender_sps i w helper).
Proof.
  intros s r s' E HQ. unfold on_sender_sps in E.
  destruct (ots_sender_ s !! i); [|by inversion E; subst].
  destruct (helper _) as [r1 [ots' sps']]. by inversion E; subst.
Qed.

Lemma preserves_on_receiver_sps (b : bool) (evs : list event) (i : nat)
  (w : width) (helper : M (list OtVectorReceiver * SpVector) unit) :
  preserves (flag_and_events b evs) (on_receiver_sps i w helper).
Proof.
  intros s r s' E HQ. unfold on_receiver_sps in E.
  destruct (ots_receiver_ s !! i); [|by inversion E; subst].
  destruct (helper _) as [r1 [ots' sps']]. by inversion E; subst.
Qed.

Lemma preserves_ParseOutputs (B : nat) (b : bool) (evs : list event) :
  preserves (flag_and_events b evs) (ParseOutputs B).
Proof.
  apply preserves_for_peers; intros i w s r s' E.
  - eapply preserves_on_sender_sps; exact E.
  - eapply preserves_on_receiver_sps; exact E.
Qed.

Lemma preserves_RegisterOts (B : nat) (rnd : width -> nat -> Z) (b : bool)
  (evs : list event) :
  preserves (flag_and_events b evs) (RegisterOts B rnd).
Proof.
  unfold RegisterOts. apply preserves_bind.
  - apply preserves_for_each. intros w s r s' E HQ.
    unfold modify in E. by inversion E; subst.
  - intros _. apply preserves_for_peers; intros i w s r s' E.
    + eapply preserves_on_sender; exact E.
    + eapply preserves_on_receiver; exact E.
Qed.

Lemma PreSetup_keeps_flag (B : nat) (rnd : width -> nat -> Z)
  (p : SpProviderFromOts) :
  finished_ (snd (PreSetup B rnd p)) = finished_ p.
Proof.
  unfold PreSetup. destruct (NeedSps p); [|done]. cbn [negb].
  destruct ((do* emit (RecordStart kSpPresetup) in
             do* RegisterOts B rnd in
             emit (RecordEnd kSpPresetup))%cxx p) as [r p'] eqn:E.
  cbn [snd].
  assert (Hpres : preserves (fun s => finished_ s = finished_ p)
    (do* emit (RecordStart kSpPresetup) in
     do* RegisterOts B rnd in
     emit (RecordEnd kSpPresetup))%cxx).
  { apply preserves_bind; [|intros _; apply preserves_bind; [|intros _]].
    - intros s r1 s' E1 HQ. unfold emit, modify in E1. by inversion E1; subst.
    - intros s r1 s' E1 HQ.
      destruct (preserves_RegisterOts B rnd (finished_ s) (events_ s)
                  s r1 s' E1); [done|congruence].
    - intros s r1 s' E1 HQ. unfold emit, modify in E1.
      by inversion E1; subst. }
  exact (Hpres p r p' E eq_refl).
Qed.

Lemma drive_ots_frame (env : ot_outputs) (p : SpProviderFromOts)
  (r : result unit) (p' : SpProviderFromOts) :
  drive_ots env p = (r, p') ->
  finished_ p' = finished_ p /\
  exists evs, events_ p' = events_ p ++ evs /\
              Forall (fun e => e <> WriteFinished true) evs.
Proof.
  intros E.
  pose (Q := fun s : SpProviderFromOts =>
    finished_ s = finished_ p /\
    exists evs, events_ s = events_ p ++ evs /\
                Forall (fun e => e <> WriteFinished true) evs).
  assert (HQ : Q p') ; [|exact HQ].
  unfold drive_ots in E.
  eapply (preserves_for_each Q); [|exact E|].
  - intros i. cbn beta.
    destruct (decide (i = my_id_ p)); [apply preserves_ret|].
    apply preserves_bind; [|intros _].
    + intros s1 r1 s1' E1 (Hf & evs & He & Hall).
      unfold send_all_messages in E1.
      destruct (ots_sender_ s1 !! i); inversion E1; subst;
        [|split; [done|by exists evs]].
      split; [done|]. eexists. cbn. rewrite He, <- app_assoc.
      split; [reflexivity|]. apply Forall_app. split; [done|].
      apply Forall_forall. intros e Hin.
      apply elem_of_lookup_imap in Hin as (h & ot & -> & _). done.
    + intros s1 r1 s1' E1 (Hf & evs & He & Hall).
      unfold send_all_corrections in E1.
      destruct (ots_receiver_ s1 !! i); inversion E1; subst;
        [|split; [done|by exists evs]].
      split; [done|]. eexists. cbn. rewrite He, <- app_assoc.
      split; [reflexivity|]. apply Forall_app. split; [done|].
      apply Forall_forall. intros e Hin.
      apply elem_of_lookup_imap in Hin as (h & ot & -> & _). done.
  - split; [done|]. exists []. by rewrite app_nil_r.
Qed.

(** What [Setup] does to the flag, outcome by outcome. *)
Lemma Setup_flag (B : nat) (env : ot_outputs) (p : SpProviderFromOts)
  (r : result unit) (p' : SpProviderFromOts) :
  Setup B env p = (r, p') ->
  (NeedSps p = false -> r = Ok tt /\ p' = p) /\
  (NeedSps p = true ->
   match r with
   | Ok _ =>
       exists p2 p3,
         drive_ots env
           (set_events (events_ p ++ [RecordStart kSpSetup]) p) = (Ok tt, p2) /\
         ParseOutputs B p2 = (Ok tt, p3) /\
         finished_ p3 = finished_ p /\
         p' = set_events
                (events_ p3 ++ [MutexLock; WriteFinished true; MutexUnlock;
                                NotifyAll; RecordEnd kSpSetup])
                (set_finished true p3)
   | Throw _ =>
       finished_ p' = finished_ p /\
       exists evs, events_ p' = events_ p ++ evs /\
                   Forall (fun e => e <> WriteFinished true) evs
   end).
Proof.
  intros E. unfold Setup in E. destruct (NeedSps p) eqn:Hneed; cbn [negb] in E.
  2:{ inversion E; subst. split; [done|]. intros; discriminate. }
  split; [intros; discriminate|]. intros _.
  unfold bind at 1 in E. unfold emit at 1 in E. unfold modify at 1 in E.
  set (pe := set_events (events_ p ++ [RecordStart kSpSetup]) p) in *.
  unfold bind at 1 in E.
  destruct (drive_ots env pe) as [r2 p2] eqn:Edrive.
  assert (Hdrv : finished_ p2 = finished_ p /\
    exists evs, events_ p2 = events_ p ++ evs /\
                Forall (fun e => e <> WriteFinished true) evs).
  { destruct (drive_ots_frame env pe r2 p2 Edrive) as (Hf & evs & He & Hall).
    split; [done|]. exists ([RecordStart kSpSetup] ++ evs).
    rewrite He. cbn. rewrite <- app_assoc. split; [done|].
    constructor; [done|exact Hall]. }
  destruct r2 as [[]|e].
  2:{ inversion E; subst. done. }
  unfold bind at 1 in E.
  destruct (ParseOutputs B p2) as [r3 p3] eqn:Eparse.
  destruct (preserves_ParseOutputs B (finished_ p2) (events_ p2) p2 r3 p3
              Eparse) as [Hf3 He3]; [done|].
  destruct r3 as [[]|e].
  2:{ inversion E; subst. rewrite Hf3, He3. done. }
  unfold signal_finished, bind, emit, modify in E. cbn in E.
  inversion E; subst. exists p2, p3. split; [done|]. split; [done|].
  split; [by rewrite Hf3; apply Hdrv|]. by rewrite <- !app_assoc.
Qed.

Lemma run_call_keeps_true (B : nat) (cl : call) (p : SpProviderFromOts) :
  finished_ p = true -> finished_ (snd (run_call B cl p)) = true.
Proof.
  intros Hp. destruct cl as [rnd|env]; cbn [run_call].
  - by rewrite PreSetup_keeps_flag.
  - destruct (Setup B env p) as [r p'] eqn:E. cbn [snd].
    destruct (Setup_flag B env p r p' E) as [Hno Hyes].
    destruct (NeedSps p).
    + specialize (Hyes eq_refl). destruct r as [[]|e].
      * destruct Hyes as (p2 & p3 & _ & _ & _ & ->). done.
      * destruct Hyes as [-> _]. done.
    + destruct (Hno eq_refl) as [_ ->]. done.
Qed.

Lemma flag_history_cons (B : nat) (cl : call) (calls : list call)
  (p : SpProviderFromOts) :
  flag_history B (cl :: calls) p
  = finished_ p :: flag_history B calls (snd (run_call B cl p)).
Proof. reflexivity. Qed.

Lemma flag_history_true (B : nat) (calls : list call) :
  forall p, finished_ p = true ->
  flag_history B calls p = replicate (S (length calls)) true.
Proof.
  induction calls as [|cl calls IH]; intros p Hp.
  - unfold flag_history. cbn. by rewrite Hp.
  - rewrite flag_history_cons, Hp, IH by (by apply run_call_keeps_true).
    done.
Qed.

Lemma flag_history_shape (B : nat) (calls : list call) :
  forall p, exists k m,
    flag_history B calls p = replicate k false ++ replicate m true.
Proof.
  induction calls as [|cl calls IH]; intros p.
  - unfold flag_history. cbn. destruct (finished_ p).
    + by exists 0%nat, 1%nat.
    + by exists 1%nat, 0%nat.
  - destruct (finished_ p) eqn:Hp.
    + exists 0%nat, (S (length (cl :: calls))).
      by rewrite flag_history_true.
    + rewrite flag_history_cons, Hp.
      destruct (IH (snd (run_call B cl p))) as (k & m & ->).
      by exists (S k), m.
Qed.

Lemma transitions_step_shape (k m : nat) :
  (transitions (replicate k false ++ replicate m true) <= 1)%nat.
Proof.
  assert (Htrue : forall m, transitions (replicate m true) = 0%nat).
  { intros m'. induction m' as [|m' IH]; [done|]. cbn. by destruct m'. }
  induction k as [|k IH]; cbn [replicate app].
  - rewrite Htrue. lia.
  - destruct k as [|k]; cbn [replicate app] in *.
    + destruct m as [|m]; cbn [replicate transitions]; [lia|].
      fold (replicate (S m) true). rewrite Htrue. lia.
    + cbn [transitions]. exact IH.
Qed.

(** C4 (as amended): over any sequence of [PreSetup] and [Setup] calls the
    completion flag never goes back from true to false and goes from
    false to true at most once; [PreSetup] never writes it; [Setup]
    returns at once without touching anything when no pairs are needed,
    leaves the flag alone when it throws, and otherwise, after
    [ParseOutputs] has completed, locks the completion mutex, sets
    [finished_] to true, unlocks, and calls [NotifyAll]. *)
Theorem finished_set_by_successful_Setup_only (B : nat)
  (p : SpProviderFromOts) :
  (forall calls,
     (exists k m,
        flag_history B calls p = replicate k false ++ replicate m true) /\
     (transitions (flag_history B calls p) <= 1)%nat) /\
  (forall rnd, finished_ (snd (PreSetup B rnd p)) = finished_ p) /\
  (forall env r p', Setup B env p = (r, p') ->
     (NeedSps p = false -> r = Ok tt /\ p' = p) /\
     (NeedSps p = true ->
      match r with
      | Ok _ =>
          exists p2 p3,
            drive_ots env
              (set_events (events_ p ++ [RecordStart kSpSetup]) p)
            = (Ok tt, p2) /\
            ParseOutputs B p2 = (Ok tt, p3) /\
            finished_ p3 = finished_ p /\
            p' = set_events
                   (events_ p3 ++ [MutexLock; WriteFinished true; MutexUnlock;
                                   NotifyAll; RecordEnd kSpSetup])
                   (set_finished true p3)
      | Throw _ =>
          finished_ p' = finished_ p /\
          exists evs, events_ p' = events_ p ++ evs /\
                      Forall (fun e => e <> WriteFinished true) evs
      end)).
Proof.
  split; [|split].
  - intros calls. destruct (flag_history_shape B calls p) as (k & m & E).
    split; [by exists k, m|]. rewrite E. apply transitions_step_shape.
  - intros rnd. apply PreSetup_keeps_flag.
  - intros env r p' E. by apply Setup_flag.
Qed.

(** A stream of zeros for the random source and an OT layer without
    outputs, for runs in which neither is consulted. *)
Definition no_rnd : width -> nat -> Z := fun _ _ => 0.
Definition no_outputs : ot_outputs := mkOtOutputs (fun _ _ => []) (fun _ _ => []).

(** C4 (as stated) fails when no pairs were requested: [PreSetup] and
    [Setup] both return at once and the flag is false before, between and
    after them, so it makes no transition at all. *)
Lemma finished_makes_no_transition :
  let p := requested 0 2 (pw_all 0) in
  flag_history 1 [CallPreSetup no_rnd; CallSetup no_outputs] p
  = [false; false; false] /\
  transitions (flag_history 1 [CallPreSetup no_rnd; CallSetup no_outputs] p)
  <> 1%nat.
Proof. cbn zeta. split; [reflexivity|]. vm_compute. lia. Qed.

Lemma run_call_no_sps (B : nat) (cl : call) (p : SpProviderFromOts) :
  NeedSps p = false -> run_call B cl p = (Ok tt, p).
Proof.
  intros Hneed. destruct cl; cbn [run_call]; unfold PreSetup, Setup;
    by rewrite Hneed.
Qed.

(** C10: when [NeedSps()] is false, as it is when all five request counts
    are zero, every call of [Setup] (and of [PreSetup]) returns before
    anything is assigned: the provider, and with it [finished_], stays as
    it is over any sequence of calls, the predicate of the completion
    condition stays false, and a thread waiting on it is never released,
    however its checks are interleaved with the calls. *)
Theorem no_sps_never_finished (B : nat) (p : SpProviderFromOts) :
  NeedSps p = false -> finished_ p = false ->
  (forall env, Setup B env p = (Ok tt, p)) /\
  (forall calls, Forall (fun s => s = p) (lifetime B calls p)) /\
  (forall calls, flag_history B calls p = replicate (S (length calls)) false) /\
  condition_function p = false /\
  (forall steps, run_sys B steps (p, Blocked) = (p, Blocked)).
Proof.
  intros Hneed Hfin.
  assert (Hlife : forall calls, Forall (fun s => s = p) (lifetime B calls p)).
  { intros calls. induction calls as [|cl calls IH]; cbn [lifetime].
    - constructor.
    - rewrite (run_call_no_sps B cl p Hneed). cbn [snd]. by constructor. }
  split; [|split; [|split; [|split]]].
  - intros env. unfold Setup. by rewrite Hneed.
  - exact Hlife.
  - intros calls. induction calls as [|cl calls IH].
    + unfold flag_history. cbn. by rewrite Hfin.
    + rewrite flag_history_cons, (run_call_no_sps B cl p Hneed). cbn [snd].
      by rewrite Hfin, IH.
  - exact Hfin.
  - intros steps. induction steps as [|st steps IH]; [done|].
    unfold run_sys in *. cbn [foldl]. destruct st as [cl|].
    + cbn [run_sys_step fst snd]. by rewrite (run_call_no_sps B cl p Hneed).
    + cbn [run_sys_step fst snd wait_step]. unfold condition_function.
      by rewrite Hfin.
Qed.

(** *** The roles of a pair of parties *)

Lemma batches_pos (B n : nat) : (0 < B)%nat -> (0 < n)%nat -> (0 < batches B n)%nat.
Proof.
  intros HB Hn. pose proof (batches_spec B n HB).
  destruct (batches B n); [cbn in *; lia|lia].
Qed.

Lemma NeedSps_some_batch (B P : nat) (counts : per_width Z) :
  (0 < B)%nat -> (forall w, 0 <= pw_get w counts) ->
  NeedSps (requested 0 P counts) = true ->
  (0 < offset (fun w => batches B (n_of counts w)) (length widths))%nat.
Proof.
  intros HB Hnn Hneed.
  assert (Hex : exists w, 0 < pw_get w counts).
  { rewrite NeedSps_total in Hneed. apply Z.ltb_lt in Hneed.
    change (total_requested (requested 0 P counts))
      with (pw_8 counts + pw_16 counts + pw_32 counts + pw_64 counts
            + pw_128 counts) in Hneed.
    destruct (decide (0 < pw_8 counts)); [by exists W8|].
    destruct (decide (0 < pw_16 counts)); [by exists W16|].
    destruct (decide (0 < pw_32 counts)); [by exists W32|].
    destruct (decide (0 < pw_64 counts)); [by exists W64|].
    destruct (decide (0 < pw_128 counts)); [by exists W128|].
    pose proof (Hnn W8). pose proof (Hnn W16). pose proof (Hnn W32).
    pose proof (Hnn W64). pose proof (Hnn W128). cbn [pw_get] in *.
    replace (pw_8 counts + pw_16 counts + pw_32 counts + pw_64 counts
             + pw_128 counts) with 0 in Hneed by lia.
    by vm_compute in Hneed. }
  destruct Hex as [w Hw].
  assert (Hb : (0 < batches B (n_of counts w))%nat)
    by (apply batches_pos; [done|unfold n_of; lia]).
  unfold offset. cbn [length widths take].
  pose proof (sum_list_with_in w (fun w => batches B (n_of counts w)) widths)
    as Hin.
  assert (Hel : w ∈ widths)
    by (apply list_elem_of_lookup; exists (width_index w); apply widths_lookup).
  specialize (Hin Hel). cbn beta in Hin. unfold widths in *. lia.
Qed.

(** C2 (as amended): when pairs are needed, for every pair of parties
    [i < j] it is party [j], the one with the higher id, that registers
    the sender handles of the pair (in its list for peer [i]) and party
    [i], the one with the lower id, that registers the receiver handles
    (in its list for peer [j]), one handle per batch of every width; the
    other two lists of the pair stay empty.  So a party holds sender
    handles only for peers with a lower id and receiver handles only for
    peers with a higher id.  When no pairs are needed, [PreSetup] returns
    at once on every party and no handle is registered at all: every
    sender list and every receiver list is empty. *)
Theorem higher_id_sends_lower_id_receives (B P : nat) (counts : per_width Z)
  (rnd : nat -> width -> nat -> Z) :
  (0 < B)%nat ->
  (forall w, 0 <= pw_get w counts) ->
  (NeedSps (requested 0 P counts) = true ->
   forall i j, (i < j)%nat -> (j < P)%nat ->
   exists ls lr,
     ots_sender_ (party_pre B P counts rnd j) !! i = Some ls /\
     ots_receiver_ (party_pre B P counts rnd i) !! j = Some lr /\
     length ls = length lr /\ (0 < length ls)%nat /\
     length ls = offset (fun w => batches B (n_of counts w)) (length widths) /\
     ots_receiver_ (party_pre B P counts rnd j) !! i = Some [] /\
     ots_sender_ (party_pre B P counts rnd i) !! j = Some []) /\
  (NeedSps (requested 0 P counts) = false ->
   forall p,
     PreSetup B (rnd p) (requested p P counts)
     = (Ok tt, party_pre B P counts rnd p) /\
     forall q, (q < P)%nat ->
       ots_sender_ (party_pre B P counts rnd p) !! q = Some [] /\
       ots_receiver_ (party_pre B P counts rnd p) !! q = Some []).
Proof.
  intros HB Hnn. split.
  - intros Hneed i j Hij Hj.
    destruct (pre_registered B HB P counts rnd Hneed j) as [_ Hregj].
    destruct (pre_registered B HB P counts rnd Hneed i) as [_ Hregi].
    destruct (reg_sender _ _ _ _ Hregj i Hij ltac:(cbn; lia))
      as (ls & Hls & Hlen & _).
    destruct (reg_receiver _ _ _ _ Hregi j ltac:(cbn; lia))
      as (lr & Hlr & Hlenr & _).
    exists ls, lr. split; [done|]. split; [done|].
    split; [exact (eq_trans Hlen (eq_sym Hlenr))|]. split.
    { rewrite Hlen. exact (NeedSps_some_batch B P counts HB Hnn Hneed). }
    split; [exact Hlen|]. split.
    + apply (reg_no_receiver _ _ _ _ Hregj); cbn; lia.
    + apply (reg_no_sender _ _ _ _ Hregi); cbn; lia.
  - intros Hneed p.
    assert (Hneed' : NeedSps (requested p P counts) = false) by exact Hneed.
    assert (Hpre : PreSetup B (rnd p) (requested p P counts)
                   = (Ok tt, requested p P counts))
      by (unfold PreSetup; by rewrite Hneed').
    unfold party_pre, party_init. rewrite Hpre. cbn [snd].
    split; [done|]. intros q Hq.
    cbn [requested ots_sender_ ots_receiver_].
    by rewrite !lookup_replicate_2.
Qed.

(** Two parties and batches of one pair.  With one 8-bit pair requested,
    party 1 sends and party 0 receives.  With [2^63] pairs of 8 bit and
    [2^63] of 16 bit requested, the sum of the counts is 0 in [size_t],
    no pairs are needed and no handle is registered. *)
Lemma higher_id_sends_lower_id_receives_witness :
  (exists ls lr,
     ots_sender_ (party_pre 1 2 (mkPerWidth 1 0 0 0 0) (fun _ => no_rnd) 1)
       !! 0%nat = Some ls /\
     ots_receiver_ (party_pre 1 2 (mkPerWidth 1 0 0 0 0) (fun _ => no_rnd) 0)
       !! 1%nat = Some lr /\
     length ls = length lr /\ (0 < length ls)%nat /\
     length ls
     = offset (fun w => batches 1 (n_of (mkPerWidth 1 0 0 0 0) w))
         (length widths) /\
     ots_receiver_ (party_pre 1 2 (mkPerWidth 1 0 0 0 0) (fun _ => no_rnd) 1)
       !! 0%nat = Some [] /\
     ots_sender_ (party_pre 1 2 (mkPerWidth 1 0 0 0 0) (fun _ => no_rnd) 0)
       !! 1%nat = Some []) /\
  (forall p,
     PreSetup 1 no_rnd (requested p 2 (mkPerWidth (2 ^ 63) (2 ^ 63) 0 0 0))
     = (Ok tt,
        party_pre 1 2 (mkPerWidth (2 ^ 63) (2 ^ 63) 0 0 0) (fun _ => no_rnd) p)
     /\
     forall q, (q < 2)%nat ->
       ots_sender_
         (party_pre 1 2 (mkPerWidth (2 ^ 63) (2 ^ 63) 0 0 0)
            (fun _ => no_rnd) p) !! q = Some [] /\
       ots_receiver_
         (party_pre 1 2 (mkPerWidth (2 ^ 63) (2 ^ 63) 0 0 0)
            (fun _ => no_rnd) p) !! q = Some []).
Proof.
  split.
  - apply (proj1 (higher_id_sends_lower_id_receives 1 2 (mkPerWidth 1 0 0 0 0)
                    (fun _ => no_rnd) ltac:(lia)
                    ltac:(intros w; destruct w; cbn; lia))
             eq_refl 0%nat 1%nat); lia.
  - apply (proj2 (higher_id_sends_lower_id_receives 1 2
                    (mkPerWidth (2 ^ 63) (2 ^ 63) 0 0 0)
                    (fun _ => no_rnd) ltac:(lia)
                    ltac:(intros w; destruct w; cbn; lia))
             eq_refl).
Defined.

(** C2 (as stated) fails: in a run of two parties with one 8-bit pair,
    party 0, the lower id, holds no sender handle for the pair but the
    receiver handle, and party 1 holds the sender handle. *)
Lemma lower_id_party_is_receiver :
  let st := party_pre 1 2 (mkPerWidth 1 0 0 0 0) (fun _ => no_rnd) in
  ots_sender_ (st 0%nat) !! 1%nat = Some [] /\
  length <$> ots_receiver_ (st 0%nat) !! 1%nat = Some 1%nat /\
  length <$> ots_sender_ (st 1%nat) !! 0%nat = Some 1%nat /\
  ots_receiver_ (st 1%nat) !! 0%nat = Some [].
Proof. cbn zeta. repeat split; vm_compute; reflexivity. Qed.

(** What C10 says, for a provider without requests. *)
Lemma no_sps_never_finished_witness :
  let p := requested 0 2 (pw_all 0) in
  (forall env, Setup 1 env p = (Ok tt, p)) /\
  (forall calls, Forall (fun s => s = p) (lifetime 1 calls p)) /\
  (forall calls, flag_history 1 calls p = replicate (S (length calls)) false) /\
  condition_function p = false /\
  (forall steps, run_sys 1 steps (p, Blocked) = (p, Blocked)).
Proof.
  intros p. apply (no_sps_never_finished 1 p); reflexivity.
Defined.

(** *** An OT layer that meets the contract *)

Lemma offset_cover (nb : width -> nat) (h : nat) :
  (h < offset nb (length widths))%nat ->
  exists w, (offset nb (width_index w) <= h
             < offset nb (width_index w) + nb w)%nat.
Proof.
  unfold offset. cbn [length widths take sum_list_with]. intros Hh.
  destruct (decide (h < nb W8)%nat); [exists W8; cbn; lia|].
  destruct (decide (h < nb W8 + nb W16)%nat); [exists W16; cbn; lia|].
  destruct (decide (h < nb W8 + nb W16 + nb W32)%nat);
    [exists W32; cbn; lia|].
  destruct (decide (h < nb W8 + nb W16 + nb W32 + nb W64)%nat);
    [exists W64; cbn; lia|].
  exists W128. cbn. lia.
Qed.

Lemma batch_index_in_range (B n h : nat) :
  (0 < B)%nat -> (h < batches B n)%nat -> (h * B + 0 < n)%nat.
Proof.
  intros HB Hh. pose proof (batches_spec B n HB) as [_ Hub].
  assert (S h * B <= batches B n * B)%nat by (apply Nat.mul_le_mono_r; lia).
  lia.
Qed.

(** The outputs of [acot_sender_outputs] and [acot_receiver_outputs] for a
    pair of handles of one width are related as the contract asks. *)
Lemma acot_outputs_pair (m : nat -> Z) (w : width) (b : nat)
  (v : list BitVector) (v' : list bool) :
  acot_pair (sender_handle w b v)
    (acot_sender_outputs m (sender_handle w b v))
    (receiver_handle w b v')
    (acot_receiver_outputs m (sender_handle w b v) (receiver_handle w b v')).
Proof.
  unfold acot_pair, acot_sender_outputs, acot_receiver_outputs.
  cbn [sender_handle receiver_handle SetInputs SetChoices RegisterSend
       RegisterReceive s_bitlen s_number_of_ots s_inputs r_bitlen r_choices].
  rewrite bit_size_div_8. cbn zeta. intros t inp ch Ht Hinp Hch.
  eexists _, _. split.
  { rewrite list_lookup_fmap, lookup_seq_lt by done. reflexivity. }
  split.
  { rewrite list_lookup_imap, Hch, Hinp. reflexivity. }
  cbn [bv_data]. rewrite !length_to_bytes. split; [done|]. split; [done|].
  change (0 + t)%nat with t.
  rewrite (take_ge (to_bytes (sizeof w) (m t)))
    by (rewrite length_to_bytes; lia).
  rewrite (take_ge (to_bytes (sizeof w) (m t + _)))
    by (rewrite length_to_bytes; lia).
  rewrite !from_to_bytes.
  replace (8 * Z.of_nat (sizeof w)) with (Z.of_nat (bit_size w))
    by (unfold bit_size; lia).
  unfold wrap. by rewrite Zmod_mod, Zplus_mod_idemp_l.
Qed.

(** [acot_env] meets the contract, whatever the masks. *)
Lemma acot_env_meets_contract (B P : nat) (counts : per_width Z)
  (rnd : nat -> width -> nat -> Z) (masks : nat -> nat -> nat -> nat -> Z) :
  (0 < B)%nat ->
  meets_acot_contract P (party_pre B P counts rnd)
    (acot_env (party_pre B P counts rnd) masks).
Proof.
  intros HB p q h ls lr s r Hq Hp Hls Hs Hlr Hr.
  cbn [acot_env sender_outputs receiver_outputs].
  rewrite Hls, Hlr. cbn [mbind option_bind]. rewrite Hs, Hr.
  destruct (NeedSps (party_init P counts 0)) eqn:Hneed.
  - destruct (pre_registered B HB P counts rnd Hneed p) as [_ Hreg].
    destruct (reg_sender _ _ _ _ Hreg q Hq ltac:(cbn; lia))
      as (ls' & Hls' & Hlen & _).
    assert (ls' = ls) as -> by congruence.
    change (length ls
            = offset (fun w => batches B (n_of counts w)) (length widths))
      in Hlen.
    pose proof (lookup_lt_Some _ _ _ Hs) as Hlt. rewrite Hlen in Hlt.
    destruct (offset_cover (fun w => batches B (n_of counts w)) h Hlt)
      as [w [Hlo Hhi]].
    change (off_of B counts w <= h)%nat in Hlo.
    change (h < off_of B counts w + batches B (n_of counts w))%nat in Hhi.
    set (h' := (h - off_of B counts w)%nat).
    assert (Hh' : (h' * B + 0 < n_of counts w)%nat)
      by (apply batch_index_in_range; [done|]; unfold h'; lia).
    assert (Hh : h = (off_of B counts w + h')%nat) by (unfold h'; lia).
    clearbody h'. subst h. clear Hlt Hlo Hhi.
    destruct (sender_handle_at B HB P counts rnd Hneed p q w h' 0 0 Hq Hp HB
                Hh' ltac:(destruct w; cbn; lia))
      as (ls2 & v & Hls2 & Hat & _).
    destruct (receiver_handle_at B HB P counts rnd Hneed p q w h' 0 0 Hq Hp HB
                Hh' ltac:(destruct w; cbn; lia))
      as (lr2 & v' & Hlr2 & Hat' & _).
    assert (ls2 = ls) as -> by congruence.
    assert (lr2 = lr) as -> by congruence.
    rewrite Hat in *. rewrite Hat' in Hr.
    assert (s = sender_handle w (Nat.min B (n_of counts w - h' * B)) v)
      as -> by (destruct (ls !! _); congruence).
    inversion Hr; subst r. apply acot_outputs_pair.
  - destruct (PreSetup_ok B HB (rnd p) (party_init P counts p)) as
      (p' & Hrun & Hsame & _).
    { by repeat split. }
    assert (Hneedp : NeedSps (party_init P counts p) = false) by exact Hneed.
    specialize (Hsame Hneedp). unfold party_pre in Hls. rewrite Hrun in Hls.
    cbn [snd] in Hls. subst p'. cbn in Hls.
    apply lookup_replicate in Hls as [-> _]. done.
Qed.

(** Two parties that ask for one pair of 8 bit and one of 128 bit, with
    batches of one pair, against [acot_env]. *)
Lemma Setup_shares_of_squares_witness :
  let counts := mkPerWidth 1 0 0 0 1 in
  let rnd := fun (p : nat) (_ : width) (i : nat) => Z.of_nat (p + i) + 3 in
  let env := acot_env (party_pre 1 2 counts rnd)
               (fun p q h t => Z.of_nat (p + q + h + t)) in
  NeedSps (requested 0 2 counts) = true /\
  (forall p, (p < 2)%nat ->
     PreSetup 1 (rnd p) (requested p 2 counts)
     = (Ok tt, party_pre 1 2 counts rnd p) /\
     Setup 1 (env p) (party_pre 1 2 counts rnd p)
     = (Ok tt, party_fin 1 2 counts rnd env p)) /\
  (NeedSps (requested 0 2 counts) = true ->
   (forall p, (p < 2)%nat ->
      finished_ (party_fin 1 2 counts rnd env p) = true) /\
   forall w i, Z.of_nat i < pw_get w counts ->
     shares_square 2 (party_fin 1 2 counts rnd env) w i) /\
  ((forall w, 0 <= pw_get w counts) ->
   pw_8 counts + pw_16 counts + pw_32 counts + pw_64 counts + pw_128 counts
     < 2 ^ 64 ->
   (exists w, 0 < pw_get w counts) ->
   NeedSps (requested 0 2 counts) = true) /\
  (NeedSps (requested 0 2 counts) = false ->
   forall p, party_fin 1 2 counts rnd env p = requested p 2 counts).
Proof.
  intros counts rnd env. split; [reflexivity|].
  apply (Setup_shares_of_squares 1 2 counts rnd env).
  - lia.
  - apply acot_env_meets_contract. lia.
Defined.

(** C1 (as stated) fails when the counts wrap: two parties that each ask
    for [2^63] pairs of 8 bit and [2^63] of 16 bit, against an OT layer
    that meets the contract.  The sum of the counts is 0 in [size_t], so
    [PreSetup] and [Setup] return on both parties without generating a
    pair; index 0 is below [n_8], and no party holds a share [a_8[0]]. *)
Lemma wrapped_counts_leave_no_pairs :
  let counts := mkPerWidth (2 ^ 63) (2 ^ 63) 0 0 0 in
  let rnd := fun (p : nat) (_ : width) (i : nat) => Z.of_nat (p + i) + 3 in
  let env := acot_env (party_pre 1 2 counts rnd)
               (fun p q h t => Z.of_nat (p + q + h + t)) in
  meets_acot_contract 2 (party_pre 1 2 counts rnd) env /\
  (forall p, (p < 2)%nat ->
     PreSetup 1 (rnd p) (requested p 2 counts)
     = (Ok tt, party_pre 1 2 counts rnd p) /\
     Setup 1 (env p) (party_pre 1 2 counts rnd p)
     = (Ok tt, party_fin 1 2 counts rnd env p)) /\
  Z.of_nat 0 < pw_get W8 counts /\
  (forall p, a (pw_get W8 (sps_ (party_fin 1 2 counts rnd env p))) = []) /\
  ~ shares_square 2 (party_fin 1 2 counts rnd env) W8 0.
Proof.
  intros counts rnd env.
  assert (Hfin : forall p, party_fin 1 2 counts rnd env p
                           = requested p 2 counts) by done.
  split; [apply acot_env_meets_contract; lia|].
  split; [intros p _; by split|].
  split; [done|]. split; [intros p; by rewrite Hfin|].
  intros (av & cv & Hshares & _).
  destruct (Hshares 0%nat ltac:(lia)) as [Ha _].
  rewrite Hfin in Ha. discriminate Ha.
Qed.

(** One pair of 8 bit with [c = 25], one batch, and the outputs
    [1, ..., 8] on either side. *)
Lemma ParseOutputs_subtracts_and_adds_2m_witness :
  let outs := map (fun t => BitVector_of_T W8 (Z.of_nat t + 1)) (seq 0 8) in
  let hs := [mkOtVectorSender 8 8 [] outs] in
  let hr := [mkOtVectorReceiver 8 8 [] outs] in
  let sps := mkSpVector [5] [25] in
  (exists c',
     ParseHelperSend W8 1 1 (hs, sps) = (Ok tt, ([], mkSpVector [5] c')) /\
     c' !! 0%nat = Some (to_T W8 (25 - 2 * sp_total s_outputs W8 1 hs 0))) /\
  (exists c',
     ParseHelperReceive W8 1 1 (hr, sps) = (Ok tt, ([], mkSpVector [5] c')) /\
     c' !! 0%nat = Some (to_T W8 (25 + 2 * sp_total r_outputs W8 1 hr 0))).
Proof.
  intros outs hs hr sps.
  destruct (ParseOutputs_subtracts_and_adds_2m 1 W8 1 sps ltac:(lia)
              ltac:(cbn; lia)) as (Hs & Hr & _).
  split.
  - destruct (Hs hs) as (c' & Hrun & _ & Hval).
    { intros h k bit Hk Hn Hbit.
      assert (k = 0%nat) as -> by lia. assert (h = 0%nat) as -> by lia.
      exists (mkOtVectorSender 8 8 [] outs),
             (BitVector_of_T W8 (Z.of_nat bit + 1)).
      split; [reflexivity|]. split; [|cbn; lia].
      cbn [s_outputs Nat.mul Nat.add]. unfold outs.
      rewrite list_lookup_fmap, lookup_seq_lt by exact Hbit. reflexivity. }
    exists c'. split; [exact Hrun|]. exact (Hval 0%nat 25 eq_refl).
  - destruct (Hr hr) as (c' & Hrun & _ & Hval).
    { intros h k bit Hk Hn Hbit.
      assert (k = 0%nat) as -> by lia. assert (h = 0%nat) as -> by lia.
      exists (mkOtVectorReceiver 8 8 [] outs),
             (BitVector_of_T W8 (Z.of_nat bit + 1)).
      split; [reflexivity|]. split; [|cbn; lia].
      cbn [r_outputs Nat.mul Nat.add]. unfold outs.
      rewrite list_lookup_fmap, lookup_seq_lt by exact Hbit. reflexivity. }
    exists c'. split; [exact Hrun|]. exact (Hval 0%nat 25 eq_refl).
Defined.

End Sp.

(** ** Sessions of calls on the registry *)

Module CoreCalls.

Section Calls.

Context {Gate Wire Message : Type}.

#[local] Abbreviation state := (Core.Core Gate Wire Message).

(** [const auto &GetInputGates() const { return input_gates_; }] *)
Definition GetInputGates : M state (list (option Gate)) := fun c =>
  (Ok (Core.input_gates_ c), c).

(** A call of a member function of [Core] with its arguments. *)
Inductive core_call : Type :=
| CallNextGateId
| CallNextWireId
| CallNextArithmeticSharingId (num_of_parallel_values : Z)
| CallNextBooleanGMWSharingId (num_of_parallel_values : Z)
| CallRegisterCommunicationHandlers
    (handlers : list (option (Core.CommunicationHandler Message)))
| CallSend (party_id : nat) (message : Message)
| CallRegisterNextGate (gate : option Gate)
| CallRegisterNextInputGate (gate : option Gate)
| CallGetGate (gate_id : nat)
| CallGetInputGates
| CallUnregisterGate (gate_id : nat)
| CallRegisterNextWire (wire : option Wire)
| CallGetWire (wire_id : nat)
| CallUnregisterWire (wire_id : nat)
| CallAddToActiveQueue (gate_id : Z)
| CallGetNextGateFromOnlineQueue
| CallIncrementEvaluatedGatesCounter
| CallGetNumOfEvaluatedGates
| CallGetTotalNumOfGates.

(** What a call hands back. *)
Inductive value : Type :=
| VVoid
| VSize (x : Z)
| VInt64 (x : Z)
| VGate (g : option Gate)
| VGates (gs : list (option Gate))
| VWire (w : option Wire).

Definition returning {A} (tag : A -> value) (m : M state A) : M state value :=
  (let* x := m in ret (tag x))%cxx.

Definition exec (k : core_call) : M state value :=
  match k with
  | CallNextGateId => returning VSize Core.NextGateId
  | CallNextWireId => returning VSize Core.NextWireId
  | CallNextArithmeticSharingId n =>
      returning VSize (Core.NextArithmeticSharingId n)
  | CallNextBooleanGMWSharingId n =>
      returning VSize (Core.NextBooleanGMWSharingId n)
  | CallRegisterCommunicationHandlers hs =>
      returning (fun _ => VVoid) (Core.RegisterCommunicationHandlers hs)
  | CallSend p m => returning (fun _ => VVoid) (Core.Send p m)
  | CallRegisterNextGate g =>
      returning (fun _ => VVoid) (Core.RegisterNextGate g)
  | CallRegisterNextInputGate g =>
      returning (fun _ => VVoid) (Core.RegisterNextInputGate g)
  | CallGetGate i => returning VGate (Core.GetGate i)
  | CallGetInputGates => returning VGates GetInputGates
  | CallUnregisterGate i => returning (fun _ => VVoid) (Core.UnregisterGate i)
  | CallRegisterNextWire w =>
      returning (fun _ => VVoid) (Core.RegisterNextWire w)
  | CallGetWire i => returning VWire (Core.GetWire i)
  | CallUnregisterWire i => returning (fun _ => VVoid) (Core.UnregisterWire i)
  | CallAddToActiveQueue g =>
      returning (fun _ => VVoid) (Core.AddToActiveQueue g)
  | CallGetNextGateFromOnlineQueue =>
      returning VInt64 Core.GetNextGateFromOnlineQueue
  | CallIncrementEvaluatedGatesCounter =>
      returning (fun _ => VVoid) Core.IncrementEvaluatedGatesCounter
  | CallGetNumOfEvaluatedGates => returning VSize Core.GetNumOfEvaluatedGates
  | CallGetTotalNumOfGates => returning VSize Core.GetTotalNumOfGates
  end.

(** A client that makes the calls [ks] one after the other and keeps what
    they return; an exception ends the session. *)
Fixpoint session (ks : list core_call) : M state (list value) :=
  match ks with
  | [] => ret []
  | k :: ks' =>
      (let* v := exec k in
       let* vs := session ks' in
       ret (v :: vs))%cxx
  end.

(** The five counters of the class. *)
Inductive counter : Type :=
| GateIds | WireIds | ArithmeticSharingIds | GmwSharingIds | EvaluatedGates.

Definition read (x : counter) (c : state) : Z :=
  match x with
  | GateIds => Core.global_gate_id_ c
  | WireIds => Core.global_wire_id_ c
  | ArithmeticSharingIds => Core.global_arithmetic_sharing_id_ c
  | GmwSharingIds => Core.global_gmw_sharing_id_ c
  | EvaluatedGates => Core.evaluated_gates c
  end.

(** The counter a call advances, and by how much. *)
Definition advances (k : core_call) : option (counter * Z) :=
  match k with
  | CallNextGateId => Some (GateIds, 1)
  | CallNextWireId => Some (WireIds, 1)
  | CallNextArithmeticSharingId n => Some (ArithmeticSharingIds, n)
  | CallNextBooleanGMWSharingId n => Some (GmwSharingIds, n)
  | CallIncrementEvaluatedGatesCounter => Some (EvaluatedGates, 1)
  | _ => None
  end.

Definition same_counter (x y : counter) : bool :=
  match x, y with
  | GateIds, GateIds | WireIds, WireIds
  | ArithmeticSharingIds, ArithmeticSharingIds
  | GmwSharingIds, GmwSharingIds | EvaluatedGates, EvaluatedGates => true
  | _, _ => false
  end.

Definition advance_of (x : counter) (k : core_call) : Z :=
  match advances k with
  | Some (y, n) => if same_counter y x then n else 0
  | None => 0
  end.

(** The sum of what the calls [ks] add to counter [x]. *)
Definition advanced (x : counter) (ks : list core_call) : Z :=
  Core.sumZ (map (advance_of x) ks).

(** How many of the calls [ks] are [NextGateId()], and how many are
    [IncrementEvaluatedGatesCounter()]. *)
Definition NextGateId_count (ks : list core_call) : nat :=
  length (List.filter (fun k => match k with
                                | CallNextGateId => true
                                | _ => false
                                end) ks).

Definition Increment_count (ks : list core_call) : nat :=
  length (List.filter (fun k => match k with
                                | CallIncrementEvaluatedGatesCounter => true
                                | _ => false
                                end) ks).

(** The calls of [ks] that work on the gate table. *)
Definition gate_op_of (k : core_call) : option (Core.gate_op Gate) :=
  match k with
  | CallRegisterNextGate g => Some (Core.OpRegisterNextGate g)
  | CallRegisterNextInputGate g => Some (Core.OpRegisterNextInputGate g)
  | CallUnregisterGate i => Some (Core.OpUnregisterGate i)
  | _ => None
  end.

Definition gate_ops_of (ks : list core_call) : list (Core.gate_op Gate) :=
  omap gate_op_of ks.

(** The handles passed to [RegisterNextInputGate], in call order. *)
Definition input_handles (ks : list core_call) : list (option Gate) :=
  omap (fun k => match k with
                 | CallRegisterNextInputGate g => Some g
                 | _ => None
                 end) ks.

(** The handles passed to [RegisterNextWire], in call order, and the slots
    named by the [UnregisterWire] calls. *)
Definition registered_wires (ks : list core_call) : list (option Wire) :=
  omap (fun k => match k with
                 | CallRegisterNextWire w => Some w
                 | _ => None
                 end) ks.

Definition unregistered_wires (ks : list core_call) : list nat :=
  omap (fun k => match k with
                 | CallUnregisterWire i => Some i
                 | _ => None
                 end) ks.

(** [k] successive calls of [GetNextGateFromOnlineQueue]. *)
Fixpoint GetNextGateFromOnlineQueue_calls (k : nat) : M state (list Z) :=
  match k with
  | O => ret []
  | S k' =>
      (let* x := Core.GetNextGateFromOnlineQueue in
       let* xs := GetNextGateFromOnlineQueue_calls k' in
       ret (x :: xs))%cxx
  end.

End Calls.

Arguments core_call : clear implicits.
Arguments value : clear implicits.


(** *** Facts about single calls *)

Section CallFacts.

Context {Gate Wire Message : Type}.
Implicit Types c d : Core.Core Gate Wire Message.
Implicit Types k : core_call Gate Wire Message.
Implicit Types ks : list (core_call Gate Wire Message).

Ltac open_call :=
  unfold returning, Core.RegisterNextInputGate in *;
  unfold Core.NextGateId, Core.NextWireId, Core.NextArithmeticSharingId,
    Core.NextBooleanGMWSharingId, Core.RegisterCommunicationHandlers,
    Core.Send, Core.RegisterNextGate, Core.GetGate, GetInputGates,
    Core.UnregisterGate, Core.RegisterNextWire, Core.GetWire,
    Core.UnregisterWire, Core.AddToActiveQueue,
    Core.GetNextGateFromOnlineQueue, Core.IncrementEvaluatedGatesCounter,
    Core.GetNumOfEvaluatedGates, Core.GetTotalNumOfGates in *;
  unfold bind, ret, modify, at_, throw, Core.GatePtr, Core.WirePtr,
    Core.CommunicationHandlerPtr in *.

Ltac split_call :=
  repeat match goal with
         | H : context [match ?x with _ => _ end] |- _ =>
             destruct x eqn:?; simplify_eq
         end;
  simplify_eq.

Ltac run_call := repeat (progress (open_call; split_call)).

Lemma session_cons k ks c vs c' :
  session (k :: ks) c = (Ok vs, c') ->
  exists v c1 vs',
    exec k c = (Ok v, c1) /\ session ks c1 = (Ok vs', c') /\ vs = v :: vs'.
Proof.
  cbn [session]. unfold bind at 1.
  destruct (exec k c) as [[v|e] c1]; [|discriminate].
  unfold bind. destruct (session ks c1) as [[vs'|e] c2] eqn:Es; [|discriminate].
  unfold ret. intros E. inversion E; subst. by exists v, c1, vs'.
Qed.

Lemma exec_Throw_unchanged k c e c' : exec k c = (Throw e, c') -> c' = c.
Proof.
  intros E. destruct k; cbn [exec] in E; run_call; done.
Qed.

Lemma exec_read k c v c' (x : counter) :
  exec k c = (Ok v, c') ->
  read x c' = match advances k with
              | Some (y, n) =>
                  if same_counter y x then size_t_wrap (read x c + n)
                  else read x c
              | None => read x c
              end.
Proof.
  intros E. destruct k; cbn [exec advances] in *; run_call;
    by destruct x.
Qed.

Lemma exec_id k c v c' (x : counter) (n : Z) :
  exec k c = (Ok v, c') -> advances k = Some (x, n) -> x <> EvaluatedGates ->
  v = VSize (read x c).
Proof.
  intros E Hk Hx. destruct k; cbn [exec advances] in *; try discriminate Hk;
    inversion Hk; subst; try done; run_call; done.
Qed.

Lemma exec_gate_tables k c v c' d :
  exec k c = (Ok v, c') ->
  Core.gates_ d = Core.gates_ c ->
  Core.input_gates_ d = Core.input_gates_ c ->
  match gate_op_of k with
  | Some o =>
      exists d', Core.run_gate_op o d = (Ok tt, d') /\
                 Core.gates_ d' = Core.gates_ c' /\
                 Core.input_gates_ d' = Core.input_gates_ c'
  | None =>
      Core.gates_ c' = Core.gates_ c /\
      Core.input_gates_ c' = Core.input_gates_ c
  end.
Proof.
  intros E Hg Hi.
  destruct k; cbn [exec gate_op_of Core.run_gate_op] in *; run_call; try done.
  - eexists. split; [reflexivity|]. cbn. by rewrite Hg.
  - eexists. split; [reflexivity|]. cbn. by rewrite Hg, Hi.
  - rewrite Hg.
    match goal with H : Core.gates_ c !! _ = Some _ |- _ => rewrite H end.
    eexists. split; [reflexivity|]. cbn. by rewrite Hi.
Qed.

Lemma exec_wires k c v c' :
  exec k c = (Ok v, c') ->
  Core.wires_ c' = match k with
                   | CallRegisterNextWire w => Core.wires_ c ++ [w]
                   | CallUnregisterWire i => <[i := None]> (Core.wires_ c)
                   | _ => Core.wires_ c
                   end /\
  match k with
  | CallUnregisterWire i => (i < length (Core.wires_ c))%nat
  | _ => True
  end.
Proof.
  intros E. destruct k; cbn [exec] in *; run_call; try done.
  split; [done|]. by eapply lookup_lt_Some.
Qed.

Lemma exec_input_gates k c v c' :
  exec k c = (Ok v, c') ->
  match k with
  | CallRegisterNextInputGate g =>
      g <> None /\ Core.input_gates_ c' = Core.input_gates_ c ++ [g]
  | _ => Core.input_gates_ c' = Core.input_gates_ c
  end.
Proof.
  intros E. destruct k; cbn [exec] in *; run_call; done.
Qed.

(** *** Facts about sessions *)

Definition wrapped c : Prop := forall x, read x c = size_t_wrap (read x c).

Lemma size_t_wrap_idem (x : Z) : size_t_wrap (size_t_wrap x) = size_t_wrap x.
Proof. apply Core.size_t_wrap_small, Core.size_t_wrap_range. Qed.

Lemma exec_wrapped k c v c' : exec k c = (Ok v, c') -> wrapped c -> wrapped c'.
Proof.
  intros E Hc x. rewrite (exec_read k c v c' x E).
  destruct (advances k) as [[y n]|]; [|apply Hc].
  destruct (same_counter y x); [|apply Hc]. by rewrite size_t_wrap_idem.
Qed.

Lemma advanced_cons (x : counter) k ks :
  advanced x (k :: ks) = advance_of x k + advanced x ks.
Proof. reflexivity. Qed.

Lemma same_counter_refl (x : counter) : same_counter x x = true.
Proof. by destruct x. Qed.

Lemma session_counters ks : forall c0 vs c,
  wrapped c0 ->
  session ks c0 = (Ok vs, c) ->
  length vs = length ks /\
  (forall (j : nat) k (x : counter) (n : Z),
     ks !! j = Some k -> advances k = Some (x, n) -> x <> EvaluatedGates ->
     vs !! j
     = Some (VSize (size_t_wrap (read x c0 + advanced x (take j ks))))) /\
  (forall x, read x c = size_t_wrap (read x c0 + advanced x ks)).
Proof.
  induction ks as [|k ks IH]; intros c0 vs c Hw E.
  - cbn in E. unfold ret in E. inversion E; subst. split; [done|].
    split; [intros j k x n Hj; by destruct j|].
    intros x. unfold advanced; cbn. rewrite Z.add_0_r. apply Hw.
  - apply session_cons in E as (v & c1 & vs' & Ek & Eks & ->).
    destruct (IH c1 vs' c (exec_wrapped _ _ _ _ Ek Hw) Eks)
      as (Hlen & Hvals & Hread).
    assert (Hstep : forall x A,
      size_t_wrap (read x c1 + A)
      = size_t_wrap (read x c0 + (advance_of x k + A))).
    { intros x A. rewrite (exec_read k c0 v c1 x Ek). unfold advance_of.
      destruct (advances k) as [[y n]|]; [|f_equal; lia].
      destruct (same_counter y x); [|f_equal; lia].
      rewrite Core.size_t_wrap_add_l. f_equal. lia. }
    split; [cbn; by rewrite Hlen|]. split.
    + intros [|j] k' x n Hj Hk' Hx.
      * cbn in Hj. inversion Hj; subst k'. cbn [take lookup list_lookup].
        rewrite (exec_id k c0 v c1 x n Ek Hk' Hx). unfold advanced; cbn.
        rewrite Z.add_0_r. f_equal. f_equal. apply Hw.
      * cbn in Hj. cbn [take]. rewrite advanced_cons.
        rewrite <- Hstep. exact (Hvals j k' x n Hj Hk' Hx).
    + intros x. rewrite advanced_cons, <- Hstep. apply Hread.
Qed.

Lemma init_wrapped (id : nat) : wrapped (Core.init (Gate:=Gate) (Wire:=Wire) (Message:=Message) id).
Proof. intros x. by destruct x. Qed.

Lemma session_gate_ops ks : forall c0 d0 vs c,
  Core.gates_ d0 = Core.gates_ c0 ->
  Core.input_gates_ d0 = Core.input_gates_ c0 ->
  session ks c0 = (Ok vs, c) ->
  exists d,
    Core.run_gate_ops (gate_ops_of ks) d0 = (Ok tt, d) /\
    Core.gates_ d = Core.gates_ c /\
    Core.input_gates_ d = Core.input_gates_ c.
Proof.
  induction ks as [|k ks IH]; intros c0 d0 vs c Hg Hi E.
  - cbn in E. unfold ret in E. inversion E; subst. by exists d0.
  - apply session_cons in E as (v & c1 & vs' & Ek & Eks & ->).
    pose proof (exec_gate_tables k c0 v c1 d0 Ek Hg Hi) as Hk.
    unfold gate_ops_of. cbn [omap list_omap]. fold (gate_ops_of ks).
    destruct (gate_op_of k) as [o|].
    + destruct Hk as (d1 & Hrun & Hg1 & Hi1).
      destruct (IH c1 d1 vs' c Hg1 Hi1 Eks) as (d & Hd & ? & ?).
      exists d. split; [|done].
      unfold Core.run_gate_ops in *. cbn [for_each]. unfold bind at 1.
      by rewrite Hrun.
    + destruct Hk as [Hg1 Hi1].
      apply (IH c1 d0 vs' c); [congruence | congruence | done].
Qed.

Lemma run_gate_ops_length (ops : list (Core.gate_op Gate)) : forall c c',
  Core.run_gate_ops ops c = (Ok tt, c') ->
  length (Core.gates_ c')
  = (length (Core.gates_ c) + length (Core.registered ops))%nat.
Proof.
  induction ops as [|o ops IH]; intros c c' E.
  - cbn in E. unfold ret in E. inversion E; subst. cbn. lia.
  - unfold Core.run_gate_ops in *. cbn [for_each] in E.
    unfold bind at 1 in E.
    destruct (Core.run_gate_op o c) as [[[]|e] c1] eqn:Eo; [|discriminate].
    rewrite (IH _ _ E).
    destruct o as [g|g|i]; cbn [Core.run_gate_op Core.registered] in *;
      run_call; cbn; rewrite ?length_app, ?length_insert;
      cbn; lia.
Qed.

Lemma session_input_gates ks : forall c0 vs c,
  session ks c0 = (Ok vs, c) ->
  Core.input_gates_ c = Core.input_gates_ c0 ++ input_handles ks /\
  Forall (fun g => g <> None) (input_handles ks).
Proof.
  induction ks as [|k ks IH]; intros c0 vs c E.
  - cbn in E. unfold ret in E. inversion E; subst. cbn.
    by rewrite app_nil_r.
  - apply session_cons in E as (v & c1 & vs' & Ek & Eks & ->).
    destruct (IH c1 vs' c Eks) as [Hin Hall]. rewrite Hin.
    pose proof (exec_input_gates k c0 v c1 Ek) as Hk.
    destruct k; cbn [input_handles omap list_omap] in *;
      fold (input_handles ks); try (rewrite Hk; done).
    destruct Hk as [Hne ->]. rewrite <- app_assoc. split; [done|].
    by constructor.
Qed.

Lemma input_handles_sublist ks :
  input_handles ks `sublist_of` Core.registered (gate_ops_of ks).
Proof.
  induction ks as [|k ks IH]; [done|].
  destruct k; cbn; try done; fold (input_handles ks) (gate_ops_of ks).
  - by apply sublist_cons.
  - by apply sublist_skip.
Qed.

Lemma session_wires ks : forall c0 vs c,
  session ks c0 = (Ok vs, c) ->
  length (Core.wires_ c)
  = (length (Core.wires_ c0) + length (registered_wires ks))%nat /\
  forall i : nat,
    Core.wires_ c !! i =
      if bool_decide (i ∈ unregistered_wires ks) then Some None
      else (Core.wires_ c0 ++ registered_wires ks) !! i.
Proof.
  induction ks as [|k ks IH]; intros c0 vs c E.
  - cbn in E. unfold ret in E. inversion E; subst. cbn.
    split; [lia|]. intros i. by rewrite app_nil_r.
  - apply session_cons in E as (v & c1 & vs' & Ek & Eks & ->).
    destruct (IH c1 vs' c Eks) as [Hlen Hlook].
    destruct (exec_wires k c0 v c1 Ek) as [Hw Hr].
    rewrite Hlen. unfold Core.WirePtr in *.
    destruct k; cbn [registered_wires unregistered_wires omap list_omap] in *;
      fold (registered_wires ks) (unregistered_wires ks);
      try (rewrite Hw; split; [done|]; intros i; rewrite Hlook, Hw; done).
    + rewrite Hw, length_app. cbn. split; [lia|].
      intros i. rewrite Hlook, Hw. by rewrite <- app_assoc.
    + rewrite Hw, length_insert. split; [done|].
      intros i. rewrite Hlook, Hw.
      destruct (decide (i = wire_id)) as [->|Hne].
      * rewrite (bool_decide_eq_true_2 (wire_id ∈ wire_id :: _))
          by apply list_elem_of_here.
        case_bool_decide; [done|].
        rewrite lookup_app_l by (by rewrite length_insert).
        by apply list_lookup_insert_eq.
      * rewrite (bool_decide_ext (i ∈ wire_id :: unregistered_wires ks)
                   (i ∈ unregistered_wires ks))
          by (rewrite elem_of_cons; tauto).
        case_bool_decide; [done|].
        rewrite <- insert_app_l by done. by apply list_lookup_insert_ne.
Qed.

Lemma advanced_GateIds ks :
  advanced GateIds ks = Z.of_nat (NextGateId_count ks).
Proof.
  unfold advanced, NextGateId_count, Core.sumZ.
  induction ks as [|k ks IH]; [done|].
  cbn [map foldr List.filter]. rewrite IH.
  destruct k; cbn; lia.
Qed.

Lemma advanced_EvaluatedGates ks :
  advanced EvaluatedGates ks = Z.of_nat (Increment_count ks).
Proof.
  unfold advanced, Increment_count, Core.sumZ.
  induction ks as [|k ks IH]; [done|].
  cbn [map foldr List.filter]. rewrite IH.
  destruct k; cbn; lia.
Qed.

Lemma session_from_init_read (id : nat) ks vs c (x : counter) :
  session ks (Core.init id) = (Ok vs, c) ->
  read x c = size_t_wrap (advanced x ks).
Proof.
  intros E.
  destruct (session_counters ks _ vs c (init_wrapped id) E) as (_ & _ & Hread).
  rewrite Hread. by destruct x.
Qed.

Lemma session_gates_length (id : nat) ks vs c :
  session ks (Core.init id) = (Ok vs, c) ->
  length (Core.gates_ c) = length (Core.registered (gate_ops_of ks)).
Proof.
  intros E.
  destruct (session_gate_ops ks _ (Core.init id) vs c eq_refl eq_refl E)
    as (d & Hd & Hg & _).
  rewrite <- Hg, (run_gate_ops_length _ _ _ Hd). done.
Qed.

(** X1: every id-allocating call returns the sum, modulo [2^64], of what the
    earlier calls of the session added to its own counter: the four
    counters do not interfere with each other, and no other member
    function touches them. *)
Theorem ids_sum_their_own_increments (id : nat) ks vs c :
  session ks (Core.init id) = (Ok vs, c) ->
  forall (j : nat) k (x : counter) (n : Z),
    ks !! j = Some k -> advances k = Some (x, n) -> x <> EvaluatedGates ->
    vs !! j = Some (VSize (size_t_wrap (advanced x (take j ks)))).
Proof.
  intros E j k x n Hj Hk Hx.
  destruct (session_counters ks _ vs c (init_wrapped id) E) as (_ & Hvals & _).
  rewrite (Hvals j k x n Hj Hk Hx). by destruct x.
Qed.

(** X2: [GetTotalNumOfGates()] is the number of [NextGateId()] calls made so
    far and [GetNumOfEvaluatedGates()] the number of
    [IncrementEvaluatedGatesCounter()] calls, both modulo [2^64]; the
    number of slots of the gate table is the number of registering calls,
    whatever [GetTotalNumOfGates()] says. *)
Theorem counter_getters_count_calls (id : nat) ks vs c :
  session ks (Core.init id) = (Ok vs, c) ->
  Core.GetTotalNumOfGates c
  = (Ok (size_t_wrap (Z.of_nat (NextGateId_count ks))), c) /\
  Core.GetNumOfEvaluatedGates c
  = (Ok (size_t_wrap (Z.of_nat (Increment_count ks))), c) /\
  length (Core.gates_ c) = length (Core.registered (gate_ops_of ks)).
Proof.
  intros E. unfold Core.GetTotalNumOfGates, Core.GetNumOfEvaluatedGates.
  pose proof (session_from_init_read id ks vs c GateIds E) as Hg.
  pose proof (session_from_init_read id ks vs c EvaluatedGates E) as He.
  cbn [read] in Hg, He.
  rewrite Hg, He, advanced_GateIds, advanced_EvaluatedGates.
  split; [done|]. split; [done|]. by apply (session_gates_length id ks vs).
Qed.

(** X3: after any session the gate table has one slot per registering call:
    [GetGate(i)] and [UnregisterGate(i)] succeed for the slots below that
    number, and [UnregisterGate(i)] leaves a null handle in slot [i]; from
    that number on both throw [out_of_range] and change nothing. *)
Theorem GetGate_in_range_iff_registered (id : nat) ks vs c :
  session ks (Core.init id) = (Ok vs, c) ->
  (forall i : nat,
     (i < length (Core.registered (gate_ops_of ks)))%nat ->
     (exists g, Core.GetGate i c = (Ok g, c)) /\
     exists c', Core.UnregisterGate i c = (Ok tt, c') /\
                Core.GetGate i c' = (Ok None, c')) /\
  (forall i : nat,
     (length (Core.registered (gate_ops_of ks)) <= i)%nat ->
     Core.GetGate i c = (Throw out_of_range, c) /\
     Core.UnregisterGate i c = (Throw out_of_range, c)).
Proof.
  intros E. rewrite <- (session_gates_length id ks vs c E).
  unfold Core.GetGate, Core.UnregisterGate, at_, ret, throw, Core.GatePtr.
  split; intros i Hi; cbn beta.
  - destruct (lookup_lt_is_Some_2 (Core.gates_ c) i Hi) as [g Hg].
    unfold Core.GatePtr in *.
    rewrite Hg. split; [by exists g|].
    eexists. split; [reflexivity|]. cbn [Core.gates_ Core.set_gates].
    by rewrite list_lookup_insert_eq.
  - pose proof (lookup_ge_None_2 (Core.gates_ c) i Hi) as Hg.
    unfold Core.GatePtr in *. by rewrite Hg.
Qed.

(** X4: [GetInputGates()] returns the handles that were passed to
    [RegisterNextInputGate], in call order and as often as they were
    passed; each of them was registered in the gate table as well, in
    the same order, and [UnregisterGate] takes none of them away: it
    tombstones the slot of the gate table and leaves [input_gates_]
    alone. *)
Theorem GetInputGates_in_registration_order (id : nat) ks vs c :
  session ks (Core.init id) = (Ok vs, c) ->
  GetInputGates c = (Ok (input_handles ks), c) /\
  input_handles ks `sublist_of` Core.registered (gate_ops_of ks) /\
  forall i c',
    Core.UnregisterGate i c = (Ok tt, c') ->
    GetInputGates c' = (Ok (input_handles ks), c').
Proof.
  intros E. destruct (session_input_gates ks _ vs c E) as [Hin Hall].
  unfold GetInputGates. rewrite Hin. cbn [Core.input_gates_ Core.init app].
  split; [done|]. split; [apply input_handles_sublist|].
  intros i c' Hun. unfold Core.UnregisterGate in Hun.
  destruct (_ !! i) as [g|] in Hun; inversion Hun; subst.
  cbn [Core.input_gates_ Core.set_gates]. by rewrite Hin.
Qed.

(** X5: after any session, [GetWire(i)] returns the handle of the [i]-th
    [RegisterNextWire] call, or the null handle once [UnregisterWire(i)]
    was called, and throws [out_of_range] if fewer wires were registered;
    [RegisterNextWire] accepts any handle, null included, and makes it
    readable in the next slot. *)
Theorem GetWire_registered_or_tombstone (id : nat) ks vs c :
  session ks (Core.init id) = (Ok vs, c) ->
  (forall i : nat,
     Core.GetWire i c =
       match registered_wires ks !! i with
       | Some w =>
           (Ok (if bool_decide (i ∈ unregistered_wires ks) then None else w), c)
       | None => (Throw out_of_range, c)
       end) /\
  (forall w, exists c',
     Core.RegisterNextWire w c = (Ok tt, c') /\
     Core.GetWire (length (registered_wires ks)) c' = (Ok w, c')).
Proof.
  intros E. destruct (session_wires ks _ vs c E) as [Hlen Hlook].
  cbn [Core.wires_ Core.init app length Nat.add] in Hlen, Hlook.
  unfold Core.GetWire, Core.RegisterNextWire, at_, ret, throw, modify,
    Core.WirePtr in *.
  split.
  - intros i. rewrite Hlook.
    destruct (registered_wires ks !! i) as [w|] eqn:Hi.
    + by case_bool_decide.
    + case_bool_decide as Hin; [|done].
      apply lookup_ge_None_1 in Hi.
      pose proof (Hlook i) as Hnone.
      rewrite bool_decide_eq_true_2 in Hnone by done.
      apply lookup_lt_Some in Hnone. rewrite Hlen in Hnone. lia.
  - intros w. eexists. split; [reflexivity|].
    cbn [Core.wires_ Core.set_wires]. rewrite <- Hlen.
    by rewrite list_lookup_middle.
Qed.

(** *** The queue, the transport and failing calls *)

Lemma AddToActiveQueue_all (gs : list Z) : forall c,
  for_each gs Core.AddToActiveQueue c
  = (Ok tt, Core.set_active_gates (Core.active_gates_ c ++ gs) c).
Proof.
  induction gs as [|g gs IH]; intros c.
  - cbn. unfold ret. rewrite app_nil_r. by destruct c.
  - cbn [for_each]. unfold bind at 1, Core.AddToActiveQueue at 1, modify.
    rewrite IH. cbn. by rewrite <- app_assoc.
Qed.

Lemma GetNextGateFromOnlineQueue_drains (q : list Z) : forall c,
  Core.active_gates_ c = q ->
  Forall (fun g => 0 <= g < 2 ^ 64 - 1) q ->
  GetNextGateFromOnlineQueue_calls (length q) c
  = (Ok (map Core.to_int64 q), Core.set_active_gates [] c).
Proof.
  induction q as [|g q IH]; intros c Hq Hall.
  - cbn. unfold ret. f_equal. destruct c; cbn in *. by subst.
  - inversion Hall as [|? ? Hg Hall']; subst.
    cbn [length GetNextGateFromOnlineQueue_calls].
    unfold bind at 1, Core.GetNextGateFromOnlineQueue at 1. rewrite Hq.
    rewrite decide_True by lia. unfold bind at 1.
    rewrite (IH (Core.set_active_gates q c)); [|done|done]. done.
Qed.

(** X6: run by one thread, the active queue is first in, first out: after
    [AddToActiveQueue(g)] for every [g] of [gs], as many calls of
    [GetNextGateFromOnlineQueue] return what was queued before and then
    [gs], in that order and cast to [int64_t], the queue is empty again
    and the next call returns [-1]. *)
Theorem active_queue_is_fifo c (gs : list Z) :
  Forall (fun g => 0 <= g < 2 ^ 64 - 1) (Core.active_gates_ c ++ gs) ->
  exists c1 c2,
    for_each gs Core.AddToActiveQueue c = (Ok tt, c1) /\
    GetNextGateFromOnlineQueue_calls (length (Core.active_gates_ c ++ gs)) c1
    = (Ok (map Core.to_int64 (Core.active_gates_ c ++ gs)), c2) /\
    Core.active_gates_ c2 = [] /\
    Core.GetNextGateFromOnlineQueue c2 = (Ok (-1), c2).
Proof.
  intros Hall. eexists _, _. split; [apply AddToActiveQueue_all|].
  split; [by apply GetNextGateFromOnlineQueue_drains|]. done.
Qed.

(** X7: [GetNextGateFromOnlineQueue] on a queue of ids below [SIZE_MAX],
    the value that the assertion excludes: the call returns, and it
    returns [-1] exactly if the queue is empty, changing nothing then;
    any other value, cast back to [size_t], is the id that was at the
    front, which is removed and nothing else; ids from [2^63] on come
    back negative.  So on such a queue the sentinel is never the image of
    an id. *)
Theorem GetNextGateFromOnlineQueue_sentinel c :
  Forall (fun g => 0 <= g < 2 ^ 64 - 1) (Core.active_gates_ c) ->
  exists v c',
    Core.GetNextGateFromOnlineQueue c = (Ok v, c') /\
    - 2 ^ 63 <= v < 2 ^ 63 /\
    (v = -1 <-> Core.active_gates_ c = []) /\
    (v = -1 -> c' = c) /\
    (v <> -1 ->
     Core.active_gates_ c = size_t_wrap v :: Core.active_gates_ c' /\
     c' = Core.set_active_gates (tail (Core.active_gates_ c)) c /\
     (v < 0 <-> 2 ^ 63 <= size_t_wrap v)).
Proof.
  intros Hall. unfold Core.GetNextGateFromOnlineQueue.
  destruct (Core.active_gates_ c) as [|g q] eqn:Hq.
  - eexists _, _. split; [reflexivity|].
    split; [lia|]. split; [done|]. split; [done|]. done.
  - inversion Hall as [|? ? Hg _]; subst.
    rewrite decide_True by lia. eexists _, _. split; [reflexivity|].
    unfold Core.to_int64.
    assert (Hwrap : forall v, v = g \/ v = g - 2 ^ 64 -> size_t_wrap v = g).
    { intros v [->| ->]; unfold size_t_wrap, size_t_bits.
      - apply Z.mod_small. lia.
      - replace (g - 2 ^ 64) with (g + (-1) * 2 ^ 64) by lia.
        rewrite Z_mod_plus_full. apply Z.mod_small. lia. }
    cbn [Core.active_gates_ Core.set_active_gates tail].
    destruct (Z.ltb_spec g (2 ^ 63)).
    + split; [lia|]. split; [split; [lia|done]|]. split; [lia|].
      intros _. rewrite Hwrap by auto. split; [done|]. split; [done|lia].
    + split; [lia|]. split; [split; [lia|done]|]. split; [lia|].
      intros _. rewrite Hwrap by auto. split; [done|]. split; [done|lia].
Qed.

(** X9: a call that throws an exception leaves the registry as it was: a
    session that ends in an exception leaves the state that the calls
    before the failing one had built. *)
Theorem failing_call_changes_nothing ks : forall c (e : exn) c',
  session ks c = (Throw e, c') ->
  e <> undefined_behaviour ->
  exists ks1 k ks2 vs,
    ks = ks1 ++ k :: ks2 /\
    session ks1 c = (Ok vs, c') /\
    exec k c' = (Throw e, c').
Proof.
  induction ks as [|k ks IH]; intros c e c' E He.
  - discriminate E.
  - cbn [session] in E. unfold bind at 1 in E.
    destruct (exec k c) as [[v|e1] c1] eqn:Ek.
    + unfold bind in E.
      destruct (session ks c1) as [[vs|e2] c2] eqn:Eks; [discriminate|].
      inversion E; subst.
      destruct (IH c1 e c' Eks He) as (ks1 & k' & ks2 & vs & -> & Hrun & Hk).
      exists (k :: ks1), k', ks2, (v :: vs). split; [done|]. split; [|done].
      cbn [session]. unfold bind at 1. rewrite Ek. unfold bind.
      by rewrite Hrun.
    + inversion E; subst.
      pose proof (exec_Throw_unchanged _ _ _ _ Ek) as ->.
      by exists [], k, ks, [].
Qed.

End CallFacts.

(** *** A session and its outcomes *)

(** Two gate ids, an input gate and a gate registered and the first one
    unregistered again, three blocks of sharing ids, a null and a live
    wire of which the live one is unregistered, and one evaluated gate. *)
Definition example_session : list (core_call nat nat Z) :=
  [CallNextGateId; CallRegisterNextInputGate (Some 7%nat);
   CallNextArithmeticSharingId 4; CallNextGateId;
   CallRegisterNextGate (Some 9%nat); CallNextArithmeticSharingId 2;
   CallUnregisterGate 0; CallRegisterNextWire None;
   CallRegisterNextWire (Some 5%nat); CallUnregisterWire 1;
   CallIncrementEvaluatedGatesCounter; CallNextArithmeticSharingId 1].

(** What the calls of [example_session] return, and the registry they
    leave. *)
Definition example_values : list (value nat nat) :=
  [VSize 0; VVoid; VSize 0; VSize 1; VVoid; VSize 4; VVoid; VVoid; VVoid;
   VVoid; VVoid; VSize 6].

Definition example_state : Core.Core nat nat Z :=
  {| Core.my_id := 0;
     Core.global_gate_id_ := 2;
     Core.global_wire_id_ := 0;
     Core.global_arithmetic_sharing_id_ := 7;
     Core.global_gmw_sharing_id_ := 0;
     Core.evaluated_gates := 1;
     Core.active_gates_ := [];
     Core.input_gates_ := [Some 7%nat];
     Core.gates_ := [None; Some 9%nat];
     Core.wires_ := [None; None];
     Core.communication_handlers_ := [] |}.

Lemma ids_sum_their_own_increments_witness :
  session example_session (Core.init 0) = (Ok example_values, example_state) /\
  example_values !! 11%nat = Some (VSize 6).
Proof.
  split; [vm_compute; reflexivity|].
  apply (ids_sum_their_own_increments 0 example_session example_values
           example_state ltac:(vm_compute; reflexivity) 11%nat
           (CallNextArithmeticSharingId 1) ArithmeticSharingIds 1);
    [reflexivity | reflexivity | discriminate].
Defined.

Lemma counter_getters_count_calls_witness :
  session example_session (Core.init 0) = (Ok example_values, example_state) /\
  Core.GetTotalNumOfGates example_state = (Ok 2, example_state) /\
  Core.GetNumOfEvaluatedGates example_state = (Ok 1, example_state) /\
  length (Core.gates_ example_state) = 2%nat.
Proof.
  split; [vm_compute; reflexivity|].
  apply (counter_getters_count_calls 0 example_session example_values).
  vm_compute. reflexivity.
Defined.

Lemma GetGate_in_range_iff_registered_witness :
  session example_session (Core.init 0) = (Ok example_values, example_state) /\
  (forall i : nat,
     (i < 2)%nat ->
     (exists g, Core.GetGate i example_state = (Ok g, example_state)) /\
     exists c', Core.UnregisterGate i example_state = (Ok tt, c') /\
                Core.GetGate i c' = (Ok None, c')) /\
  (forall i : nat,
     (2 <= i)%nat ->
     Core.GetGate i example_state = (Throw out_of_range, example_state) /\
     Core.UnregisterGate i example_state
     = (Throw out_of_range, example_state)).
Proof.
  split; [vm_compute; reflexivity|].
  apply (GetGate_in_range_iff_registered 0 example_session example_values).
  vm_compute. reflexivity.
Defined.

Lemma GetInputGates_in_registration_order_witness :
  session example_session (Core.init 0) = (Ok example_values, example_state) /\
  GetInputGates example_state = (Ok [Some 7%nat], example_state) /\
  [Some 7%nat] `sublist_of` [Some 7%nat; Some 9%nat] /\
  forall i c',
    Core.UnregisterGate i example_state = (Ok tt, c') ->
    GetInputGates c' = (Ok [Some 7%nat], c').
Proof.
  split; [vm_compute; reflexivity|].
  apply (GetInputGates_in_registration_order 0 example_session example_values).
  vm_compute. reflexivity.
Defined.

Lemma GetWire_registered_or_tombstone_witness :
  session example_session (Core.init 0) = (Ok example_values, example_state) /\
  (forall i : nat,
     Core.GetWire i example_state =
       match registered_wires example_session !! i with
       | Some w =>
           (Ok (if bool_decide (i ∈ unregistered_wires example_session)
                then None else w), example_state)
       | None => (Throw out_of_range, example_state)
       end) /\
  (forall w, exists c',
     Core.RegisterNextWire w example_state = (Ok tt, c') /\
     Core.GetWire 2 c' = (Ok w, c')).
Proof.
  split; [vm_compute; reflexivity|].
  apply (GetWire_registered_or_tombstone 0 example_session example_values).
  vm_compute. reflexivity.
Defined.

Lemma active_queue_is_fifo_witness :
  exists c1 c2,
    for_each [3; 2 ^ 63; 5] Core.AddToActiveQueue
      (Core.init (Gate:=nat) (Wire:=nat) (Message:=Z) 0) = (Ok tt, c1) /\
    GetNextGateFromOnlineQueue_calls 3 c1 = (Ok [3; - 2 ^ 63; 5], c2) /\
    Core.active_gates_ c2 = [] /\
    Core.GetNextGateFromOnlineQueue c2 = (Ok (-1), c2).
Proof.
  apply (active_queue_is_fifo
           (Core.init (Gate:=nat) (Wire:=nat) (Message:=Z) 0) [3; 2 ^ 63; 5]).
  cbn. repeat constructor; lia.
Defined.

Lemma GetNextGateFromOnlineQueue_sentinel_witness :
  let c := Core.set_active_gates [2 ^ 64 - 2; 1]
             (Core.init (Gate:=nat) (Wire:=nat) (Message:=Z) 0) in
  Core.GetNextGateFromOnlineQueue c = (Ok (-2), Core.set_active_gates [1] c) /\
  exists v c',
    Core.GetNextGateFromOnlineQueue c = (Ok v, c') /\
    - 2 ^ 63 <= v < 2 ^ 63 /\
    (v = -1 <-> Core.active_gates_ c = []) /\
    (v = -1 -> c' = c) /\
    (v <> -1 ->
     Core.active_gates_ c = size_t_wrap v :: Core.active_gates_ c' /\
     c' = Core.set_active_gates (tail (Core.active_gates_ c)) c /\
     (v < 0 <-> 2 ^ 63 <= size_t_wrap v)).
Proof.
  intros c. split; [vm_compute; reflexivity|].
  apply (GetNextGateFromOnlineQueue_sentinel c).
  cbn. repeat constructor; lia.
Defined.

Lemma failing_call_changes_nothing_witness :
  let ks : list (core_call nat nat Z) :=
    [CallNextGateId; CallGetGate 0; CallNextGateId] in
  exists c',
    session ks (Core.init 0) = (Throw out_of_range, c') /\
    exists ks1 k ks2 vs,
      ks = ks1 ++ k :: ks2 /\
      session ks1 (Core.init 0) = (Ok vs, c') /\
      exec k c' = (Throw out_of_range, c').
Proof.
  intros ks. eexists. split; [reflexivity|].
  exact (failing_call_changes_nothing ks (Core.init 0) out_of_range _ eq_refl
           ltac:(discriminate)).
Defined.

End CoreCalls.

(** ** The mutex of the active queue *)

Module CoreLock.

(** The program points at which a thread holds [active_queue_mutex_]:
    between the construction of the [scoped_lock] and the end of its
    scope. *)
Definition holds_lock (p : Core.pc) : bool :=
  match p with
  | Core.AddPush _ | Core.AddUnlock _ | Core.PopPop _ | Core.PopUnlock _ =>
      true
  | _ => false
  end.

(** Every thread at such a point is the owner of the mutex. *)
Definition lock_respected (s : Core.shared) : Prop :=
  forall tid p,
    Core.sh_threads s !! tid = Some p -> holds_lock p = true ->
    Core.sh_mutex s = Some tid.

(** The threads are about to call [AddToActiveQueue] or
    [GetNextGateFromOnlineQueue]. *)
Definition at_entry (p : Core.pc) : Prop :=
  match p with
  | Core.AddLock _ | Core.PopCheck => True
  | _ => False
  end.

Lemma thread_step_lock (tid : nat) (q q' : list Z) (m m' : option nat)
  (p p' : Core.pc) :
  Core.thread_step tid q m p = Some (q', m', p') ->
  (holds_lock p = true -> m = Some tid) ->
  (holds_lock p' = true -> m' = Some tid) /\
  (m' = m \/ (m = None /\ m' = Some tid) \/ (m = Some tid /\ m' = None)) /\
  (q' <> q -> holds_lock p = true).
Proof.
  intros E Hp. destruct p; cbn in E;
    repeat match type of E with
           | context [match ?x with _ => _ end] => destruct x eqn:?
           end;
    inversion E; subst; cbn in *;
    (split; [|split]); try done; try (intros _; by apply Hp);
    try (by left); try (right; left; done);
    try (right; right; split; [by apply Hp|done]).
Qed.

Lemma step_lock (tid : nat) (s s' : Core.shared) :
  Core.step tid s = Some s' -> lock_respected s -> lock_respected s'.
Proof.
  unfold Core.step. intros E Hs.
  destruct (Core.sh_threads s !! tid) as [p|] eqn:Hp; [|discriminate].
  destruct (Core.thread_step tid _ _ p) as [[[q' m'] p']|] eqn:Et;
    [|discriminate].
  inversion E; subst. clear E.
  destruct (thread_step_lock _ _ _ _ _ _ _ Et (Hs tid p Hp))
    as (Hp' & Hm & _).
  intros tid' p0 Hlook Hcrit. cbn [Core.sh_threads Core.sh_mutex] in *.
  destruct (decide (tid' = tid)) as [->|Hne].
  - rewrite list_lookup_insert_eq in Hlook by (by eapply lookup_lt_Some).
    inversion Hlook; subst. by apply Hp'.
  - rewrite list_lookup_insert_ne in Hlook by done.
    pose proof (Hs tid' p0 Hlook Hcrit) as Hown.
    destruct Hm as [->|[[Hn _]|[Hso _]]]; [done| |]; congruence.
Qed.

Lemma run_lock (schedule : list nat) : forall s s',
  Core.run schedule s = Some s' -> lock_respected s -> lock_respected s'.
Proof.
  induction schedule as [|tid schedule IH]; intros s s' E Hs; cbn in E.
  - by inversion E; subst.
  - destruct (Core.step tid s) as [s1|] eqn:E1; [|discriminate].
    eapply IH; [exact E|]. by eapply step_lock.
Qed.

(** X10: under every interleaving of threads that call [AddToActiveQueue] and
    [GetNextGateFromOnlineQueue], the [push] and the [pop] are done under
    the mutex: two threads are never both between lock and unlock, and a
    step that changes the queue is taken by the owner of the mutex. *)
Theorem queue_writes_are_mutually_exclusive (threads : list Core.pc)
  (q : list Z) (schedule : list nat) (s : Core.shared) :
  Forall at_entry threads ->
  Core.run schedule (Core.mkShared q None threads) = Some s ->
  (forall tid1 tid2 p1 p2,
     Core.sh_threads s !! tid1 = Some p1 ->
     Core.sh_threads s !! tid2 = Some p2 ->
     holds_lock p1 = true -> holds_lock p2 = true -> tid1 = tid2) /\
  (forall tid s',
     Core.step tid s = Some s' ->
     Core.sh_active_gates s' <> Core.sh_active_gates s ->
     Core.sh_mutex s = Some tid).
Proof.
  intros Hentry Hrun.
  assert (Hinv : lock_respected s).
  { apply (run_lock _ _ _ Hrun). intros tid p Hp Hcrit. cbn in Hp.
    pose proof (Forall_lookup_1 _ _ _ _ Hentry Hp) as He.
    by destruct p. }
  split.
  - intros tid1 tid2 p1 p2 H1 H2 Hc1 Hc2.
    pose proof (Hinv tid1 p1 H1 Hc1) as E1.
    pose proof (Hinv tid2 p2 H2 Hc2) as E2. congruence.
  - intros tid s' Hstep Hq. unfold Core.step in Hstep.
    destruct (Core.sh_threads s !! tid) as [p|] eqn:Hp; [|discriminate].
    destruct (Core.thread_step tid _ _ p) as [[[q' m'] p']|] eqn:Et;
      [|discriminate].
    inversion Hstep; subst. cbn in Hq.
    destruct (thread_step_lock _ _ _ _ _ _ _ Et (Hinv tid p Hp))
      as (_ & _ & Hw).
    exact (Hinv tid p Hp (Hw Hq)).
Qed.

(** A producer in the middle of its update.  The first producer has
    pushed 0 and returned; the second one holds the mutex and is about
    to push 1; the first consumer has read the front and waits for the
    mutex; the second consumer is about to check its assertion. *)
Definition producer_in_update : list nat :=
  [0; 0; 0; 1; 2; 2; 2; 3; 3]%nat.

Definition while_producer_in_update : Core.shared :=
  Core.mkShared [0] (Some 1%nat)
    [Core.Returned None; Core.AddPush 1; Core.PopLock 0; Core.PopAssert 0].

(** In that state one thread is between lock and unlock, its next step
    changes the queue, the consumer that wants the mutex cannot move,
    and the theorem applies. *)
Lemma queue_writes_are_mutually_exclusive_witness :
  Core.run producer_in_update Core.two_by_two
  = Some while_producer_in_update /\
  (exists p, Core.sh_threads while_producer_in_update !! 1%nat = Some p /\
             holds_lock p = true) /\
  (exists s', Core.step 1 while_producer_in_update = Some s' /\
              Core.sh_active_gates s'
              <> Core.sh_active_gates while_producer_in_update) /\
  Core.step 2 while_producer_in_update = None /\
  (forall tid1 tid2 p1 p2,
     Core.sh_threads while_producer_in_update !! tid1 = Some p1 ->
     Core.sh_threads while_producer_in_update !! tid2 = Some p2 ->
     holds_lock p1 = true -> holds_lock p2 = true -> tid1 = tid2) /\
  (forall tid s',
     Core.step tid while_producer_in_update = Some s' ->
     Core.sh_active_gates s'
     <> Core.sh_active_gates while_producer_in_update ->
     Core.sh_mutex while_producer_in_update = Some tid).
Proof.
  split; [vm_compute; reflexivity|].
  split; [exists (Core.AddPush 1); split; reflexivity|].
  split; [eexists; split; [vm_compute; reflexivity|cbn; discriminate]|].
  split; [vm_compute; reflexivity|].
  apply (queue_writes_are_mutually_exclusive
           [Core.AddLock 0; Core.AddLock 1; Core.PopCheck; Core.PopCheck]
           [] producer_in_update).
  - repeat constructor.
  - vm_compute. reflexivity.
Defined.

End CoreLock.

(** ** The helpers of the square-pair provider, one by one *)

Module SpHelpers.

Import Sp.

(** [batch_loop] with the loop body of [RegisterHelperSend] and of
    [RegisterHelperReceptor], for any number of iterations. *)
Definition register_loop {H E} (mk : nat -> list E -> H)
  (elem : Z -> nat -> E) (w : width) (fuel max_batch_size : nat)
  (sps : SpVector) (number_of_sps : nat) : M (list H) unit :=
  batch_loop fuel max_batch_size number_of_sps 0
    (fun sp_id batch_size ots =>
       match
         for_k_bit w batch_size (fun k bit_i =>
           (let* a_k := at_ (a sps) (sp_id + k) in
            modify (fun v => v ++ [elem a_k bit_i]))%cxx) []
       with
       | (Ok _, v) => (Ok tt, ots ++ [mk batch_size v])
       | (Throw e, _) => (Throw e, ots)
       end).

(** The value that the choice bits [k * bit_size ..] of a receiver handle
    spell, least significant bit first. *)
Definition choices_value (w : width) (choices : list bool) (k : nat) : Z :=
  sum_to (bit_size w) (fun bit =>
    match choices !! (k * bit_size w + bit)%nat with
    | Some true => 2 ^ Z.of_nat bit
    | _ => 0
    end).

Lemma register_loop_send (w : width) (B : nat) (sps : SpVector) (n : nat) :
  RegisterHelperSend w B sps n
  = register_loop (sender_handle w) (sender_input w) w n B sps n.
Proof. reflexivity. Qed.

Lemma register_loop_receive (w : width) (B : nat) (sps : SpVector) (n : nat) :
  RegisterHelperReceptor w B sps n
  = register_loop (receiver_handle w) receiver_choice w n B sps n.
Proof. reflexivity. Qed.

Lemma register_loop_stuck {H E} (mk : nat -> list E -> H)
  (elem : Z -> nat -> E) (w : width) (sps : SpVector) (n : nat) :
  (0 < n)%nat ->
  forall fuel ots,
    register_loop mk elem w fuel 0 sps n ots
    = (Throw diverges, ots ++ replicate fuel (mk 0%nat [])).
Proof.
  intros Hn. unfold register_loop.
  induction fuel as [|fuel IH]; intros ots.
  - cbn [batch_loop]. rewrite decide_True by done. cbn.
    by rewrite app_nil_r.
  - cbn [batch_loop]. rewrite decide_True by done.
    cbn [Nat.min]. unfold bind at 1. cbn [for_k_bit seq for_each].
    unfold ret at 1. rewrite Nat.add_0_r, IH.
    cbn [replicate]. by rewrite <- app_assoc.
Qed.

(** X11: with [max_batch_size = 0] and pairs to register, the loop of
    [RegisterHelperSend] and [RegisterHelperReceptor] makes no progress:
    every iteration registers one more handle of zero OTs and leaves
    [sp_id] at zero, however many iterations are run. *)
Theorem zero_batch_size_never_terminates (w : width) (sps : SpVector)
  (n : nat) :
  (0 < n)%nat ->
  (forall fuel ots,
     register_loop (sender_handle w) (sender_input w) w fuel 0 sps n ots
     = (Throw diverges, ots ++ replicate fuel (sender_handle w 0 []))) /\
  (forall fuel ots,
     register_loop (receiver_handle w) receiver_choice w fuel 0 sps n ots
     = (Throw diverges, ots ++ replicate fuel (receiver_handle w 0 []))) /\
  (forall ots, fst (RegisterHelperSend w 0 sps n ots) = Throw diverges) /\
  (forall ots, fst (RegisterHelperReceptor w 0 sps n ots) = Throw diverges).
Proof.
  intros Hn. split; [|split; [|split]].
  - by apply register_loop_stuck.
  - by apply register_loop_stuck.
  - intros ots. rewrite register_loop_send.
    by rewrite (register_loop_stuck _ _ w sps n Hn).
  - intros ots. rewrite register_loop_receive.
    by rewrite (register_loop_stuck _ _ w sps n Hn).
Qed.

Lemma zero_batch_size_never_terminates_witness :
  fst (RegisterHelperSend W8 0 (mkSpVector [5] [25]) 1 []) = Throw diverges /\
  fst (RegisterHelperReceptor W8 0 (mkSpVector [5] [25]) 1 [])
  = Throw diverges.
Proof.
  destruct (zero_batch_size_never_terminates W8 (mkSpVector [5] [25]) 1
              ltac:(lia)) as (_ & _ & Hs & Hr).
  split; [apply Hs | apply Hr].
Defined.

Lemma shiftl_to_T (w : width) (x : Z) (bit : nat) :
  to_T w (to_T w (Z.shiftl x (Z.of_nat bit)))
  = to_T w (x * 2 ^ Z.of_nat bit).
Proof. rewrite to_T_idem. by rewrite Z.shiftl_mul_pow2 by lia. Qed.

(** X12: [RegisterHelperSend] appends one handle per batch of at most
    [max_batch_size] pairs; the handle of batch [h] is registered for
    [bit_size] bits per OT and [batch_size * bit_size] OTs, and its input
    at position [k * bit_size + bit] holds [a[h * max_batch_size + k]]
    shifted left by [bit], as a [T]. *)
Theorem RegisterHelperSend_one_handle_per_batch (w : width) (B n : nat)
  (sps : SpVector) (ots : list OtVectorSender) :
  (0 < B)%nat -> (n <= length (a sps))%nat ->
  exists new,
    RegisterHelperSend w B sps n ots = (Ok tt, ots ++ new) /\
    (n <= length new * B < n + B)%nat /\
    forall h k bit, (k < B)%nat -> (h * B + k < n)%nat ->
      (bit < bit_size w)%nat ->
      exists ot inp x,
        new !! h = Some ot /\
        s_bitlen ot = bit_size w /\
        s_number_of_ots ot = (Nat.min B (n - h * B) * bit_size w)%nat /\
        length (s_inputs ot) = s_number_of_ots ot /\
        a sps !! (h * B + k)%nat = Some x /\
        s_inputs ot !! (k * bit_size w + bit)%nat = Some inp /\
        bv_size inp = bit_size w /\
        T_of_BitVector w inp tt = (Ok (to_T w (x * 2 ^ Z.of_nat bit)), tt).
Proof.
  intros HB Hn. rewrite RegisterHelperSend_generic.
  destruct (register_generic_ok (sender_handle w) (sender_input w) w B n sps
              ots HB Hn) as (G & Hrun & Hlen & Hreg).
  exists G. split; [done|]. split; [rewrite Hlen; by apply batches_spec|].
  intros h k bit Hk Hhk Hbit.
  destruct (Hreg h k bit Hk Hhk Hbit) as (v & x & Hh & Hv & Hx & Hin).
  exists (sender_handle w (Nat.min B (n - h * B)) v), (sender_input w x bit), x.
  split; [done|]. split; [done|]. split; [done|]. split; [done|].
  split; [done|]. split; [done|]. split; [done|].
  unfold sender_input. rewrite T_of_BitVector_of_T. by rewrite shiftl_to_T.
Qed.

Lemma RegisterHelperSend_one_handle_per_batch_witness :
  exists new,
    RegisterHelperSend W8 2 (mkSpVector [5; 6; 7] [25; 36; 49]) 3 []
    = (Ok tt, [] ++ new) /\
    (3 <= length new * 2 < 3 + 2)%nat.
Proof.
  destruct (RegisterHelperSend_one_handle_per_batch W8 2 3
              (mkSpVector [5; 6; 7] [25; 36; 49]) [] ltac:(lia)
              ltac:(cbn; lia)) as (new & Hrun & Hlen & _).
  by exists new.
Defined.

(** X13: [RegisterHelperReceptor] appends one handle per batch as well; the
    [bit_size] choice bits it sets for pair [k] of batch [h] are the
    binary digits of [a[h * max_batch_size + k]], least significant
    first. *)
Theorem RegisterHelperReceptor_choices_spell_a (w : width) (B n : nat)
  (sps : SpVector) (ots : list OtVectorReceiver) :
  (0 < B)%nat -> (n <= length (a sps))%nat ->
  Forall (fun x => 0 <= x < 2 ^ Z.of_nat (bit_size w)) (a sps) ->
  exists new,
    RegisterHelperReceptor w B sps n ots = (Ok tt, ots ++ new) /\
    (n <= length new * B < n + B)%nat /\
    forall h k, (k < B)%nat -> (h * B + k < n)%nat ->
      exists ot x,
        new !! h = Some ot /\
        r_bitlen ot = bit_size w /\
        r_number_of_ots ot = (Nat.min B (n - h * B) * bit_size w)%nat /\
        length (r_choices ot) = r_number_of_ots ot /\
        a sps !! (h * B + k)%nat = Some x /\
        choices_value w (r_choices ot) k = x.
Proof.
  intros HB Hn Hrange. rewrite RegisterHelperReceptor_generic.
  destruct (register_generic_ok (receiver_handle w) receiver_choice w B n sps
              ots HB Hn) as (G & Hrun & Hlen & Hreg).
  exists G. split; [done|]. split; [rewrite Hlen; by apply batches_spec|].
  intros h k Hk Hhk.
  destruct (Hreg h k 0%nat Hk Hhk (bit_size_pos w))
    as (v & x & Hh & Hv & Hx & _).
  exists (receiver_handle w (Nat.min B (n - h * B)) v), x.
  split; [done|]. split; [done|]. split; [done|]. split; [done|].
  split; [done|].
  pose proof (Forall_lookup_1 _ _ _ _ Hrange Hx) as Hxr. cbn beta in Hxr.
  transitivity (x mod 2 ^ Z.of_nat (bit_size w)); [|by apply Z.mod_small].
  rewrite low_bits_sum. unfold choices_value. apply sum_to_ext.
  intros bit Hbit.
  destruct (Hreg h k bit Hk Hhk Hbit) as (v' & x' & Hh' & _ & Hx' & Hin).
  assert (v' = v) as ->.
  { rewrite Hh in Hh'. inversion Hh'. done. }
  assert (x' = x) as -> by congruence.
  cbn [receiver_handle SetChoices r_choices].
  rewrite Hin. unfold receiver_choice. rewrite choice_is_testbit.
  destruct (Z.testbit x (Z.of_nat bit)); cbn [Z.b2z]; lia.
Qed.

Lemma RegisterHelperReceptor_choices_spell_a_witness :
  exists new,
    RegisterHelperReceptor W8 2 (mkSpVector [5; 6; 7] [25; 36; 49]) 3 []
    = (Ok tt, [] ++ new) /\
    (3 <= length new * 2 < 3 + 2)%nat.
Proof.
  destruct (RegisterHelperReceptor_choices_spell_a W8 2 3
              (mkSpVector [5; 6; 7] [25; 36; 49]) [] ltac:(lia)
              ltac:(cbn; lia) ltac:(repeat constructor; cbn; lia))
    as (new & Hrun & Hlen & _).
  by exists new.
Defined.

(** X14: the inputs that a sender registers for a pair with value [x] and the
    choice bits that a receiver registers for a pair with value [y] select
    a sum of [x * y] modulo [2^bit_size]: the [bit_size] OTs of a pair
    multiply the two shares. *)
Theorem chosen_inputs_add_up_to_product (w : width) (x y : Z) :
  to_T w (sum_to (bit_size w) (fun bit =>
            if receiver_choice y bit
            then from_bytes (take (sizeof w) (bv_data (sender_input w x bit)))
            else 0))
  = to_T w (x * y).
Proof.
  rewrite <- (shifted_copies_sum w x y). f_equal. apply sum_to_ext.
  intros bit _. unfold receiver_choice, sender_input.
  rewrite choice_is_testbit, val_BitVector_of_T. by rewrite to_T_idem.
Qed.

(** X15: a [T] written into a [BitVector] by [RegisterHelperSend] is read back
    unchanged by the parse helpers; the vector holds [sizeof(T)] bytes and
    [bit_size] bits; reading a [T] from a shorter vector runs past its
    buffer. *)
Theorem T_survives_BitVector (w : width) (x : Z) :
  (0 <= x < 2 ^ Z.of_nat (bit_size w) ->
   T_of_BitVector w (BitVector_of_T w x) tt = (Ok x, tt)) /\
  length (bv_data (BitVector_of_T w x)) = sizeof w /\
  bv_size (BitVector_of_T w x) = bit_size w /\
  (forall bv, (length (bv_data bv) < sizeof w)%nat ->
     T_of_BitVector w bv tt = (Throw undefined_behaviour, tt)).
Proof.
  split; [|split; [|split]].
  - intros Hx. rewrite T_of_BitVector_of_T. by rewrite to_T_small.
  - apply length_to_bytes.
  - done.
  - intros bv Hbv. unfold T_of_BitVector. by rewrite decide_False by lia.
Qed.

Lemma T_survives_BitVector_witness :
  T_of_BitVector W16 (BitVector_of_T W16 51966) tt = (Ok 51966, tt).
Proof.
  apply (proj1 (T_survives_BitVector W16 51966)). cbn. lia.
Defined.

(** *** What the calls leave alone *)

Lemma same_config_refl (p : SpProviderFromOts) : same_config p p.
Proof. done. Qed.

Lemma keeps_config_on_sender (p0 : SpProviderFromOts) (i : nat) (w : width)
  (helper : SpVector -> M (list OtVectorSender) unit) :
  preserves (same_config p0) (on_sender i w helper).
Proof.
  intros s r s' E HQ. unfold on_sender in E.
  destruct (ots_sender_ s !! i); [|by inversion E; subst].
  destruct (helper _ _) as [r1 ots']. by inversion E; subst.
Qed.

Lemma keeps_config_on_receiver (p0 : SpProviderFromOts) (i : nat) (w : width)
  (helper : SpVector -> M (list OtVectorReceiver) unit) :
  preserves (same_config p0) (on_receiver i w helper).
Proof.
  intros s r s' E HQ. unfold on_receiver in E.
  destruct (ots_receiver_ s !! i); [|by inversion E; subst].
  destruct (helper _ _) as [r1 ots']. by inversion E; subst.
Qed.

Lemma keeps_config_on_sender_sps (p0 : SpProviderFromOts) (i : nat)
  (w : width) (helper : M (list OtVectorSender * SpVector) unit) :
  preserves (same_config p0) (on_sender_sps i w helper).
Proof.
  intros s r s' E HQ. unfold on_sender_sps in E.
  destruct (ots_sender_ s !! i); [|by inversion E; subst].
  destruct (helper _) as [r1 [ots' sps']]. by inversion E; subst.
Qed.

Lemma keeps_config_on_receiver_sps (p0 : SpProviderFromOts) (i : nat)
  (w : width) (helper : M (list OtVectorReceiver * SpVector) unit) :
  preserves (same_config p0) (on_receiver_sps i w helper).
Proof.
  intros s r s' E HQ. unfold on_receiver_sps in E.
  destruct (ots_receiver_ s !! i); [|by inversion E; subst].
  destruct (helper _) as [r1 [ots' sps']]. by inversion E; subst.
Qed.

Lemma keeps_config_emit (p0 : SpProviderFromOts) (e : event) :
  preserves (same_config p0) (emit e).
Proof. intros s r s' E HQ. unfold emit, modify in E. by inversion E; subst. Qed.

Lemma keeps_config_ParseOutputs (B : nat) (p0 : SpProviderFromOts) :
  preserves (same_config p0) (ParseOutputs B).
Proof.
  apply preserves_for_peers; intros i w s r s' E.
  - eapply keeps_config_on_sender_sps; exact E.
  - eapply keeps_config_on_receiver_sps; exact E.
Qed.

Lemma keeps_config_RegisterOts (B : nat) (rnd : width -> nat -> Z)
  (p0 : SpProviderFromOts) :
  preserves (same_config p0) (RegisterOts B rnd).
Proof.
  unfold RegisterOts. apply preserves_bind.
  - apply preserves_for_each. intros w s r s' E HQ.
    unfold modify in E. by inversion E; subst.
  - intros _. apply preserves_for_peers; intros i w s r s' E.
    + eapply keeps_config_on_sender; exact E.
    + eapply keeps_config_on_receiver; exact E.
Qed.

Lemma keeps_config_drive_ots (env : ot_outputs) (p0 : SpProviderFromOts) :
  preserves (same_config p0) (drive_ots env).
Proof.
  intros s r s' E HQ. unfold drive_ots in E.
  eapply preserves_for_each; [|exact E|exact HQ].
  intros i. cbn beta. destruct (decide (i = my_id_ s)); [apply preserves_ret|].
  apply preserves_bind; [|intros _].
  - intros s1 r1 s1' E1 HQ1. unfold send_all_messages in E1.
    destruct (ots_sender_ s1 !! i); by inversion E1; subst.
  - intros s1 r1 s1' E1 HQ1. unfold send_all_corrections in E1.
    destruct (ots_receiver_ s1 !! i); by inversion E1; subst.
Qed.

Lemma keeps_config_PreSetup (B : nat) (rnd : width -> nat -> Z)
  (p0 : SpProviderFromOts) :
  preserves (same_config p0) (PreSetup B rnd).
Proof.
  intros s r s' E HQ. unfold PreSetup in E.
  destruct (negb (NeedSps s)); [by inversion E; subst|].
  revert E HQ. apply preserves_bind; [apply keeps_config_emit|intros _].
  apply preserves_bind; [apply keeps_config_RegisterOts|intros _].
  apply keeps_config_emit.
Qed.

Lemma keeps_config_Setup (B : nat) (env : ot_outputs)
  (p0 : SpProviderFromOts) :
  preserves (same_config p0) (Setup B env).
Proof.
  intros s r s' E HQ. unfold Setup in E.
  destruct (negb (NeedSps s)); [by inversion E; subst|].
  revert E HQ. apply preserves_bind; [apply keeps_config_emit|intros _].
  apply preserves_bind; [apply keeps_config_drive_ots|intros _].
  apply preserves_bind; [apply keeps_config_ParseOutputs|intros _].
  apply preserves_bind; [|intros _; apply keeps_config_emit].
  unfold signal_finished.
  apply preserves_bind; [apply keeps_config_emit|intros _].
  apply preserves_bind; [|intros _].
  { intros s1 r1 s1' E1 HQ1. unfold modify in E1. by inversion E1; subst. }
  apply preserves_bind; [apply keeps_config_emit|intros _].
  apply preserves_bind; [apply keeps_config_emit|intros _].
  apply keeps_config_emit.
Qed.

(** X16: whatever the outcome, [PreSetup] and [Setup] leave the party id, the
    number of peers and the five request counts as they are; so the answer
    of [NeedSps()] does not change over the calls. *)
Theorem requests_are_read_only (B : nat) (rnd : width -> nat -> Z)
  (env : ot_outputs) (p : SpProviderFromOts) :
  same_config p (snd (PreSetup B rnd p)) /\
  same_config p (snd (Setup B env p)) /\
  NeedSps (snd (PreSetup B rnd p)) = NeedSps p /\
  NeedSps (snd (Setup B env p)) = NeedSps p.
Proof.
  assert (Hpre : same_config p (snd (PreSetup B rnd p))).
  { destruct (PreSetup B rnd p) as [r p'] eqn:E.
    exact (keeps_config_PreSetup B rnd p p r p' E (same_config_refl p)). }
  assert (Hset : same_config p (snd (Setup B env p))).
  { destruct (Setup B env p) as [r p'] eqn:E.
    exact (keeps_config_Setup B env p p r p' E (same_config_refl p)). }
  split; [done|]. split; [done|].
  split; by apply NeedSps_same_config.
Qed.

(** *** The pairs that [PreSetup] generates *)

(** X17: on a provider as the constructors leave it, with pairs requested,
    [PreSetup] returns normally and leaves, for every width, [n_W] values
    [a_W[i]] of type [T] and the local squares
    [c_W[i] = a_W[i] * a_W[i] mod 2^W]. *)
Theorem PreSetup_generates_local_squares (B : nat)
  (rnd : width -> nat -> Z) (my_id parties : nat) (counts : per_width Z) :
  (0 < B)%nat ->
  NeedSps (requested my_id parties counts) = true ->
  exists p',
    PreSetup B rnd (requested my_id parties counts) = (Ok tt, p') /\
    finished_ p' = false /\
    forall w,
      length (a (pw_get w (sps_ p'))) = Z.to_nat (pw_get w counts) /\
      length (c (pw_get w (sps_ p'))) = Z.to_nat (pw_get w counts) /\
      forall i, (i < Z.to_nat (pw_get w counts))%nat ->
        exists x,
          a (pw_get w (sps_ p')) !! i = Some x /\
          0 <= x < 2 ^ Z.of_nat (bit_size w) /\
          c (pw_get w (sps_ p')) !! i = Some (to_T w (x * x)).
Proof.
  intros HB Hneed.
  destruct (PreSetup_ok B HB rnd (requested my_id parties counts))
    as (p' & Hrun & _ & Hreg); [done|].
  specialize (Hreg Hneed). exists p'. split; [done|].
  split; [by rewrite (reg_finished _ _ _ _ Hreg)|].
  intros w. rewrite (reg_sps _ _ _ _ Hreg w).
  unfold fresh_pairs, count. cbn [a c number_of_sps_ requested].
  rewrite length_map, length_RandomVector. split; [done|]. split; [done|].
  intros i Hi. exists (to_T w (rnd w i)).
  rewrite list_lookup_fmap, lookup_RandomVector by done.
  split; [done|]. split; [apply to_T_range|done].
Qed.

Lemma PreSetup_generates_local_squares_witness :
  exists p',
    PreSetup 2 (fun _ i => Z.of_nat i + 300) (requested 0 2 (mkPerWidth 3 0 0 0 0))
    = (Ok tt, p') /\
    finished_ p' = false /\
    length (a (pw_get W8 (sps_ p'))) = 3%nat.
Proof.
  destruct (PreSetup_generates_local_squares 2 (fun _ i => Z.of_nat i + 300)
              0 2 (mkPerWidth 3 0 0 0 0) ltac:(lia) eq_refl)
    as (p' & Hrun & Hfin & Hw).
  exists p'. split; [done|]. split; [done|]. exact (proj1 (Hw W8)).
Defined.

(** *** The handles that [ParseOutputs] consumes *)

Lemma sum_list_with_same {A} (f g : A -> nat) (l : list A) :
  (forall x, f x = g x) -> sum_list_with f l = sum_list_with g l.
Proof. intros Hfg. induction l as [|x l IH]; cbn; [done|]. by rewrite Hfg, IH. Qed.

Lemma batches_0 (B : nat) : (0 < B)%nat -> batches B 0 = 0%nat.
Proof. intros HB. unfold batches. apply Nat.div_small. lia. Qed.

Lemma batches_step (B m : nat) :
  (0 < B)%nat -> (0 < m)%nat ->
  batches B m = S (batches B (m - Nat.min B m)).
Proof.
  intros HB Hm. symmetry. apply batches_unique; [done|].
  pose proof (batches_spec B (m - Nat.min B m) HB) as Hb.
  destruct (decide (m <= B)%nat).
  - rewrite Nat.min_r in * by done.
    replace (m - m)%nat with 0%nat in * by lia.
    rewrite batches_0 in * by done. lia.
  - rewrite Nat.min_l in * by lia. lia.
Qed.

Section Pops.

Context {H : Type} (outputs : H -> list BitVector) (adj : Z -> Z).
Variable w : width.
Variable B : nat.
Hypothesis B_pos : (0 < B)%nat.

(** The body of the loop of [parse_generic]. *)
Definition parse_body (sp_id batch_size : nat) : M (list H * SpVector) unit :=
  (let* ot := front in
   let output := outputs ot in
   do* for_k_bit w batch_size (fun j bit_i =>
         let* o := at_ output (j * bit_size w + bit_i) in
         let* m := T_of_BitVector w o in
         c_at_add w (sp_id + j) (adj (2 * m))) in
   pop_front)%cxx.

Lemma parse_bits_keep_handles (hs : list H) (output : list BitVector)
  (sp_id batch_size : nat) :
  preserves (fun s : list H * SpVector => fst s = hs)
    (for_k_bit w batch_size (fun j bit_i =>
       (let* o := at_ output (j * bit_size w + bit_i) in
        let* m := T_of_BitVector w o in
        c_at_add w (sp_id + j) (adj (2 * m)))%cxx)).
Proof.
  unfold for_k_bit. apply preserves_for_each. intros j.
  apply preserves_for_each. intros bit.
  apply preserves_bind.
  { intros s r s' E HQ. unfold at_ in E.
    destruct (output !! _); unfold ret, throw in E; by inversion E; subst. }
  intros o. apply preserves_bind.
  { intros s r s' E HQ. unfold T_of_BitVector in E.
    destruct (decide _); unfold ret, throw in E; by inversion E; subst. }
  intros m [ots sps] r s' E HQ. unfold c_at_add in E.
  destruct (c sps !! _); by inversion E; subst.
Qed.

Lemma parse_body_pops (sp_id batch_size : nat) (hs hs' : list H)
  (sps sps' : SpVector) :
  parse_body sp_id batch_size (hs, sps) = (Ok tt, (hs', sps')) ->
  exists ot, hs = ot :: hs'.
Proof.
  unfold parse_body. unfold bind at 1, front.
  destruct hs as [|ot hs1]; [discriminate|].
  unfold bind at 1.
  destruct (for_k_bit _ _ _ _) as [[[]|e] [l sps1]] eqn:Ef; [|discriminate].
  pose proof (parse_bits_keep_handles (ot :: hs1) (outputs ot) sp_id
                batch_size _ _ _ Ef eq_refl) as Hl.
  cbn in Hl. subst l. unfold pop_front. intros E. inversion E; subst.
  by exists ot.
Qed.

Lemma parse_loop_pops (n : nat) : forall fuel sp_id hs sps hs' sps',
  batch_loop fuel B n sp_id parse_body (hs, sps) = (Ok tt, (hs', sps')) ->
  hs' = drop (batches B (n - sp_id)) hs.
Proof.
  induction fuel as [|fuel IH]; intros sp_id hs sps hs' sps' E;
    cbn [batch_loop] in E; destruct (decide (sp_id < n)%nat) as [Hlt|Hge].
  - discriminate E.
  - unfold ret in E. inversion E; subst.
    replace (n - sp_id)%nat with 0%nat by lia. by rewrite batches_0.
  - unfold bind at 1 in E.
    destruct (parse_body sp_id _ (hs, sps)) as [[[]|e] [hs1 sps1]] eqn:Eb;
      [|discriminate].
    apply parse_body_pops in Eb as [ot ->].
    rewrite (IH _ _ _ _ _ E).
    rewrite (batches_step B (n - sp_id)) by lia. cbn [drop].
    do 2 f_equal. lia.
  - unfold ret in E. inversion E; subst.
    replace (n - sp_id)%nat with 0%nat by lia. by rewrite batches_0.
Qed.

Lemma parse_generic_pops (n : nat) (hs hs' : list H) (sps sps' : SpVector) :
  parse_generic outputs adj w B n (hs, sps) = (Ok tt, (hs', sps')) ->
  hs' = drop (batches B n) hs.
Proof.
  intros E. apply parse_loop_pops in E. by rewrite Nat.sub_0_r in E.
Qed.

End Pops.

(** The handles of all widths, per peer. *)
Definition handles_per_peer (B : nat) (p : SpProviderFromOts) : nat :=
  sum_list_with (fun w => batches B (count w p)) widths.

Section PopsOfProvider.

Variable B : nat.
Hypothesis B_pos : (0 < B)%nat.

Lemma on_sender_sps_pops (i : nat) (w : width) (p p' : SpProviderFromOts) :
  on_sender_sps i w (ParseHelperSend w B (count w p)) p = (Ok tt, p') ->
  same_config p p' /\
  ots_receiver_ p' = ots_receiver_ p /\
  forall q, ots_sender_ p' !! q
            = if decide (q = i)
              then drop (batches B (count w p)) <$> ots_sender_ p !! q
              else ots_sender_ p !! q.
Proof.
  unfold on_sender_sps. rewrite ParseHelperSend_generic.
  destruct (ots_sender_ p !! i) as [hs|] eqn:Hi; [|discriminate].
  destruct (parse_generic _ _ _ _ _ _) as [r [hs' sps']] eqn:Ep.
  intros E. inversion E; subst. clear E.
  apply (parse_generic_pops _ _ _ _ B_pos) in Ep as ->.
  split; [done|]. split; [done|]. intros q.
  cbn [ots_sender_ set_ots_sender set_sps].
  destruct (decide (q = i)) as [->|Hne].
  - rewrite Hi. cbn. apply list_lookup_insert_eq. by eapply lookup_lt_Some.
  - by apply list_lookup_insert_ne.
Qed.

Lemma on_receiver_sps_pops (i : nat) (w : width) (p p' : SpProviderFromOts) :
  on_receiver_sps i w (ParseHelperReceive w B (count w p)) p = (Ok tt, p') ->
  same_config p p' /\
  ots_sender_ p' = ots_sender_ p /\
  forall q, ots_receiver_ p' !! q
            = if decide (q = i)
              then drop (batches B (count w p)) <$> ots_receiver_ p !! q
              else ots_receiver_ p !! q.
Proof.
  unfold on_receiver_sps. rewrite ParseHelperReceive_generic.
  destruct (ots_receiver_ p !! i) as [hs|] eqn:Hi; [|discriminate].
  destruct (parse_generic _ _ _ _ _ _) as [r [hs' sps']] eqn:Ep.
  intros E. inversion E; subst. clear E.
  apply (parse_generic_pops _ _ _ _ B_pos) in Ep as ->.
  split; [done|]. split; [done|]. intros q.
  cbn [ots_receiver_ set_ots_receiver set_sps].
  destruct (decide (q = i)) as [->|Hne].
  - rewrite Hi. cbn. apply list_lookup_insert_eq. by eapply lookup_lt_Some.
  - by apply list_lookup_insert_ne.
Qed.

Lemma drop_fmap_drop {A} (k1 k2 : nat) (o : option (list A)) :
  drop k2 <$> (drop k1 <$> o) = drop (k1 + k2) <$> o.
Proof. destruct o; cbn; [|done]. by rewrite drop_drop. Qed.

Lemma lower_widths_pop (i : nat) (ws : list width) : forall p p',
  for_each ws (fun w p0 =>
    on_sender_sps i w (ParseHelperSend w B (count w p0)) p0) p = (Ok tt, p') ->
  same_config p p' /\
  ots_receiver_ p' = ots_receiver_ p /\
  forall q, ots_sender_ p' !! q
            = if decide (q = i)
              then drop (sum_list_with (fun w => batches B (count w p)) ws)
                     <$> ots_sender_ p !! q
              else ots_sender_ p !! q.
Proof.
  induction ws as [|w ws IH]; intros p p' E.
  - cbn in E. unfold ret in E. inversion E; subst.
    split; [done|]. split; [done|]. intros q. destruct (decide (q = i)); [|done].
    destruct (ots_sender_ p' !! q); cbn; by rewrite ?drop_0.
  - cbn [for_each] in E. unfold bind at 1 in E.
    destruct (on_sender_sps i w _ p) as [[[]|e] p1] eqn:E1; [|discriminate].
    apply on_sender_sps_pops in E1 as (Hc1 & Hr1 & Hs1).
    destruct (IH _ _ E) as (Hc & Hr & Hs).
    split; [by eapply same_config_trans|]. split; [congruence|].
    intros q. rewrite Hs, Hs1. destruct (decide (q = i)); [|done].
    rewrite drop_fmap_drop. cbn [sum_list_with]. do 2 f_equal.
    f_equal. apply sum_list_with_same. intros w'.
    by rewrite (same_config_count _ _ w' Hc1).
Qed.

Lemma higher_widths_pop (i : nat) (ws : list width) : forall p p',
  for_each ws (fun w p0 =>
    on_receiver_sps i w (ParseHelperReceive w B (count w p0)) p0) p
  = (Ok tt, p') ->
  same_config p p' /\
  ots_sender_ p' = ots_sender_ p /\
  forall q, ots_receiver_ p' !! q
            = if decide (q = i)
              then drop (sum_list_with (fun w => batches B (count w p)) ws)
                     <$> ots_receiver_ p !! q
              else ots_receiver_ p !! q.
Proof.
  induction ws as [|w ws IH]; intros p p' E.
  - cbn in E. unfold ret in E. inversion E; subst.
    split; [done|]. split; [done|]. intros q. destruct (decide (q = i)); [|done].
    destruct (ots_receiver_ p' !! q); cbn; by rewrite ?drop_0.
  - cbn [for_each] in E. unfold bind at 1 in E.
    destruct (on_receiver_sps i w _ p) as [[[]|e] p1] eqn:E1; [|discriminate].
    apply on_receiver_sps_pops in E1 as (Hc1 & Hr1 & Hs1).
    destruct (IH _ _ E) as (Hc & Hr & Hs).
    split; [by eapply same_config_trans|]. split; [congruence|].
    intros q. rewrite Hs, Hs1. destruct (decide (q = i)); [|done].
    rewrite drop_fmap_drop. cbn [sum_list_with]. do 2 f_equal.
    f_equal. apply sum_list_with_same. intros w'.
    by rewrite (same_config_count _ _ w' Hc1).
Qed.

(** The loop over the peers [l], as [for_peers] runs it for a provider
    with id [my]. *)
Definition parse_peers (my : nat) (l : list nat) : M SpProviderFromOts unit :=
  for_each l (fun i =>
    if decide (i = my) then ret tt
    else if decide (i < my)%nat then
      for_each widths (fun w p0 =>
        on_sender_sps i w (ParseHelperSend w B (count w p0)) p0)
    else if decide (my < i)%nat then
      for_each widths (fun w p0 =>
        on_receiver_sps i w (ParseHelperReceive w B (count w p0)) p0)
    else ret tt).

Lemma parse_peers_pop (my : nat) (l : list nat) : forall p p',
  NoDup l ->
  parse_peers my l p = (Ok tt, p') ->
  same_config p p' /\
  forall q,
    ots_sender_ p' !! q
    = (if decide (q ∈ l /\ q < my)%nat
       then drop (handles_per_peer B p) <$> ots_sender_ p !! q
       else ots_sender_ p !! q) /\
    ots_receiver_ p' !! q
    = (if decide (q ∈ l /\ my < q)%nat
       then drop (handles_per_peer B p) <$> ots_receiver_ p !! q
       else ots_receiver_ p !! q).
Proof.
  unfold parse_peers.
  induction l as [|i l IH]; intros p p' Hnd E.
  - cbn in E. unfold ret in E. inversion E; subst. split; [done|].
    intros q. rewrite !decide_False by (intros [Hin _]; by inversion Hin).
    done.
  - apply NoDup_cons in Hnd as [Hi Hnd].
    cbn [for_each] in E. unfold bind at 1 in E.
    match type of E with
    | (let (_, _) := ?m p in _) = _ =>
        destruct (m p) as [[[]|e] p1] eqn:E1; [|discriminate]
    end.
    destruct (IH _ _ Hnd E) as (Hc & Hq). clear IH E.
    assert (Hstep : same_config p p1 /\
      forall q,
        ots_sender_ p1 !! q
        = (if decide (q = i /\ q < my)%nat
           then drop (handles_per_peer B p) <$> ots_sender_ p !! q
           else ots_sender_ p !! q) /\
        ots_receiver_ p1 !! q
        = (if decide (q = i /\ my < q)%nat
           then drop (handles_per_peer B p) <$> ots_receiver_ p !! q
           else ots_receiver_ p !! q)).
    { destruct (decide (i = my)) as [->|Hne].
      - unfold ret in E1. inversion E1; subst. split; [done|].
        intros q. rewrite !decide_False by lia. done.
      - destruct (decide (i < my)%nat) as [Hlt|Hge].
        + apply lower_widths_pop in E1 as (Hc1 & Hr1 & Hs1).
          split; [done|]. intros q. rewrite Hs1, Hr1.
          rewrite (decide_False (P := (q = i /\ my < q)%nat)) by lia.
          split; [|done].
          destruct (decide (q = i)) as [->|Hqi].
          * by rewrite decide_True by done.
          * by rewrite decide_False by (intros [? _]; done).
        + rewrite decide_True in E1 by lia.
          apply higher_widths_pop in E1 as (Hc1 & Hr1 & Hs1).
          split; [done|]. intros q. rewrite Hs1, Hr1.
          rewrite (decide_False (P := (q = i /\ q < my)%nat)) by lia.
          split; [done|].
          destruct (decide (q = i)) as [->|Hqi].
          * by rewrite decide_True by (split; [done|lia]).
          * by rewrite decide_False by (intros [? _]; done). }
    destruct Hstep as (Hc1 & Hq1).
    split; [by eapply same_config_trans|]. intros q.
    destruct (Hq q) as [Hs Hr]. destruct (Hq1 q) as [Hs1 Hr1].
    assert (Ht : handles_per_peer B p1 = handles_per_peer B p).
    { unfold handles_per_peer. apply sum_list_with_same. intros w'.
      by rewrite (same_config_count _ _ w' Hc1). }
    rewrite Hs, Hr, Hs1, Hr1, Ht. clear Hs Hr Hs1 Hr1 Hq Hq1.
    split.
    + destruct (decide (q = i)) as [->|Hqi].
      * rewrite (decide_False (P := (i ∈ l /\ i < my)%nat))
          by (intros [? _]; done).
        destruct (decide (i < my)%nat).
        -- rewrite !decide_True; [done| |done].
           split; [apply list_elem_of_here|done].
        -- rewrite !decide_False; [done| |]; intros [_ ?]; done.
      * rewrite (decide_False (P := (q = i /\ q < my)%nat))
          by (intros [? _]; done).
        destruct (decide (q ∈ l /\ q < my)%nat) as [[Hin Hlt]|Hno].
        -- rewrite decide_True; [done|].
           split; [by apply list_elem_of_further|done].
        -- rewrite decide_False; [done|].
           intros [Hin Hlt]. apply Hno. split; [|done].
           apply elem_of_cons in Hin as [?|?]; done.
    + destruct (decide (q = i)) as [->|Hqi].
      * rewrite (decide_False (P := (i ∈ l /\ my < i)%nat))
          by (intros [? _]; done).
        destruct (decide (my < i)%nat).
        -- rewrite !decide_True; [done| |done].
           split; [apply list_elem_of_here|done].
        -- rewrite !decide_False; [done| |]; intros [_ ?]; done.
      * rewrite (decide_False (P := (q = i /\ my < q)%nat))
          by (intros [? _]; done).
        destruct (decide (q ∈ l /\ my < q)%nat) as [[Hin Hlt]|Hno].
        -- rewrite decide_True; [done|].
           split; [by apply list_elem_of_further|done].
        -- rewrite decide_False; [done|].
           intros [Hin Hlt]. apply Hno. split; [|done].
           apply elem_of_cons in Hin as [?|?]; done.
Qed.

Lemma ParseOutputs_is_parse_peers (p : SpProviderFromOts) :
  ParseOutputs B p = parse_peers (my_id_ p) (seq 0 (ot_providers_size p)) p.
Proof. reflexivity. Qed.

Lemma ParseOutputs_pops (p p' : SpProviderFromOts) :
  ParseOutputs B p = (Ok tt, p') ->
  same_config p p' /\
  forall q,
    ots_sender_ p' !! q
    = (if decide (q < my_id_ p /\ q < ot_providers_size p)%nat
       then drop (handles_per_peer B p) <$> ots_sender_ p !! q
       else ots_sender_ p !! q) /\
    ots_receiver_ p' !! q
    = (if decide (my_id_ p < q < ot_providers_size p)%nat
       then drop (handles_per_peer B p) <$> ots_receiver_ p !! q
       else ots_receiver_ p !! q).
Proof.
  rewrite ParseOutputs_is_parse_peers. intros E.
  apply parse_peers_pop in E as (Hc & Hq); [|apply NoDup_seq].
  split; [done|]. intros q. destruct (Hq q) as [-> ->]. split.
  - destruct (decide (q < my_id_ p /\ q < ot_providers_size p)%nat)
      as [[? ?]|Hno].
    + rewrite decide_True; [done|]. split; [|done]. apply elem_of_seq. lia.
    + rewrite decide_False; [done|]. intros [Hin ?]. apply Hno.
      apply elem_of_seq in Hin. lia.
  - destruct (decide (my_id_ p < q < ot_providers_size p)%nat) as [[? ?]|Hno].
    + rewrite decide_True; [done|]. split; [|done]. apply elem_of_seq. lia.
    + rewrite decide_False; [done|]. intros [Hin ?]. apply Hno.
      apply elem_of_seq in Hin. lia.
Qed.

End PopsOfProvider.

(** X18: whenever [ParseOutputs] returns normally it has taken, from the sender
    list of every peer below [my_id] and from the receiver list of every
    peer above, one handle per batch of every width off the front; it has
    touched no other list and no request count. *)
Theorem ParseOutputs_pops_one_handle_per_batch (B : nat)
  (p p' : SpProviderFromOts) :
  (0 < B)%nat ->
  ParseOutputs B p = (Ok tt, p') ->
  same_config p p' /\
  forall q,
    ots_sender_ p' !! q
    = (if decide (q < my_id_ p /\ q < ot_providers_size p)%nat
       then drop (handles_per_peer B p) <$> ots_sender_ p !! q
       else ots_sender_ p !! q) /\
    ots_receiver_ p' !! q
    = (if decide (my_id_ p < q < ot_providers_size p)%nat
       then drop (handles_per_peer B p) <$> ots_receiver_ p !! q
       else ots_receiver_ p !! q).
Proof. intros HB. by apply ParseOutputs_pops. Qed.

(** *** [Setup] on a provider without handles *)

Lemma pw_set_get {A} (w : width) (s : per_width A) :
  pw_set w (pw_get w s) s = s.
Proof. by destruct w, s. Qed.

Lemma all_empty_replicate {A} (l : list (list A)) (n : nat) :
  length l = n -> (forall q hs, l !! q = Some hs -> hs = []) ->
  l = replicate n [].
Proof.
  intros Hlen Hall. apply list_eq. intros q.
  destruct (l !! q) as [hs|] eqn:Hq.
  - rewrite (Hall q hs Hq). symmetry. apply lookup_replicate_2.
    apply lookup_lt_Some in Hq. lia.
  - symmetry. apply lookup_replicate_None. apply lookup_ge_None_1 in Hq. lia.
Qed.

Lemma NeedSps_some_count (p : SpProviderFromOts) :
  (forall w, 0 <= pw_get w (number_of_sps_ p)) ->
  NeedSps p = true -> exists w, (0 < count w p)%nat.
Proof.
  intros Hnn Hneed. rewrite NeedSps_total in Hneed. apply Z.ltb_lt in Hneed.
  unfold total_requested, number_of_sps_8_, number_of_sps_16_,
    number_of_sps_32_, number_of_sps_64_, number_of_sps_128_ in Hneed.
  assert (Hex : exists w, 0 < pw_get w (number_of_sps_ p)).
  { destruct (decide (0 < pw_8 (number_of_sps_ p))); [by exists W8|].
    destruct (decide (0 < pw_16 (number_of_sps_ p))); [by exists W16|].
    destruct (decide (0 < pw_32 (number_of_sps_ p))); [by exists W32|].
    destruct (decide (0 < pw_64 (number_of_sps_ p))); [by exists W64|].
    destruct (decide (0 < pw_128 (number_of_sps_ p))); [by exists W128|].
    pose proof (Hnn W8). pose proof (Hnn W16). pose proof (Hnn W32).
    pose proof (Hnn W64). pose proof (Hnn W128). cbn [pw_get] in *.
    replace (pw_8 (number_of_sps_ p) + pw_16 (number_of_sps_ p)
             + pw_32 (number_of_sps_ p) + pw_64 (number_of_sps_ p)
             + pw_128 (number_of_sps_ p)) with 0 in Hneed by lia.
    by vm_compute in Hneed. }
  destruct Hex as [w Hw]. exists w. unfold count. lia.
Qed.

Section EmptyLists.

Variable B : nat.

Lemma sender_parse_on_empty (i : nat) (w : width) (p : SpProviderFromOts) :
  ots_sender_ p !! i = Some [] ->
  on_sender_sps i w (ParseHelperSend w B (count w p)) p
  = (if decide (count w p = 0)%nat then Ok tt else Throw undefined_behaviour,
     p).
Proof.
  intros Hi. unfold on_sender_sps. rewrite Hi.
  assert (Hp : set_ots_sender (<[i := []]> (ots_sender_ p))
                 (set_sps (pw_set w (pw_get w (sps_ p)) (sps_ p)) p) = p).
  { rewrite list_insert_id by done. rewrite pw_set_get. by destruct p. }
  unfold ParseHelperSend. destruct (count w p) as [|n].
  - cbn [batch_loop]. rewrite decide_False by lia. unfold ret.
    by rewrite Hp, decide_True.
  - cbn [batch_loop]. rewrite decide_True by lia.
    unfold bind at 1 2, front. by rewrite Hp, decide_False.
Qed.

Lemma receiver_parse_on_empty (i : nat) (w : width) (p : SpProviderFromOts) :
  ots_receiver_ p !! i = Some [] ->
  on_receiver_sps i w (ParseHelperReceive w B (count w p)) p
  = (if decide (count w p = 0)%nat then Ok tt else Throw undefined_behaviour,
     p).
Proof.
  intros Hi. unfold on_receiver_sps. rewrite Hi.
  assert (Hp : set_ots_receiver (<[i := []]> (ots_receiver_ p))
                 (set_sps (pw_set w (pw_get w (sps_ p)) (sps_ p)) p) = p).
  { rewrite list_insert_id by done. rewrite pw_set_get. by destruct p. }
  unfold ParseHelperReceive. destruct (count w p) as [|n].
  - cbn [batch_loop]. rewrite decide_False by lia. unfold ret.
    by rewrite Hp, decide_True.
  - cbn [batch_loop]. rewrite decide_True by lia.
    unfold bind at 1 2, front. by rewrite Hp, decide_False.
Qed.

Lemma widths_on_empty (f : width -> M SpProviderFromOts unit)
  (p : SpProviderFromOts) (ws : list width) :
  (forall w, f w p = (if decide (count w p = 0)%nat
                      then Ok tt else Throw undefined_behaviour, p)) ->
  Exists (fun w => 0 < count w p)%nat ws ->
  for_each ws f p = (Throw undefined_behaviour, p).
Proof.
  intros Hf. induction ws as [|w ws IH]; intros Hex; [by inversion Hex|].
  cbn [for_each]. unfold bind. rewrite Hf.
  destruct (decide (count w p = 0)%nat) as [Hz|Hnz]; [|done].
  apply IH. inversion Hex; subst; [lia|done].
Qed.

Lemma all_widths (w : width) : w ∈ widths.
Proof. unfold widths. destruct w; repeat constructor. Qed.

Lemma ParseOutputs_on_empty (p : SpProviderFromOts) :
  ots_sender_ p = replicate (ot_providers_size p) [] ->
  ots_receiver_ p = replicate (ot_providers_size p) [] ->
  (exists w, 0 < count w p)%nat ->
  (exists i, i < ot_providers_size p /\ i <> my_id_ p)%nat ->
  ParseOutputs B p = (Throw undefined_behaviour, p).
Proof.
  intros Hs Hr [w Hw] [i [Hi Hne]].
  assert (Hex : Exists (fun w => 0 < count w p)%nat widths).
  { apply Exists_exists. exists w. split; [apply all_widths|done]. }
  unfold ParseOutputs, for_peers.
  assert (Hgen : forall l,
    Forall (fun j => j < ot_providers_size p)%nat l ->
    Exists (fun j => j <> my_id_ p) l ->
    for_each l (fun i0 =>
      if decide (i0 = my_id_ p) then ret tt
      else if decide (i0 < my_id_ p)%nat then
        for_each widths (fun w0 p0 =>
          on_sender_sps i0 w0 (ParseHelperSend w0 B (count w0 p0)) p0)
      else if decide (my_id_ p < i0)%nat then
        for_each widths (fun w0 p0 =>
          on_receiver_sps i0 w0 (ParseHelperReceive w0 B (count w0 p0)) p0)
      else ret tt) p = (Throw undefined_behaviour, p)).
  { induction l as [|j l IH]; intros Hall Hexl; [by inversion Hexl|].
    inversion Hall as [|? ? Hj Hall']; subst.
    cbn [for_each]. unfold bind.
    destruct (decide (j = my_id_ p)) as [->|Hjm].
    - unfold ret. apply IH; [done|]. inversion Hexl; subst; done.
    - destruct (decide (j < my_id_ p)%nat).
      + rewrite (widths_on_empty _ p widths); [done| |done].
        intros w0. apply sender_parse_on_empty.
        rewrite Hs. by apply lookup_replicate_2.
      + rewrite decide_True by lia.
        rewrite (widths_on_empty _ p widths); [done| |done].
        intros w0. apply receiver_parse_on_empty.
        rewrite Hr. by apply lookup_replicate_2. }
  apply Hgen.
  - apply Forall_forall. intros j Hj. apply elem_of_seq in Hj. lia.
  - apply Exists_exists. exists i. split; [|done]. apply elem_of_seq. lia.
Qed.

Lemma Setup_on_empty (env : ot_outputs) (p : SpProviderFromOts) :
  NeedSps p = true ->
  ots_sender_ p = replicate (ot_providers_size p) [] ->
  ots_receiver_ p = replicate (ot_providers_size p) [] ->
  (exists w, 0 < count w p)%nat ->
  (exists i, i < ot_providers_size p /\ i <> my_id_ p)%nat ->
  exists p',
    Setup B env p = (Throw undefined_behaviour, p') /\
    finished_ p' = finished_ p.
Proof.
  intros Hneed Hs Hr Hw Hi.
  set (pe := set_events (events_ p ++ [RecordStart kSpSetup]) p).
  destruct (drive_ots_ok 1 ltac:(lia) env pe) as
    (p2 & evs & Hrun & Hc & Hfin & _ & _ & _ & Hls & Hlr & Hsend & Hrecv).
  { cbn. rewrite Hs. apply length_replicate. }
  { cbn. rewrite Hr. apply length_replicate. }
  assert (Hsize : ot_providers_size p2 = ot_providers_size p)
    by (by destruct Hc as (_ & -> & _)).
  assert (Hs2 : ots_sender_ p2 = replicate (ot_providers_size p2) []).
  { apply all_empty_replicate; [by rewrite Hsize|]. intros q hs Hq.
    assert (Hq0 : ots_sender_ pe !! q = Some []).
    { cbn. rewrite Hs. apply lookup_replicate_2.
      apply lookup_lt_Some in Hq. cbn in Hls. lia. }
    rewrite (Hsend q [] Hq0) in Hq. destruct (decide _); by inversion Hq. }
  assert (Hr2 : ots_receiver_ p2 = replicate (ot_providers_size p2) []).
  { apply all_empty_replicate; [by rewrite Hsize|]. intros q hs Hq.
    assert (Hq0 : ots_receiver_ pe !! q = Some []).
    { cbn. rewrite Hr. apply lookup_replicate_2.
      apply lookup_lt_Some in Hq. cbn in Hlr. lia. }
    rewrite (Hrecv q [] Hq0) in Hq. destruct (decide _); by inversion Hq. }
  assert (Hparse : ParseOutputs B p2 = (Throw undefined_behaviour, p2)).
  { apply ParseOutputs_on_empty; [done|done| |].
    - destruct Hw as [w Hw]. exists w.
      by rewrite (same_config_count pe p2 w Hc).
    - destruct Hi as [i Hi]. exists i. destruct Hc as (-> & _ & _).
      by rewrite Hsize. }
  exists p2. split; [|by rewrite Hfin].
  unfold Setup. rewrite Hneed. cbn [negb].
  unfold bind at 1, emit at 1, modify. fold pe.
  unfold bind at 1. rewrite Hrun. unfold bind at 1. by rewrite Hparse.
Qed.

End EmptyLists.

(** X19: [Setup] before [PreSetup]: on a provider as the constructors leave it,
    with pairs requested and at least one peer, [Setup] calls [front()] on
    an empty handle list, which has no defined behaviour, and [finished_]
    is not set. *)
Theorem Setup_before_PreSetup_is_undefined (B my_id parties : nat)
  (counts : per_width Z) (env : ot_outputs) :
  (forall w, 0 <= pw_get w counts) ->
  NeedSps (requested my_id parties counts) = true ->
  (my_id < parties)%nat -> (2 <= parties)%nat ->
  exists p',
    Setup B env (requested my_id parties counts)
    = (Throw undefined_behaviour, p') /\
    finished_ p' = false.
Proof.
  intros Hnn Hneed Hid HP.
  apply (Setup_on_empty B env (requested my_id parties counts));
    [done|done|done| |].
  - by apply NeedSps_some_count.
  - cbn. destruct my_id as [|my]; [exists 1%nat | exists 0%nat]; lia.
Qed.

Lemma Setup_before_PreSetup_is_undefined_witness :
  exists p',
    Setup 1 no_outputs (requested 0 2 (mkPerWidth 1 0 0 0 0))
    = (Throw undefined_behaviour, p') /\
    finished_ p' = false.
Proof.
  apply (Setup_before_PreSetup_is_undefined 1 0 2 (mkPerWidth 1 0 0 0 0)
           no_outputs).
  - intros w. destruct w; cbn; lia.
  - reflexivity.
  - lia.
  - lia.
Defined.

(** *** A run of several parties, once more *)

Section Consumed.

Variable B : nat.
Hypothesis B_pos : (0 < B)%nat.
Variable P : nat.
Variable counts : per_width Z.
Variable rnd : nat -> width -> nat -> Z.
Variable env : nat -> ot_outputs.
Hypothesis contract : meets_acot_contract P (party_pre B P counts rnd) env.
Hypothesis need : NeedSps (party_init P counts 0) = true.

Lemma party_fin_config (p : nat) :
  (p < P)%nat ->
  same_config (party_init P counts p) (party_fin B P counts rnd env p).
Proof.
  intros Hp. destruct (pre_registered B B_pos P counts rnd need p)
    as [_ Hreg].
  eapply same_config_trans; [exact (reg_config _ _ _ _ Hreg)|].
  unfold party_fin.
  destruct (Setup B (env p) (party_pre B P counts rnd p)) as [r p'] eqn:E.
  exact (keeps_config_Setup B (env p) _ _ r p' E (same_config_refl _)).
Qed.

Lemma party_fin_lists (p : nat) :
  (p < P)%nat ->
  ots_sender_ (party_fin B P counts rnd env p) = replicate P [] /\
  ots_receiver_ (party_fin B P counts rnd env p) = replicate P [].
Proof.
  intros Hp.
  destruct (pre_registered B B_pos P counts rnd need p) as [_ Hreg].
  destruct (party_fin_ok B B_pos P counts rnd env contract need p Hp)
    as (Hset & _ & _).
  pose proof (Setup_flag B (env p) _ _ _ Hset) as [_ Hok].
  assert (Hneedp : NeedSps (party_pre B P counts rnd p) = true).
  { rewrite (NeedSps_same_config _ _ (reg_config _ _ _ _ Hreg)).
    exact need. }
  destruct (Hok Hneedp) as (p2 & p3 & Hdrive & Hparse & _ & Hfin).
  set (pe := set_events
               (events_ (party_pre B P counts rnd p) ++ [RecordStart kSpSetup])
               (party_pre B P counts rnd p)) in *.
  destruct (drive_ots_ok B B_pos (env p) pe) as
    (p2' & evs & Hrun & Hc & _ & _ & _ & _ & Hls & Hlr & Hsend & Hrecv).
  { destruct (reg_config _ _ _ _ Hreg) as (_ & Hsz0 & _). unfold pe. cbn.
    by rewrite (reg_len_s _ _ _ _ Hreg), Hsz0. }
  { destruct (reg_config _ _ _ _ Hreg) as (_ & Hsz0 & _). unfold pe. cbn.
    by rewrite (reg_len_r _ _ _ _ Hreg), Hsz0. }
  rewrite Hdrive in Hrun. inversion Hrun; subst p2'. clear Hrun.
  destruct (ParseOutputs_pops B B_pos p2 p3 Hparse) as (Hc3 & Hq).
  assert (Hce : same_config (party_init P counts p) pe)
    by exact (reg_config _ _ _ _ Hreg).
  assert (Hc2 : same_config (party_init P counts p) p2)
    by (eapply same_config_trans; eauto).
  assert (Hmy : my_id_ p2 = p) by (by destruct Hc2 as (-> & _ & _)).
  assert (Hsz : ot_providers_size p2 = P) by (by destruct Hc2 as (_ & -> & _)).
  assert (Htot : handles_per_peer B p2
                 = offset (fun w => batches B (count w (party_init P counts p)))
                     (length widths)).
  { unfold handles_per_peer, offset. cbn [length widths take].
    apply sum_list_with_same. intros w.
    by rewrite (same_config_count _ _ w Hc2). }
  assert (HszE : ot_providers_size pe = P)
    by (by destruct Hce as (_ & -> & _)).
  rewrite HszE in Hls, Hlr.
  rewrite Hfin. cbn [ots_sender_ ots_receiver_ set_events set_finished].
  split.
  - apply all_empty_replicate.
    { apply Nat.le_antisymm.
      - apply Nat.nlt_ge. intros Hlt.
        destruct (lookup_lt_is_Some_2 (ots_sender_ p3) P Hlt) as [hs Hhs].
        destruct (Hq P) as [Hs _]. rewrite Hs in Hhs.
        rewrite decide_False in Hhs by lia.
        apply lookup_lt_Some in Hhs. lia.
      - apply Nat.nlt_ge. intros Hlt.
        assert (Hlt2 : (length (ots_sender_ p3) < length (ots_sender_ p2))%nat)
          by lia.
        destruct (lookup_lt_is_Some_2 (ots_sender_ p2) _ Hlt2) as [hs Hhs].
        destruct (Hq (length (ots_sender_ p3))) as [Hs _].
        assert (Hnone : ots_sender_ p3 !! length (ots_sender_ p3) = None)
          by (by apply lookup_ge_None_2).
        rewrite Hs, Hhs in Hnone. by destruct (decide _). }
    intros q hs Hhs. destruct (Hq q) as [Hs _]. rewrite Hs in Hhs. clear Hs.
    assert (HqP : (q < P)%nat).
    { destruct (decide _) as [[_ ?]|_].
      - lia.
      - apply lookup_lt_Some in Hhs. lia. }
    destruct (decide (q < p)%nat) as [Hqp|Hqp].
    + destruct (reg_sender _ _ _ _ Hreg q Hqp HqP) as (ls & Hls0 & Hlen & _).
      rewrite (Hsend q ls Hls0) in Hhs.
      rewrite decide_True in Hhs by lia.
      cbn [fmap option_fmap option_map] in Hhs.
      inversion Hhs; subst hs. apply drop_ge.
      destruct (decide _); rewrite ?length_imap, Htot; lia.
    + assert (Hl0 : ots_sender_ pe !! q = Some [])
        by (apply (reg_no_sender _ _ _ _ Hreg); cbn; lia).
      rewrite (Hsend q [] Hl0) in Hhs.
      rewrite decide_False in Hhs by lia.
      destruct (decide _); by inversion Hhs.
  - apply all_empty_replicate.
    { apply Nat.le_antisymm.
      - apply Nat.nlt_ge. intros Hlt.
        destruct (lookup_lt_is_Some_2 (ots_receiver_ p3) P Hlt) as [hs Hhs].
        destruct (Hq P) as [_ Hr]. rewrite Hr in Hhs.
        rewrite decide_False in Hhs by lia.
        apply lookup_lt_Some in Hhs. lia.
      - apply Nat.nlt_ge. intros Hlt.
        assert (Hlt2 : (length (ots_receiver_ p3)
                        < length (ots_receiver_ p2))%nat) by lia.
        destruct (lookup_lt_is_Some_2 (ots_receiver_ p2) _ Hlt2) as [hs Hhs].
        destruct (Hq (length (ots_receiver_ p3))) as [_ Hr].
        assert (Hnone : ots_receiver_ p3 !! length (ots_receiver_ p3) = None)
          by (by apply lookup_ge_None_2).
        rewrite Hr, Hhs in Hnone. by destruct (decide _). }
    intros q hs Hhs. destruct (Hq q) as [_ Hr]. rewrite Hr in Hhs. clear Hr.
    assert (HqP : (q < P)%nat).
    { destruct (decide _) as [[_ ?]|_].
      - lia.
      - apply lookup_lt_Some in Hhs. lia. }
    destruct (decide (p < q)%nat) as [Hqp|Hqp].
    + destruct (reg_receiver _ _ _ _ Hreg q ltac:(cbn; lia))
        as (lr & Hlr0 & Hlen & _).
      rewrite (Hrecv q lr Hlr0) in Hhs.
      rewrite decide_True in Hhs by lia.
      cbn [fmap option_fmap option_map] in Hhs.
      inversion Hhs; subst hs. apply drop_ge.
      destruct (decide _); rewrite ?length_imap, Htot; lia.
    + assert (Hl0 : ots_receiver_ pe !! q = Some [])
        by (apply (reg_no_receiver _ _ _ _ Hreg); cbn; lia).
      rewrite (Hrecv q [] Hl0) in Hhs.
      rewrite decide_False in Hhs by lia.
      destruct (decide _); by inversion Hhs.
Qed.

End Consumed.

(** X20: in a run of several parties [Setup] uses up every OT handle that
    [PreSetup] registered: when it has returned, the sender list and the
    receiver list of every peer are empty on every party. *)
Theorem Setup_consumes_every_handle (B P : nat) (counts : per_width Z)
  (rnd : nat -> width -> nat -> Z) (env : nat -> ot_outputs) :
  (0 < B)%nat ->
  meets_acot_contract P (party_pre B P counts rnd) env ->
  NeedSps (requested 0 P counts) = true ->
  forall p, (p < P)%nat ->
    Setup B (env p) (party_pre B P counts rnd p)
    = (Ok tt, party_fin B P counts rnd env p) /\
    forall q, (q < P)%nat ->
      ots_sender_ (party_fin B P counts rnd env p) !! q = Some [] /\
      ots_receiver_ (party_fin B P counts rnd env p) !! q = Some [].
Proof.
  intros HB Hcontract Hneed p Hp.
  destruct (party_fin_ok B HB P counts rnd env Hcontract Hneed p Hp)
    as (Hset & _ & _).
  split; [done|]. intros q Hq.
  destruct (party_fin_lists B HB P counts rnd env Hcontract Hneed p Hp)
    as [-> ->].
  split; by apply lookup_replicate_2.
Qed.

(** X21: [Setup] must not be called twice: after a successful [Setup] in a run
    with at least two parties, a second call finds the handle lists empty
    and calls [front()] on one of them, which has no defined behaviour;
    [finished_] stays true. *)
Theorem second_Setup_is_undefined (B P : nat) (counts : per_width Z)
  (rnd : nat -> width -> nat -> Z) (env : nat -> ot_outputs) :
  (0 < B)%nat ->
  meets_acot_contract P (party_pre B P counts rnd) env ->
  (forall w, 0 <= pw_get w counts) ->
  NeedSps (requested 0 P counts) = true ->
  (2 <= P)%nat ->
  forall p (again : ot_outputs), (p < P)%nat ->
    exists p',
      Setup B again (party_fin B P counts rnd env p)
      = (Throw undefined_behaviour, p') /\
      finished_ p' = true.
Proof.
  intros HB Hcontract Hnn Hneed HP p again Hp.
  destruct (party_fin_ok B HB P counts rnd env Hcontract Hneed p Hp)
    as (_ & Hfin & _).
  destruct (party_fin_lists B HB P counts rnd env Hcontract Hneed p Hp)
    as [Hs Hr].
  pose proof (party_fin_config B HB P counts rnd env Hneed p Hp) as Hc.
  assert (Hsz : ot_providers_size (party_fin B P counts rnd env p) = P)
    by (by destruct Hc as (_ & -> & _)).
  assert (Hmy : my_id_ (party_fin B P counts rnd env p) = p)
    by (by destruct Hc as (-> & _ & _)).
  destruct (Setup_on_empty B again (party_fin B P counts rnd env p))
    as (p' & Hrun & Hf).
  - rewrite (NeedSps_same_config _ _ Hc). exact Hneed.
  - by rewrite Hsz.
  - by rewrite Hsz.
  - destruct (NeedSps_some_count (party_init P counts p) Hnn Hneed) as [w Hw].
    exists w. by rewrite (same_config_count _ _ w Hc).
  - rewrite Hsz, Hmy. destruct p as [|p0]; [exists 1%nat | exists 0%nat]; lia.
  - exists p'. split; [done|]. by rewrite Hf.
Qed.

(** Two parties, one pair of 8 bit and one of 128 bit, batches of one. *)
Definition two_party_counts : per_width Z := mkPerWidth 1 0 0 0 1.

Definition two_party_rnd (p : nat) (_ : width) (i : nat) : Z :=
  Z.of_nat (p + i) + 3.

Definition two_party_env : nat -> ot_outputs :=
  acot_env (party_pre 1 2 two_party_counts two_party_rnd)
    (fun p q h t => Z.of_nat (p + q + h + t)).

Lemma ParseOutputs_pops_one_handle_per_batch_witness :
  let p := party_driven 1 2 two_party_counts two_party_rnd two_party_env 1 in
  let p' := snd (ParseOutputs 1 p) in
  ParseOutputs 1 p = (Ok tt, p') /\
  same_config p p' /\
  forall q,
    ots_sender_ p' !! q
    = (if decide (q < my_id_ p /\ q < ot_providers_size p)%nat
       then drop (handles_per_peer 1 p) <$> ots_sender_ p !! q
       else ots_sender_ p !! q) /\
    ots_receiver_ p' !! q
    = (if decide (my_id_ p < q < ot_providers_size p)%nat
       then drop (handles_per_peer 1 p) <$> ots_receiver_ p !! q
       else ots_receiver_ p !! q).
Proof.
  intros p p'.
  assert (E : ParseOutputs 1 p = (Ok tt, p')) by (vm_compute; reflexivity).
  split; [exact E|].
  exact (ParseOutputs_pops_one_handle_per_batch 1 p p' ltac:(lia) E).
Defined.

Lemma Setup_consumes_every_handle_witness :
  Setup 1 (two_party_env 1)
    (party_pre 1 2 two_party_counts two_party_rnd 1)
  = (Ok tt, party_fin 1 2 two_party_counts two_party_rnd two_party_env 1) /\
  forall q, (q < 2)%nat ->
    ots_sender_
      (party_fin 1 2 two_party_counts two_party_rnd two_party_env 1) !! q
    = Some [] /\
    ots_receiver_
      (party_fin 1 2 two_party_counts two_party_rnd two_party_env 1) !! q
    = Some [].
Proof.
  apply (Setup_consumes_every_handle 1 2 two_party_counts two_party_rnd
           two_party_env).
  - lia.
  - apply acot_env_meets_contract. lia.
  - reflexivity.
  - lia.
Defined.

Lemma second_Setup_is_undefined_witness :
  exists p',
    Setup 1 no_outputs
      (party_fin 1 2 two_party_counts two_party_rnd two_party_env 0)
    = (Throw undefined_behaviour, p') /\
    finished_ p' = true.
Proof.
  apply (second_Setup_is_undefined 1 2 two_party_counts two_party_rnd
           two_party_env).
  - lia.
  - apply acot_env_meets_contract. lia.
  - intros w. destruct w; cbn; lia.
  - reflexivity.
  - lia.
  - lia.
Defined.

(** *** A provider without peers *)

Lemma drive_ots_alone (env : ot_outputs) (p : SpProviderFromOts) :
  ot_providers_size p = 1%nat -> my_id_ p = 0%nat ->
  drive_ots env p = (Ok tt, p).
Proof.
  intros Hsz Hmy. unfold drive_ots. rewrite Hsz, Hmy.
  cbn [seq for_each]. by rewrite decide_True.
Qed.

Lemma ParseOutputs_alone (B : nat) (p : SpProviderFromOts) :
  ot_providers_size p = 1%nat -> my_id_ p = 0%nat ->
  ParseOutputs B p = (Ok tt, p).
Proof.
  intros Hsz Hmy. unfold ParseOutputs, for_peers. rewrite Hsz, Hmy.
  cbn [seq for_each]. by rewrite decide_True.
Qed.

(** X22: with a single party there is no OT to run: [PreSetup] registers no
    handle, [Setup] returns normally, sets [finished_] and leaves the
    pairs as [PreSetup] generated them, [c_W[i] = a_W[i]^2 mod 2^W]. *)
Theorem single_party_needs_no_OT (B : nat) (rnd : width -> nat -> Z)
  (env : ot_outputs) (counts : per_width Z) :
  (0 < B)%nat ->
  NeedSps (requested 0 1 counts) = true ->
  exists p1 p2,
    PreSetup B rnd (requested 0 1 counts) = (Ok tt, p1) /\
    ots_sender_ p1 = [[]] /\ ots_receiver_ p1 = [[]] /\
    Setup B env p1 = (Ok tt, p2) /\
    finished_ p2 = true /\
    sps_ p2 = sps_ p1 /\
    forall w i x,
      a (pw_get w (sps_ p2)) !! i = Some x ->
      c (pw_get w (sps_ p2)) !! i = Some (to_T w (x * x)).
Proof.
  intros HB Hneed.
  destruct (PreSetup_ok B HB rnd (requested 0 1 counts))
    as (p1 & Hrun & _ & Hreg); [done|].
  specialize (Hreg Hneed).
  destruct (reg_config _ _ _ _ Hreg) as (Hmy & Hsz & Hn).
  cbn [my_id_ ot_providers_size requested] in Hmy, Hsz.
  assert (Hs : ots_sender_ p1 = [[]]).
  { apply (all_empty_replicate _ 1); [exact (reg_len_s _ _ _ _ Hreg)|].
    intros q hs Hq. pose proof (lookup_lt_Some _ _ _ Hq) as Hlt.
    rewrite (reg_len_s _ _ _ _ Hreg) in Hlt. cbn in Hlt.
    rewrite (reg_no_sender _ _ _ _ Hreg q) in Hq by (cbn; lia).
    by inversion Hq. }
  assert (Hr : ots_receiver_ p1 = [[]]).
  { apply (all_empty_replicate _ 1); [exact (reg_len_r _ _ _ _ Hreg)|].
    intros q hs Hq. pose proof (lookup_lt_Some _ _ _ Hq) as Hlt.
    rewrite (reg_len_r _ _ _ _ Hreg) in Hlt. cbn in Hlt.
    rewrite (reg_no_receiver _ _ _ _ Hreg q) in Hq by (cbn; lia).
    by inversion Hq. }
  assert (Hneed1 : NeedSps p1 = true)
    by (by rewrite (NeedSps_same_config _ _ (reg_config _ _ _ _ Hreg))).
  eexists p1, _. split; [done|]. split; [done|]. split; [done|].
  split.
  { unfold Setup. rewrite Hneed1. cbn [negb].
    unfold bind at 1, emit at 1, modify.
    unfold bind at 1. rewrite drive_ots_alone by done.
    unfold bind at 1. rewrite ParseOutputs_alone by done.
    reflexivity. }
  cbn. split; [done|]. split; [done|].
  intros w i x Hx. rewrite (reg_sps _ _ _ _ Hreg w) in *.
  unfold fresh_pairs in *. cbn [a c] in *.
  rewrite list_lookup_fmap, Hx. done.
Qed.

Lemma single_party_needs_no_OT_witness :
  exists p1 p2,
    PreSetup 4 no_rnd (requested 0 1 (mkPerWidth 0 2 0 0 0)) = (Ok tt, p1) /\
    Setup 4 no_outputs p1 = (Ok tt, p2) /\
    finished_ p2 = true.
Proof.
  destruct (single_party_needs_no_OT 4 no_rnd no_outputs
              (mkPerWidth 0 2 0 0 0) ltac:(lia) eq_refl)
    as (p1 & p2 & Hpre & _ & _ & Hset & Hfin & _).
  by exists p1, p2.
Defined.

End SpHelpers.
